(** * A shallow embedding of the CO2MPAS dispatcher core and of the code
    around it: the cycle-branch predicates, the report-tuple generator with
    its consumers, and the node labels of the dispatcher plots. *)

From Stdlib Require Import String Ascii List Bool Arith Lia Permutation.
Import ListNotations.

(** ** The dispatcher *)

(** Modelled from the spec: the dispatcher's resolver (its section 4.2) is not
    among the repository's sources; the model wiring of
    [compas/models/physical/engine/__init__.py], [co2mpas/model/physical/cycle]
    and [dispatcher/draw.py] only calls it. The weighted best-first loop below
    follows the spec's steps 1-6 and its failure semantics. *)
Module Dispatcher.

Definition id := string.

(** The sentinel data node, always resolved at cost 0. *)
Definition START : id := "start"%string.

(** Where a settled value (or a queued candidate) comes from. *)
Inductive prov : Type :=
| PInput
| PStart
| PDefault
| PFun (i : nat).

(** Tie-break rank: seeded entries first, then functions by registration index. *)
Definition prov_rank (p : prov) : nat :=
  match p with PFun i => S i | _ => 0 end.

Record entry : Type := mk_entry { e_cost : nat; e_id : id; e_prov : prov }.

Definition entry_lt (a b : entry) : bool :=
  (e_cost a <? e_cost b)
  || ((e_cost a =? e_cost b) && (prov_rank (e_prov a) <? prov_rank (e_prov b))).

(** Extraction of the lowest entry of the priority queue (the first one among
    equal keys); duplicates are allowed, there is no decrease-key. *)
Fixpoint select (best : entry) (rest : list entry) : entry * list entry :=
  match rest with
  | [] => (best, [])
  | e :: r =>
      if entry_lt e best then
        let '(b, r') := select e r in (b, best :: r')
      else
        let '(b, r') := select best r in (b, e :: r')
  end.

Definition pop_min (q : list entry) : option (entry * list entry) :=
  match q with [] => None | e :: r => Some (select e r) end.

Definition mem (x : id) (l : list id) : bool := existsb (String.eqb x) l.

Fixpoint assoc {A : Type} (k : id) (l : list (id * A)) : option A :=
  match l with
  | [] => None
  | (k', a) :: r => if String.eqb k k' then Some a else assoc k r
  end.

Fixpoint assoc_nat {A : Type} (k : nat) (l : list (nat * A)) : option A :=
  match l with
  | [] => None
  | (k', a) :: r => if Nat.eqb k k' then Some a else assoc_nat k r
  end.

(** Position of the first occurrence of [o] in [l]. *)
Fixpoint index_of (o : id) (l : list id) : nat :=
  match l with
  | [] => 0
  | x :: r => if String.eqb o x then 0 else S (index_of o r)
  end.

Section Resolver.

Context {V : Type}.
(** The value stored for [START] (Python's [None]). *)
Variable none : V.

(** A function node: required inputs (AND), produced outputs (matched
    positionally to the callable's results), weight, optional
    [input_domain] predicate over the raw inputs, and the callable; [None]
    as a result stands for a raised exception. *)
Record fnode : Type := mk_fnode {
  fn_id : id;
  fn_inputs : list id;
  fn_outputs : list id;
  fn_weight : nat;
  fn_domain : option (list (id * V) -> bool);
  fn_call : list V -> option (list V)
}.

Record dnode : Type := mk_dnode { dn_id : id; dn_default : option V }.

(** The capability graph; the index of a function node in [fun_nodes] is its
    registration order. *)
Record graph : Type := mk_graph { data_nodes : list dnode; fun_nodes : list fnode }.

(** The workflow recorder's events. *)
Inductive event : Type :=
| Settle (d : id) (v : V) (p : prov)
| Invoke (i : nat) (args : list V) (outs : list V)
| Fail (i : nat).

(** Per-run state: the queue, [settled : data_id -> (value, cost, producer)],
    the discarded flags, the results of the callables already invoked and
    the workflow (in chronological order). *)
Record state : Type := mk_state {
  queue : list entry;
  settled : list (id * (V * nat * prov));
  discarded : list nat;
  results : list (nat * list V);
  workflow : list event
}.

Definition is_settled (st : state) (d : id) : bool :=
  match assoc d (settled st) with Some _ => true | None => false end.

Definition cost_of (st : state) (d : id) : nat :=
  match assoc d (settled st) with Some (_, c, _) => c | None => 0 end.

Definition value_of (st : state) (d : id) : V :=
  match assoc d (settled st) with Some (v, _, _) => v | None => none end.

Definition is_discarded (st : state) (i : nat) : bool :=
  existsb (Nat.eqb i) (discarded st).

(** The data nodes a function waits for: its inputs, or [START] when it has
    none (a function without inputs is reachable from [START]). *)
Definition consumes (f : fnode) : list id :=
  match fn_inputs f with [] => [START] | l => l end.

(** The pending-input counter of [f] is zero. *)
Definition ready (st : state) (f : fnode) : bool :=
  forallb (is_settled st) (consumes f).

Definition max_cost (st : state) (l : list id) : nat :=
  fold_right (fun x acc => Nat.max (cost_of st x) acc) 0 l.

(** [candidate_cost = weight + max(cost of each required input)]. *)
Definition candidate_cost (st : state) (f : fnode) : nat :=
  fn_weight f + max_cost st (consumes f).

(** The [input_domain] predicate, evaluated on the raw [inputs] map. *)
Definition eligible (raw : list (id * V)) (f : fnode) : bool :=
  match fn_domain f with None => true | Some p => p raw end.

Definition set_queue (st : state) (q : list entry) : state :=
  mk_state q (settled st) (discarded st) (results st) (workflow st).

Definition discard (st : state) (i : nat) : state :=
  mk_state (queue st) (settled st) (i :: discarded st) (results st) (workflow st).

(** Step 3 for one consumer [f] (index [i]) of the data node [d] just settled. *)
Definition relax_fun (raw : list (id * V)) (d : id) (st : state) (i : nat) (f : fnode)
  : state :=
  if mem d (consumes f) && ready st f && negb (is_discarded st i) then
    if eligible raw f then
      set_queue st (queue st ++
        map (fun o => mk_entry (candidate_cost st f) o (PFun i))
            (filter (fun o => negb (is_settled st o)) (fn_outputs f)))
    else discard st i
  else st.

Fixpoint relax_from (raw : list (id * V)) (d : id) (i : nat) (fs : list fnode)
  (st : state) : state :=
  match fs with
  | [] => st
  | f :: fs' => relax_from raw d (S i) fs' (relax_fun raw d st i f)
  end.

(** Steps 2 and 3: mark [d] settled and relax its consumers. *)
Definition settle (g : graph) (raw : list (id * V)) (d : id) (v : V) (c : nat)
  (p : prov) (st : state) : state :=
  relax_from raw d 0 (fun_nodes g)
    (mk_state (queue st) ((d, (v, c, p)) :: settled st) (discarded st)
       (results st) (workflow st ++ [Settle d v p])).

Definition record_invoke (st : state) (i : nat) (args outs : list V) : state :=
  mk_state (queue st) (settled st) (discarded st) ((i, outs) :: results st)
    (workflow st ++ [Invoke i args outs]).

Definition record_fail (st : state) (i : nat) : state :=
  mk_state (queue st) (settled st) (i :: discarded st) (results st)
    (workflow st ++ [Fail i]).

Definition output_value (f : fnode) (outs : list V) (o : id) : V :=
  nth (index_of o (fn_outputs f)) outs none.

Fixpoint first_default (st : state) (ds : list dnode) : option (id * V) :=
  match ds with
  | [] => None
  | dn :: r =>
      match dn_default dn with
      | Some v => if is_settled st (dn_id dn) then first_default st r else Some (dn_id dn, v)
      | None => first_default st r
      end
  end.

Inductive outcome : Type := Halt | Next (st : state).

(** Modelled from the spec: one iteration of the resolver loop (steps 1-4 and
    6; defaults are settled at cost 0 once the queue is exhausted). *)
Definition step (g : graph) (raw : list (id * V)) (req : list id) (st : state) : outcome :=
  if negb (match req with [] => true | _ => false end) && forallb (is_settled st) req
  then Halt
  else
  match pop_min (queue st) with
  | None =>
      (* the queue is exhausted: defaults, the weakest source, at cost 0 *)
      match first_default st (data_nodes g) with
      | Some (d, v) => Next (settle g raw d v 0 PDefault st)
      | None => Halt
      end
  | Some (e, q) =>
      let st0 := set_queue st q in
      let d := e_id e in
      let c := e_cost e in
      if is_settled st0 d then Next st0 else
      match e_prov e with
      | PInput =>
          match assoc d raw with
          | Some v => Next (settle g raw d v c PInput st0)
          | None => Next st0
          end
      | PStart => Next (settle g raw d none c PStart st0)
      | PDefault => Next st0
      | PFun i =>
          match nth_error (fun_nodes g) i with
          | None => Next st0
          | Some f =>
              if is_discarded st0 i then Next st0 else
              match assoc_nat i (results st0) with
              | Some outs => Next (settle g raw d (output_value f outs d) c (PFun i) st0)
              | None =>
                  let args := map (value_of st0) (fn_inputs f) in
                  match fn_call f args with
                  | Some outs =>
                      if length outs =? length (fn_outputs f) then
                        Next (settle g raw d (output_value f outs d) c (PFun i)
                                (record_invoke st0 i args outs))
                      else Next (record_fail st0 i)
                  | None => Next (record_fail st0 i)
                  end
              end
          end
      end
  end.

(** The queue is seeded with every key of [inputs] and with [START], at cost 0. *)
Definition init (raw : list (id * V)) : state :=
  mk_state (map (fun kv => mk_entry 0 (fst kv) PInput) raw ++ [mk_entry 0 START PStart])
    [] [] [] [].

Fixpoint run (g : graph) (raw : list (id * V)) (req : list id) (fuel : nat) (st : state)
  : option state :=
  match fuel with
  | 0 => None
  | S n =>
      match step g raw req st with
      | Halt => Some st
      | Next st' => run g raw req n st'
      end
  end.

(** Every id the run can ever settle. *)
Definition universe (g : graph) (raw : list (id * V)) : list id :=
  START :: map fst raw ++ map dn_id (data_nodes g) ++ flat_map fn_outputs (fun_nodes g).

Definition pushes_bound (g : graph) : nat := length (flat_map fn_outputs (fun_nodes g)).

Definition measure (g : graph) (raw : list (id * V)) (st : state) : nat :=
  (length (universe g raw) - length (settled st)) * S (pushes_bound g)
  + length (queue st).

Definition final_state (g : graph) (raw : list (id * V)) (req : list id) : option state :=
  run g raw req (S (measure g raw (init raw))) (init raw).

Definition solution (st : state) : list (id * V) :=
  map (fun s => (fst s, fst (fst (snd s)))) (settled st).

(** Modelled from the spec:
    [dispatch(inputs, requested_outputs, graph) -> (solution, workflow)]. *)
Definition dispatch (g : graph) (raw : list (id * V)) (req : list id)
  : option (list (id * V) * list event) :=
  match final_state g raw req with
  | Some st => Some (solution st, workflow st)
  | None => None
  end.

(** The ids a run can reach whatever the order of events: an input key,
    [START], a data node with a default value, or an output of an eligible
    function whose callable returns normally, with one value per output,
    on every argument list, and whose inputs are all reachable. *)
Inductive settleable (g : graph) (raw : list (id * V)) : id -> Prop :=
| sb_input (k : id) : In k (map fst raw) -> settleable g raw k
| sb_start : settleable g raw START
| sb_default (dn : dnode) (v : V) :
    In dn (data_nodes g) -> dn_default dn = Some v -> settleable g raw (dn_id dn)
| sb_fun (i : nat) (f : fnode) (o : id) :
    nth_error (fun_nodes g) i = Some f -> eligible raw f = true ->
    (forall args, exists outs, fn_call f args = Some outs /\
       length outs = length (fn_outputs f)) ->
    In o (fn_outputs f) -> (forall x, In x (consumes f) -> settleable g raw x) ->
    settleable g raw o.

End Resolver.


(** ** Basic facts: the queue, association lists, relaxation *)

Lemma entry_lt_true (a b : entry) :
  entry_lt a b = true <->
  e_cost a < e_cost b \/
  (e_cost a = e_cost b /\ prov_rank (e_prov a) < prov_rank (e_prov b)).
Proof.
  unfold entry_lt. rewrite orb_true_iff, andb_true_iff, !Nat.ltb_lt, Nat.eqb_eq.
  tauto.
Qed.

Lemma entry_lt_false (a b : entry) :
  entry_lt a b = false <->
  e_cost b < e_cost a \/
  (e_cost a = e_cost b /\ prov_rank (e_prov b) <= prov_rank (e_prov a)).
Proof.
  destruct (entry_lt a b) eqn:E.
  - apply entry_lt_true in E. split; [discriminate | lia].
  - split; [intros _ | reflexivity].
    destruct (Nat.lt_ge_cases (e_cost b) (e_cost a)); [left; assumption|].
    destruct (Nat.eq_dec (e_cost a) (e_cost b)).
    + right. split; [assumption|].
      destruct (Nat.le_gt_cases (prov_rank (e_prov b)) (prov_rank (e_prov a)));
        [assumption|].
      assert (entry_lt a b = true) by (apply entry_lt_true; right; lia). congruence.
    + assert (entry_lt a b = true) by (apply entry_lt_true; left; lia). congruence.
Qed.

Lemma select_perm (b : entry) (r : list entry) (x : entry) (r' : list entry) :
  select b r = (x, r') -> Permutation (b :: r) (x :: r').
Proof.
  revert b x r'. induction r as [|e r IH]; intros b x r' H; simpl in H.
  - inversion H; subst. apply Permutation_refl.
  - destruct (entry_lt e b).
    + destruct (select e r) as [y r''] eqn:E. inversion H; subst.
      apply IH in E. eapply perm_trans; [apply perm_skip; exact E | apply perm_swap].
    + destruct (select b r) as [y r''] eqn:E. inversion H; subst.
      apply IH in E. eapply perm_trans; [apply perm_swap|].
      eapply perm_trans; [apply perm_skip; exact E | apply perm_swap].
Qed.

Lemma select_min (b : entry) (r : list entry) (x : entry) (r' : list entry) :
  select b r = (x, r') -> forall y, In y (b :: r) -> entry_lt y x = false.
Proof.
  revert b x r'. induction r as [|e r IH]; intros b x r' H y Hy; simpl in H.
  - inversion H; subst. destruct Hy as [<-|[]].
    apply entry_lt_false. right. lia.
  - destruct (entry_lt e b) eqn:Eeb.
    + destruct (select e r) as [z r''] eqn:E. inversion H; subst.
      pose proof (IH _ _ _ E) as IH'.
      destruct Hy as [<-|Hy].
      * pose proof (IH' e (or_introl eq_refl)) as H1.
        apply entry_lt_true in Eeb. apply entry_lt_false in H1.
        apply entry_lt_false. lia.
      * apply IH'. exact Hy.
    + destruct (select b r) as [z r''] eqn:E. inversion H; subst.
      pose proof (IH _ _ _ E) as IH'.
      destruct Hy as [<-|[<-|Hy]].
      * apply IH'. left. reflexivity.
      * pose proof (IH' b (or_introl eq_refl)) as H1.
        apply entry_lt_false in Eeb. apply entry_lt_false in H1.
        apply entry_lt_false. lia.
      * apply IH'. right. exact Hy.
Qed.

Lemma pop_min_some (q : list entry) (e : entry) (q' : list entry) :
  pop_min q = Some (e, q') ->
  Permutation q (e :: q') /\ (forall y, In y q -> entry_lt y e = false).
Proof.
  destruct q as [|b r]; simpl; [discriminate|]. intros H. inversion H; subst.
  split; [apply (select_perm b r); assumption | apply (select_min b r e q'); assumption].
Qed.

Lemma pop_min_none (q : list entry) : pop_min q = None -> q = [].
Proof. destruct q; simpl; [reflexivity | discriminate]. Qed.

Lemma assoc_In {A : Type} (k : id) (l : list (id * A)) (a : A) :
  assoc k l = Some a -> In (k, a) l.
Proof.
  induction l as [|[k' b] l IH]; simpl; [discriminate|].
  destruct (String.eqb_spec k k'); intros H.
  - inversion H; subst. left. reflexivity.
  - right. apply IH. exact H.
Qed.

Lemma assoc_None {A : Type} (k : id) (l : list (id * A)) :
  assoc k l = None <-> ~ In k (map fst l).
Proof.
  induction l as [|[k' b] l IH]; simpl; [tauto|].
  destruct (String.eqb_spec k k'); [subst; split; [discriminate | tauto]|].
  rewrite IH. split; intros H; [intros [E|E]; [congruence | tauto] | tauto].
Qed.

Lemma assoc_NoDup {A : Type} (k : id) (l : list (id * A)) (a : A) :
  NoDup (map fst l) -> In (k, a) l -> assoc k l = Some a.
Proof.
  induction l as [|[k' b] l IH]; simpl; [tauto|].
  intros Hnd Hin. inversion Hnd as [|? ? Hnotin Hnd']; subst.
  destruct (String.eqb_spec k k') as [->|Hne].
  - destruct Hin as [E|E]; [inversion E; reflexivity|].
    exfalso. apply Hnotin. apply (in_map fst) in E. exact E.
  - destruct Hin as [E|E]; [inversion E; congruence|]. apply IH; assumption.
Qed.

Lemma assoc_app_notin {A : Type} (k : id) (l1 l2 : list (id * A)) :
  ~ In k (map fst l1) -> assoc k (l1 ++ l2) = assoc k l2.
Proof.
  induction l1 as [|[k' b] l1 IH]; simpl; [reflexivity|].
  intros H. destruct (String.eqb_spec k k'); [subst; tauto|]. apply IH. tauto.
Qed.

Lemma mem_In (x : id) (l : list id) : mem x l = true <-> In x l.
Proof.
  unfold mem. rewrite existsb_exists. split.
  - intros [y [Hy E]]. apply String.eqb_eq in E. subst. exact Hy.
  - intros H. exists x. split; [exact H | apply String.eqb_refl].
Qed.

Lemma assoc_nat_None {A : Type} (k : nat) (l : list (nat * A)) :
  assoc_nat k l = None <-> ~ In k (map fst l).
Proof.
  induction l as [|[k' b] l IH]; simpl; [tauto|].
  destruct (Nat.eqb_spec k k'); [subst; split; [discriminate | tauto]|].
  rewrite IH. split; intros H; [intros [E|E]; [congruence | tauto] | tauto].
Qed.

Lemma assoc_nat_Some {A : Type} (k : nat) (l : list (nat * A)) (a : A) :
  assoc_nat k l = Some a -> In k (map fst l).
Proof.
  induction l as [|[k' b] l IH]; simpl; [discriminate|].
  destruct (Nat.eqb_spec k k'); intros H; [left; congruence | right; apply IH; exact H].
Qed.

Section Relax.

Context {V : Type} (raw : list (id * V)) (d : id).

Lemma is_settled_eq (st1 st2 : @state V) :
  settled st1 = settled st2 -> is_settled st1 = is_settled st2.
Proof. intros H. unfold is_settled. rewrite H. reflexivity. Qed.

Lemma cost_of_eq (st1 st2 : @state V) :
  settled st1 = settled st2 -> cost_of st1 = cost_of st2.
Proof. intros H. unfold cost_of. rewrite H. reflexivity. Qed.

Lemma ready_eq (st1 st2 : @state V) (f : @fnode V) :
  settled st1 = settled st2 -> ready st1 f = ready st2 f.
Proof. intros H. unfold ready. rewrite (is_settled_eq st1 st2 H). reflexivity. Qed.

Lemma candidate_cost_eq (st1 st2 : @state V) (f : @fnode V) :
  settled st1 = settled st2 -> candidate_cost st1 f = candidate_cost st2 f.
Proof.
  intros H. unfold candidate_cost, max_cost. rewrite (cost_of_eq st1 st2 H). reflexivity.
Qed.

Lemma relax_fun_frame (st : @state V) (i : nat) (f : @fnode V) :
  settled (relax_fun raw d st i f) = settled st /\
  results (relax_fun raw d st i f) = results st /\
  workflow (relax_fun raw d st i f) = workflow st.
Proof.
  unfold relax_fun. destruct (_ && _ && _); [destruct (eligible raw f)|];
    repeat split; reflexivity.
Qed.

Lemma relax_from_frame (fs : list (@fnode V)) (i : nat) (st : @state V) :
  settled (relax_from raw d i fs st) = settled st /\
  results (relax_from raw d i fs st) = results st /\
  workflow (relax_from raw d i fs st) = workflow st.
Proof.
  revert i st. induction fs as [|f fs IH]; intros i st; simpl; [auto|].
  destruct (IH (S i) (relax_fun raw d st i f)) as (H1 & H2 & H3).
  destruct (relax_fun_frame st i f) as (G1 & G2 & G3).
  rewrite H1, H2, H3, G1, G2, G3. auto.
Qed.

(** An entry pushed by the relaxation of the consumers [fs] (indexed from [i]). *)
Definition pushed_by (fs : list (@fnode V)) (i : nat) (st : @state V) (e : entry) : Prop :=
  exists k f o, nth_error fs k = Some f /\
    e = mk_entry (candidate_cost st f) o (PFun (i + k)) /\
    In o (fn_outputs f) /\ is_settled st o = false /\
    mem d (consumes f) = true /\ ready st f = true /\ eligible raw f = true.

Lemma relax_fun_queue (st : @state V) (i : nat) (f : @fnode V) :
  exists p0, queue (relax_fun raw d st i f) = queue st ++ p0 /\
    length p0 <= length (fn_outputs f) /\
    forall e, In e p0 -> exists o, e = mk_entry (candidate_cost st f) o (PFun i) /\
      In o (fn_outputs f) /\ is_settled st o = false /\
      mem d (consumes f) = true /\ ready st f = true /\ eligible raw f = true.
Proof.
  unfold relax_fun.
  destruct (mem d (consumes f)) eqn:Em; simpl;
    [| exists []; rewrite app_nil_r; split; [reflexivity | split; [simpl; lia | intros _ []]]].
  destruct (ready st f) eqn:Er; simpl;
    [| exists []; rewrite app_nil_r; split; [reflexivity | split; [simpl; lia | intros _ []]]].
  destruct (is_discarded st i); simpl;
    [exists []; rewrite app_nil_r; split; [reflexivity | split; [simpl; lia | intros _ []]]|].
  destruct (eligible raw f) eqn:Ee; simpl;
    [| exists []; rewrite app_nil_r; split; [reflexivity | split; [simpl; lia | intros _ []]]].
  eexists. split; [reflexivity|]. split.
  - rewrite length_map. apply filter_length_le.
  - intros e He. apply in_map_iff in He. destruct He as [o [<- Ho]].
    apply filter_In in Ho. destruct Ho as [Ho Hs]. exists o.
    apply negb_true_iff in Hs. repeat split; assumption.
Qed.

Lemma relax_from_queue (fs : list (@fnode V)) (i : nat) (st : @state V) :
  exists extra, queue (relax_from raw d i fs st) = queue st ++ extra /\
    length extra <= length (flat_map fn_outputs fs) /\
    forall e, In e extra -> pushed_by fs i st e.
Proof.
  revert i st. induction fs as [|f fs IH]; intros i st; simpl.
  - exists []. rewrite app_nil_r. split; [reflexivity | split; [simpl; lia | intros _ []]].
  - destruct (relax_fun_queue st i f) as (p0 & Hq0 & Hl0 & Hp0).
    destruct (IH (S i) (relax_fun raw d st i f)) as (ex & Hq & Hl & Hp).
    destruct (relax_fun_frame st i f) as (Hs & _ & _).
    exists (p0 ++ ex). split; [rewrite Hq, Hq0, app_assoc; reflexivity|].
    split; [rewrite !length_app; lia|].
    intros e He. apply in_app_or in He. destruct He as [He|He].
    + destruct (Hp0 e He) as (o & -> & Ho & Hs0 & Hm & Hr & Hel).
      exists 0, f, o. rewrite Nat.add_0_r. repeat split; assumption.
    + destruct (Hp e He) as (k & f' & o & Hk & -> & Ho & Hs0 & Hm & Hr & Hel).
      exists (S k), f', o.
      rewrite (candidate_cost_eq _ _ f' Hs), (is_settled_eq _ _ Hs),
        (ready_eq _ _ f' Hs) in *.
      replace (i + S k) with (S i + k) by lia. repeat split; assumption.
Qed.

Lemma relax_from_discarded (fs : list (@fnode V)) (i : nat) (st : @state V) (j : nat) :
  In j (discarded (relax_from raw d i fs st)) <->
  In j (discarded st) \/
  exists k f, j = i + k /\ nth_error fs k = Some f /\ eligible raw f = false /\
    mem d (consumes f) = true /\ ready st f = true.
Proof.
  revert i st. induction fs as [|f fs IH]; intros i st; simpl.
  - split; [tauto|]. intros [H|(k & f & _ & Hk & _)]; [exact H|].
    destruct k; discriminate.
  - rewrite IH. destruct (relax_fun_frame st i f) as (Hs & _ & _).
    assert (Hd : forall j', In j' (discarded (relax_fun raw d st i f)) <->
      In j' (discarded st) \/
      (j' = i /\ eligible raw f = false /\ mem d (consumes f) = true /\ ready st f = true)).
    { intros j'. unfold relax_fun.
      destruct (mem d (consumes f)) eqn:Em; simpl; [|intuition congruence].
      destruct (ready st f) eqn:Er; simpl; [|intuition congruence].
      destruct (is_discarded st i) eqn:Edi; simpl.
      - split; [tauto|]. intros [H|(-> & _)]; [exact H|].
        unfold is_discarded in Edi. apply existsb_exists in Edi.
        destruct Edi as [x [Hx E]]. apply Nat.eqb_eq in E. subst. exact Hx.
      - destruct (eligible raw f); simpl; intuition congruence. }
    rewrite Hd. split.
    + intros [[H|(-> & H1 & H2 & H3)]|(k & f' & -> & Hk & H1 & H2 & H3)].
      * left. exact H.
      * right. exists 0, f. rewrite Nat.add_0_r. auto.
      * right. exists (S k), f'. rewrite (ready_eq _ _ f' Hs) in H3.
        repeat split; [lia | assumption..].
    + intros [H|(k & f' & -> & Hk & H1 & H2 & H3)]; [left; left; exact H|].
      destruct k as [|k].
      * inversion Hk; subst. left. right. rewrite Nat.add_0_r. auto.
      * right. exists k, f'. rewrite (ready_eq _ _ f' Hs).
        repeat split; [lia | assumption..].
Qed.

Lemma is_discarded_false (st : @state V) (j : nat) :
  is_discarded st j = false <-> ~ In j (discarded st).
Proof.
  unfold is_discarded. split.
  - intros H Hin. assert (existsb (Nat.eqb j) (discarded st) = true) by
      (apply existsb_exists; exists j; split; [exact Hin | apply Nat.eqb_refl]).
    congruence.
  - intros H. destruct (existsb (Nat.eqb j) (discarded st)) eqn:E; [|reflexivity].
    apply existsb_exists in E. destruct E as [x [Hx E]]. apply Nat.eqb_eq in E.
    subst. contradiction.
Qed.

Lemma relax_fun_discarded (st : @state V) (i : nat) (f : @fnode V) (j : nat) :
  In j (discarded (relax_fun raw d st i f)) -> In j (discarded st) \/ j = i.
Proof.
  unfold relax_fun. destruct (_ && _ && _); [destruct (eligible raw f)|]; simpl;
    intuition.
Qed.

Lemma relax_from_pending (fs : list (@fnode V)) (i : nat) (st : @state V) (k : nat) (f : @fnode V)
  (o : id) :
  nth_error fs k = Some f -> mem d (consumes f) = true -> ready st f = true ->
  eligible raw f = true -> is_discarded st (i + k) = false ->
  In o (fn_outputs f) -> is_settled st o = false ->
  In (mk_entry (candidate_cost st f) o (PFun (i + k))) (queue (relax_from raw d i fs st)).
Proof.
  revert i st k. induction fs as [|f0 fs IH]; intros i st k Hk Hm Hr He Hdi Ho Hs;
    [destruct k; discriminate|].
  simpl. destruct (relax_from_queue fs (S i) (relax_fun raw d st i f0)) as (ex & Hq & _).
  destruct (relax_fun_frame st i f0) as (Hs1 & _ & _).
  destruct k as [|k].
  - simpl in Hk. inversion Hk; subst. rewrite Nat.add_0_r in *. rewrite Hq.
    apply in_or_app. left. unfold relax_fun. rewrite Hm, Hr, Hdi, He. simpl.
    apply in_or_app. right. apply in_map_iff. exists o. split; [reflexivity|].
    apply filter_In. rewrite Hs. auto.
  - simpl in Hk. replace (i + S k) with (S i + k) by lia.
    rewrite <- (candidate_cost_eq _ _ f Hs1). apply IH; try assumption.
    + rewrite (ready_eq _ _ f Hs1). exact Hr.
    + apply is_discarded_false. apply is_discarded_false in Hdi.
      intros Hin. apply relax_fun_discarded in Hin. destruct Hin as [Hin|Hin]; [|lia].
      apply Hdi. replace (i + S k) with (S i + k) by lia. exact Hin.
    + rewrite (is_settled_eq _ _ Hs1). exact Hs.
Qed.

End Relax.

(** ** One step of the resolver, case by case *)

Section Steps.

Context {V : Type} (none : V) (g : @graph V) (raw : list (id * V)) (req : list id).

Definition callable_ok (f : @fnode V) (args : list V) : Prop :=
  exists outs, fn_call f args = Some outs /\ length outs = length (fn_outputs f).

Inductive step_spec (st st' : @state V) : Prop :=
| SS_default (d : id) (v : V) (dn : @dnode V) :
    queue st = [] -> In dn (data_nodes g) -> dn_id dn = d -> dn_default dn = Some v ->
    is_settled st d = false ->
    st' = settle g raw d v 0 PDefault st -> step_spec st st'
| SS_skip (e : entry) (q : list entry) :
    pop_min (queue st) = Some (e, q) ->
    (is_settled st (e_id e) = true \/ e_prov e = PDefault \/
     (e_prov e = PInput /\ assoc (e_id e) raw = None) \/
     (exists i, e_prov e = PFun i /\
        (nth_error (fun_nodes g) i = None \/ is_discarded st i = true))) ->
    st' = set_queue st q -> step_spec st st'
| SS_input (e : entry) (q : list entry) (v : V) :
    pop_min (queue st) = Some (e, q) -> e_prov e = PInput ->
    is_settled st (e_id e) = false -> assoc (e_id e) raw = Some v ->
    st' = settle g raw (e_id e) v (e_cost e) PInput (set_queue st q) -> step_spec st st'
| SS_start (e : entry) (q : list entry) :
    pop_min (queue st) = Some (e, q) -> e_prov e = PStart ->
    is_settled st (e_id e) = false ->
    st' = settle g raw (e_id e) none (e_cost e) PStart (set_queue st q) -> step_spec st st'
| SS_cached (e : entry) (q : list entry) (i : nat) (f : @fnode V) (outs : list V) :
    pop_min (queue st) = Some (e, q) -> e_prov e = PFun i ->
    is_settled st (e_id e) = false -> nth_error (fun_nodes g) i = Some f ->
    is_discarded st i = false -> assoc_nat i (results st) = Some outs ->
    st' = settle g raw (e_id e) (output_value none f outs (e_id e)) (e_cost e) (PFun i)
            (set_queue st q) -> step_spec st st'
| SS_invoke (e : entry) (q : list entry) (i : nat) (f : @fnode V) (outs : list V) :
    pop_min (queue st) = Some (e, q) -> e_prov e = PFun i ->
    is_settled st (e_id e) = false -> nth_error (fun_nodes g) i = Some f ->
    is_discarded st i = false -> assoc_nat i (results st) = None ->
    fn_call f (map (value_of none st) (fn_inputs f)) = Some outs ->
    length outs = length (fn_outputs f) ->
    st' = settle g raw (e_id e) (output_value none f outs (e_id e)) (e_cost e) (PFun i)
            (record_invoke (set_queue st q) i (map (value_of none st) (fn_inputs f)) outs) ->
    step_spec st st'
| SS_fail (e : entry) (q : list entry) (i : nat) (f : @fnode V) :
    pop_min (queue st) = Some (e, q) -> e_prov e = PFun i ->
    is_settled st (e_id e) = false -> nth_error (fun_nodes g) i = Some f ->
    is_discarded st i = false -> assoc_nat i (results st) = None ->
    ~ callable_ok f (map (value_of none st) (fn_inputs f)) ->
    st' = record_fail (set_queue st q) i -> step_spec st st'.

Lemma first_default_spec (st : @state V) (ds : list (@dnode V)) (d : id) (v : V) :
  first_default st ds = Some (d, v) ->
  exists dn, In dn ds /\ dn_id dn = d /\ dn_default dn = Some v /\ is_settled st d = false.
Proof.
  induction ds as [|dn ds IH]; simpl; [discriminate|].
  destruct (dn_default dn) as [w|] eqn:Ed.
  - destruct (is_settled st (dn_id dn)) eqn:Es.
    + intros H. destruct (IH H) as (dn' & ? & ? & ? & ?). exists dn'. auto.
    + intros H. inversion H; subst. exists dn. auto.
  - intros H. destruct (IH H) as (dn' & ? & ? & ? & ?). exists dn'. auto.
Qed.

Lemma first_default_none (st : @state V) (ds : list (@dnode V)) :
  first_default st ds = None ->
  forall dn v, In dn ds -> dn_default dn = Some v -> is_settled st (dn_id dn) = true.
Proof.
  induction ds as [|dn0 ds IH]; simpl; [tauto|].
  intros H dn v [<-|Hin] Hdv.
  - rewrite Hdv in H. destruct (is_settled st (dn_id dn0)); [reflexivity | discriminate].
  - destruct (dn_default dn0); [destruct (is_settled st (dn_id dn0)); [|discriminate]|];
      exact (IH H dn v Hin Hdv).
Qed.

Lemma step_cases (st st' : @state V) :
  step none g raw req st = Next st' -> step_spec st st'.
Proof.
  unfold step. destruct (negb _ && _); [discriminate|].
  destruct (pop_min (queue st)) as [[e q]|] eqn:Ep.
  - destruct (is_settled (set_queue st q) (e_id e)) eqn:Es.
    { intros H. inversion H; subst. eapply SS_skip; [exact Ep | left; exact Es | reflexivity]. }
    destruct (e_prov e) as [| | |i] eqn:Epv.
    + destruct (assoc (e_id e) raw) as [v|] eqn:Ea; intros H; inversion H; subst.
      * eapply SS_input; eassumption || reflexivity.
      * eapply SS_skip; [exact Ep | right; right; left; auto | reflexivity].
    + intros H; inversion H; subst. eapply SS_start; eassumption || reflexivity.
    + intros H; inversion H; subst. eapply SS_skip; [exact Ep | right; left; exact Epv | reflexivity].
    + destruct (nth_error (fun_nodes g) i) as [f|] eqn:En.
      2:{ intros H; inversion H; subst.
          eapply SS_skip; [exact Ep | right; right; right; exists i; auto | reflexivity]. }
      destruct (is_discarded (set_queue st q) i) eqn:Edi.
      { intros H; inversion H; subst.
        eapply SS_skip; [exact Ep | right; right; right; exists i; auto | reflexivity]. }
      destruct (assoc_nat i (results (set_queue st q))) as [outs|] eqn:Er.
      { intros H; inversion H; subst. eapply SS_cached; eassumption || reflexivity. }
      destruct (fn_call f (map (value_of none (set_queue st q)) (fn_inputs f))) as [outs|] eqn:Ec.
      * destruct (Nat.eqb_spec (length outs) (length (fn_outputs f))) as [El|El];
          intros H; inversion H; subst.
        -- eapply SS_invoke; eassumption || reflexivity.
        -- eapply SS_fail; try eassumption; [|reflexivity].
           intros (outs' & Ec' & El'). change (value_of none (set_queue st q)) with (value_of none st) in Ec. rewrite Ec in Ec'.
           inversion Ec'; subst. contradiction.
      * intros H; inversion H; subst. eapply SS_fail; try eassumption; [|reflexivity].
        intros (outs' & Ec' & _). change (value_of none (set_queue st q)) with (value_of none st) in Ec. rewrite Ec in Ec'. discriminate.
  - destruct (first_default st (data_nodes g)) as [[d v]|] eqn:Ef; [|discriminate].
    intros H. inversion H; subst.
    destruct (first_default_spec _ _ _ _ Ef) as (dn & Hin & Hid & Hdv & Hs).
    eapply SS_default; [apply pop_min_none; exact Ep | exact Hin | exact Hid | exact Hdv
                       | exact Hs | reflexivity].
Qed.

Lemma step_halt (st : @state V) :
  step none g raw req st = Halt ->
  (req <> [] /\ forallb (is_settled st) req = true) \/
  (queue st = [] /\ first_default st (data_nodes g) = None).
Proof.
  unfold step. destruct (negb _ && _) eqn:E.
  - intros _. left. apply andb_true_iff in E. destruct E as [E1 E2].
    split; [destruct req; [discriminate | discriminate] | exact E2].
  - destruct (pop_min (queue st)) as [[e q]|] eqn:Ep.
    + destruct (is_settled (set_queue st q) (e_id e)); [discriminate|].
      destruct (e_prov e); [destruct (assoc (e_id e) raw) | | | ]; try discriminate.
      destruct (nth_error (fun_nodes g) i); [|discriminate].
      destruct (is_discarded (set_queue st q) i); [discriminate|].
      destruct (assoc_nat i (results (set_queue st q))); [discriminate|].
      destruct (fn_call _ _); [destruct (_ =? _)|]; discriminate.
    + destruct (first_default st (data_nodes g)) as [[d v]|] eqn:Ef; [discriminate|].
      intros _. right. split; [apply pop_min_none; exact Ep | reflexivity].
Qed.

(** The state just before the consumers of [d] are relaxed. *)
Definition pre_settle (d : id) (v : V) (c : nat) (p : prov) (st : @state V) : @state V :=
  mk_state (queue st) ((d, (v, c, p)) :: settled st) (discarded st) (results st)
    (workflow st ++ [Settle d v p]).

Lemma settle_unfold (d : id) (v : V) (c : nat) (p : prov) (st : @state V) :
  settle g raw d v c p st = relax_from raw d 0 (fun_nodes g) (pre_settle d v c p st).
Proof. reflexivity. Qed.

Lemma settle_frame (d : id) (v : V) (c : nat) (p : prov) (st : @state V) :
  settled (settle g raw d v c p st) = (d, (v, c, p)) :: settled st /\
  results (settle g raw d v c p st) = results st /\
  workflow (settle g raw d v c p st) = workflow st ++ [Settle d v p].
Proof.
  rewrite settle_unfold. destruct (relax_from_frame raw d (fun_nodes g) 0
    (pre_settle d v c p st)) as (H1 & H2 & H3).
  rewrite H1, H2, H3. auto.
Qed.

End Steps.

(** ** Termination: each data id is settled at most once *)

Section Termination.

Context {V : Type} (none : V) (g : @graph V) (raw : list (id * V)) (req : list id).

Lemma extend_assoc (st st' : @state V) (x : id * (V * nat * prov)) (y : id) :
  settled st' = x :: settled st -> is_settled st (fst x) = false ->
  is_settled st y = true -> assoc y (settled st') = assoc y (settled st).
Proof.
  intros H Hx Hy. rewrite H. destruct x as [k a]. simpl.
  destruct (String.eqb_spec y k) as [->|]; [simpl in Hx; congruence | reflexivity].
Qed.

Lemma extend_is_settled (st st' : @state V) (x : id * (V * nat * prov)) (y : id) :
  settled st' = x :: settled st -> is_settled st y = true -> is_settled st' y = true.
Proof.
  intros H Hy. unfold is_settled in *. rewrite H. destruct x as [k a]. simpl.
  destruct (String.eqb y k); [reflexivity | exact Hy].
Qed.

Lemma max_cost_ext (st st' : @state V) (l : list id) :
  (forall y, In y l -> cost_of st' y = cost_of st y) -> max_cost st' l = max_cost st l.
Proof.
  induction l as [|y l IH]; simpl; intros H; [reflexivity|].
  rewrite H by (left; reflexivity). rewrite IH by (intros; apply H; right; assumption).
  reflexivity.
Qed.

Lemma extend_ready (st st' : @state V) (x : id * (V * nat * prov)) (f : @fnode V) :
  settled st' = x :: settled st -> is_settled st (fst x) = false ->
  ready st f = true ->
  ready st' f = true /\ candidate_cost st' f = candidate_cost st f.
Proof.
  intros H Hx Hr. unfold ready in *. rewrite forallb_forall in Hr. split.
  - apply forallb_forall. intros y Hy. apply (extend_is_settled st st' x); auto.
  - unfold candidate_cost. f_equal. apply max_cost_ext. intros y Hy.
    unfold cost_of. rewrite (extend_assoc st st' x y H Hx (Hr y Hy)). reflexivity.
Qed.

Lemma settle_queue (d : id) (v : V) (c : nat) (p : prov) (st : @state V) :
  exists extra, queue (settle g raw d v c p st) = queue st ++ extra /\
    length extra <= pushes_bound g /\
    forall e, In e extra -> pushed_by raw d (fun_nodes g) 0 (pre_settle d v c p st) e.
Proof.
  rewrite settle_unfold.
  destruct (relax_from_queue raw d (fun_nodes g) 0 (pre_settle d v c p st)) as (ex & H1 & H2 & H3).
  exists ex. split; [exact H1 | split; [exact H2 | exact H3]].
Qed.

Lemma pushed_in_universe (d : id) (st : @state V) (e : entry) :
  pushed_by raw d (fun_nodes g) 0 st e -> In (e_id e) (universe g raw).
Proof.
  intros (k & f & o & Hk & -> & Ho & _). simpl. right. apply in_or_app. right.
  apply in_or_app. right. apply in_flat_map. exists f. split; [|exact Ho].
  eapply nth_error_In. exact Hk.
Qed.

Definition inv_a (st : @state V) : Prop :=
  NoDup (map fst (settled st)) /\ incl (map fst (settled st)) (universe g raw) /\
  (forall e, In e (queue st) -> In (e_id e) (universe g raw)).

Lemma unsettled_notin (st : @state V) (d : id) :
  is_settled st d = false -> ~ In d (map fst (settled st)).
Proof.
  unfold is_settled. destruct (assoc d (settled st)) eqn:E; [discriminate|].
  intros _. apply assoc_None. exact E.
Qed.

Lemma pop_in (q : list entry) (e : entry) (q' : list entry) :
  pop_min q = Some (e, q') -> In e q /\ (forall y, In y q' -> In y q) /\ length q = S (length q').
Proof.
  intros H. destruct (pop_min_some _ _ _ H) as [Hp _]. split; [|split].
  - apply (Permutation_in e (Permutation_sym Hp)). left. reflexivity.
  - intros y Hy. apply (Permutation_in y (Permutation_sym Hp)). right. exact Hy.
  - apply Permutation_length in Hp. exact Hp.
Qed.

(** Settling some unsettled [d] of the universe keeps [inv_a] and lowers the
    measure by more than the pushes it makes. *)
Lemma settle_inv_a (d : id) (v : V) (c : nat) (p : prov) (st : @state V) :
  inv_a st -> is_settled st d = false -> In d (universe g raw) ->
  inv_a (settle g raw d v c p st) /\
  (length (universe g raw) - length (settled (settle g raw d v c p st))) * S (pushes_bound g)
  + length (queue (settle g raw d v c p st))
  < (length (universe g raw) - length (settled st)) * S (pushes_bound g)
    + length (queue st).
Proof.
  intros (Hnd & Hinc & Hq) Hs Hu.
  destruct (settle_frame g raw d v c p st) as (Hset & _ & _).
  destruct (settle_queue d v c p st) as (ex & Hqe & Hl & Hp).
  assert (Hnd' : NoDup (map fst (settled (settle g raw d v c p st)))).
  { rewrite Hset. simpl. constructor; [apply unsettled_notin; exact Hs | exact Hnd]. }
  assert (Hinc' : incl (map fst (settled (settle g raw d v c p st))) (universe g raw)).
  { rewrite Hset. simpl. intros y [<-|Hy]; [exact Hu | apply Hinc; exact Hy]. }
  split; [split; [exact Hnd' | split; [exact Hinc'|]]|].
  - rewrite Hqe. intros e He. apply in_app_or in He. destruct He as [He|He];
      [apply Hq; exact He | apply (pushed_in_universe d _ e (Hp e He))].
  - pose proof (NoDup_incl_length Hnd' Hinc') as Hlen.
    rewrite Hset in *. rewrite Hqe, length_app. rewrite length_map in Hlen.
    cbn [length] in *.
    remember (length (universe g raw)) as U. remember (length (settled st)) as n.
    assert (Hk : U - n = S (U - S n)) by lia. rewrite Hk.
    remember (U - S n) as k. nia.
Qed.

Lemma step_inv_a (st st' : @state V) :
  inv_a st -> step_spec none g raw st st' ->
  inv_a st' /\ measure g raw st' < measure g raw st.
Proof.
  intros Hi Hss. unfold measure.
  destruct Hss as [d v dn Hq Hdn Hid Hdv Hs ->
                  |e q Hp _ ->
                  |e q v Hp _ Hs _ ->
                  |e q Hp _ Hs ->
                  |e q i f outs Hp _ Hs _ _ _ ->
                  |e q i f outs Hp _ Hs _ _ _ _ _ ->
                  |e q i f Hp _ Hs _ _ _ _ ->].
  - assert (Hu : In d (universe g raw)).
    { simpl. right. apply in_or_app. right. apply in_or_app. left.
      rewrite <- Hid. apply in_map. exact Hdn. }
    destruct (settle_inv_a d v 0 PDefault st Hi Hs Hu) as [Hi' Hm].
    split; [exact Hi'|]. rewrite Hq in Hm. simpl in Hm.
    destruct (settle_queue d v 0 PDefault st) as (ex & Hqe & Hl & _).
    destruct (settle_frame g raw d v 0 PDefault st) as (Hset & _ & _).
    destruct Hi' as (Hnd' & Hinc' & _). rewrite Hset in Hnd', Hinc'.
    pose proof (NoDup_incl_length Hnd' Hinc') as Hlen. rewrite length_map in Hlen.
    rewrite Hqe, Hq, Hset. cbn [length app] in *.
    remember (length (universe g raw)) as U. remember (length (settled st)) as n.
    assert (Hk : U - n = S (U - S n)) by lia. rewrite Hk.
    remember (U - S n) as k. nia.
  - destruct (pop_in _ _ _ Hp) as (_ & Hsub & Hlen). destruct Hi as (H1 & H2 & H3).
    split; [split; [exact H1 | split; [exact H2 | intros y Hy; apply H3, Hsub, Hy]]|].
    simpl. rewrite Hlen. lia.
  - destruct (pop_in _ _ _ Hp) as (Hin & Hsub & Hlen). destruct Hi as (H1 & H2 & H3).
    assert (Hi0 : inv_a (set_queue st q))
      by (split; [exact H1 | split; [exact H2 | intros y Hy; apply H3, Hsub, Hy]]).
    destruct (settle_inv_a (e_id e) v (e_cost e) PInput (set_queue st q) Hi0 Hs
      (H3 e Hin)) as [Hi' Hm].
    split; [exact Hi'|]. cbn [settled queue set_queue record_invoke] in Hm. rewrite Hlen. nia.
  - destruct (pop_in _ _ _ Hp) as (Hin & Hsub & Hlen). destruct Hi as (H1 & H2 & H3).
    assert (Hi0 : inv_a (set_queue st q))
      by (split; [exact H1 | split; [exact H2 | intros y Hy; apply H3, Hsub, Hy]]).
    destruct (settle_inv_a (e_id e) none (e_cost e) PStart (set_queue st q) Hi0 Hs
      (H3 e Hin)) as [Hi' Hm].
    split; [exact Hi'|]. cbn [settled queue set_queue record_invoke] in Hm. rewrite Hlen. nia.
  - destruct (pop_in _ _ _ Hp) as (Hin & Hsub & Hlen). destruct Hi as (H1 & H2 & H3).
    assert (Hi0 : inv_a (set_queue st q))
      by (split; [exact H1 | split; [exact H2 | intros y Hy; apply H3, Hsub, Hy]]).
    destruct (settle_inv_a (e_id e) (output_value none f outs (e_id e)) (e_cost e) (PFun i)
      (set_queue st q) Hi0 Hs (H3 e Hin)) as [Hi' Hm].
    split; [exact Hi'|]. cbn [settled queue set_queue record_invoke] in Hm. rewrite Hlen. nia.
  - destruct (pop_in _ _ _ Hp) as (Hin & Hsub & Hlen). destruct Hi as (H1 & H2 & H3).
    set (st1 := record_invoke (set_queue st q) i (map (value_of none st) (fn_inputs f)) outs).
    assert (Hi0 : inv_a st1)
      by (split; [exact H1 | split; [exact H2 | intros y Hy; apply H3, Hsub, Hy]]).
    destruct (settle_inv_a (e_id e) (output_value none f outs (e_id e)) (e_cost e) (PFun i)
      st1 Hi0 Hs (H3 e Hin)) as [Hi' Hm].
    split; [exact Hi'|]. change (settled st1) with (settled st) in Hm.
    change (queue st1) with q in Hm. rewrite Hlen. nia.
  - destruct (pop_in _ _ _ Hp) as (_ & Hsub & Hlen). destruct Hi as (H1 & H2 & H3).
    split; [split; [exact H1 | split; [exact H2 | intros y Hy; apply H3, Hsub, Hy]]|].
    simpl. rewrite Hlen. lia.
Qed.

Lemma run_some (fuel : nat) (st : @state V) :
  inv_a st -> measure g raw st < fuel ->
  exists st', run none g raw req fuel st = Some st'.
Proof.
  revert st. induction fuel as [|n IH]; intros st Hi Hm; [lia|].
  simpl. destruct (step none g raw req st) as [|st'] eqn:E; [eexists; reflexivity|].
  destruct (step_inv_a st st' Hi (step_cases none g raw req st st' E)) as [Hi' Hm'].
  apply IH; [exact Hi' | lia].
Qed.

Lemma init_inv_a : inv_a (init raw).
Proof.
  split; [constructor|]. split; [intros y []|].
  intros e He. simpl in He. apply in_app_or in He. destruct He as [He|[<-|[]]].
  - apply in_map_iff in He. destruct He as [[k w] [<- Hk]]. simpl. right.
    apply in_or_app. left. apply (in_map fst _ (k, w)). exact Hk.
  - simpl. left. reflexivity.
Qed.

Lemma final_state_some : exists st, final_state none g raw req = Some st.
Proof. apply run_some; [apply init_inv_a | lia]. Qed.

(** The resolver always returns: it never runs out of steps, whatever the graph. *)
Lemma dispatch_some : exists r, dispatch none g raw req = Some r.
Proof.
  unfold dispatch. destruct final_state_some as [st ->]. eexists. reflexivity.
Qed.

End Termination.

(** ** Invariants of a run *)

Section Invariants.

Context {V : Type} (none : V) (g : @graph V) (raw : list (id * V)) (req : list id).

Definition ev_fun (ev : @event V) : option nat :=
  match ev with
  | Settle _ _ (PFun i) => Some i
  | Settle _ _ _ => None
  | Invoke i _ _ => Some i
  | Fail i => Some i
  end.

(** The functions whose callable was called, in calling order. *)
Definition attempts (wf : list (@event V)) : list nat :=
  flat_map (fun ev => match ev with Invoke i _ _ => [i] | Fail i => [i] | _ => [] end) wf.

(** Every invocation record is immediately followed by the settlement, from
    that function, of one of its outputs. *)
Fixpoint follows (wf : list (@event V)) : Prop :=
  match wf with
  | [] => True
  | Invoke i _ _ :: rest =>
      match rest with
      | Settle d _ (PFun j) :: _ =>
          j = i /\ exists f, nth_error (fun_nodes g) i = Some f /\ In d (fn_outputs f)
      | _ => False
      end /\ follows rest
  | _ :: rest => follows rest
  end.

Definition qprov_ok (st : @state V) (e : entry) : Prop :=
  match e_prov e with
  | PInput => In (e_id e) (map fst raw)
  | PStart => e_id e = START
  | PDefault => False
  | PFun i => exists f, nth_error (fun_nodes g) i = Some f /\ In (e_id e) (fn_outputs f) /\
      eligible raw f = true /\ ready st f = true /\ e_cost e = candidate_cost st f
  end.

Definition sprov_ok (st : @state V) (d : id) (c : nat) (p : prov) : Prop :=
  match p with
  | PInput => In d (map fst raw)
  | PStart => d = START
  | PDefault => exists dn, In dn (data_nodes g) /\ dn_id dn = d /\ dn_default dn <> None /\ c = 0
  | PFun i => exists f, nth_error (fun_nodes g) i = Some f /\ In d (fn_outputs f) /\
      eligible raw f = true /\ ready st f = true /\ c = candidate_cost st f /\
      In i (map fst (results st))
  end.

Record inv (st : @state V) : Prop := {
  inv_base : inv_a g raw st;
  inv_q : forall e, In e (queue st) -> qprov_ok st e;
  inv_s : forall d v c p, In (d, (v, c, p)) (settled st) -> sprov_ok st d c p;
  inv_disc : forall i, In i (discarded st) -> exists f, nth_error (fun_nodes g) i = Some f /\
    (eligible raw f = false \/ exists args, ~ callable_ok f args);
  inv_res_elig : forall i, In i (map fst (results st)) ->
    exists f, nth_error (fun_nodes g) i = Some f /\ eligible raw f = true;
  inv_res_disc : forall i, In i (map fst (results st)) -> ~ In i (discarded st);
  inv_res_wf : forall i, In i (map fst (results st)) <->
    exists a o, In (Invoke i a o) (workflow st);
  inv_fail_wf : forall i, In (Fail i) (workflow st) -> In i (discarded st);
  inv_settle_wf : forall d v i, In (Settle d v (PFun i)) (workflow st) ->
    In i (map fst (results st));
  inv_wf_fun : forall ev i, In ev (workflow st) -> ev_fun ev = Some i ->
    exists f, nth_error (fun_nodes g) i = Some f /\ eligible raw f = true;
  inv_attempts : NoDup (attempts (workflow st));
  inv_follows : follows (workflow st);
  inv_pending : forall i f, nth_error (fun_nodes g) i = Some f -> ready st f = true ->
    ~ In i (discarded st) -> forall o, In o (fn_outputs f) ->
    is_settled st o = true \/ In (mk_entry (candidate_cost st f) o (PFun i)) (queue st);
  inv_inputs : forall k, In k (map fst raw) ->
    is_settled st k = true \/ exists c, In (mk_entry c k PInput) (queue st);
  inv_start : is_settled st START = true \/ exists c, In (mk_entry c START PStart) (queue st)
}.

Lemma follows_app (l1 l2 : list (@event V)) :
  follows l1 -> follows l2 -> follows (l1 ++ l2).
Proof.
  induction l1 as [|ev l1 IH]; simpl; [auto|]. intros H1 H2.
  destruct ev as [d v p|i a o|i].
  - apply IH; assumption.
  - destruct H1 as [Hh Hr]. split; [|apply IH; assumption].
    destruct l1 as [|ev' l1']; [contradiction|]. exact Hh.
  - apply IH; assumption.
Qed.

Lemma attempts_app (l1 l2 : list (@event V)) :
  attempts (l1 ++ l2) = attempts l1 ++ attempts l2.
Proof. unfold attempts. apply flat_map_app. Qed.

Lemma forallb_ext_in {A : Type} (f1 f2 : A -> bool) (l : list A) :
  (forall y, In y l -> f1 y = f2 y) -> forallb f1 l = forallb f2 l.
Proof.
  induction l as [|y l IH]; simpl; intros H; [reflexivity|].
  rewrite H by (left; reflexivity). rewrite IH by (intros; apply H; right; assumption).
  reflexivity.
Qed.

Lemma ready_not_consumed (st st' : @state V) (x : id * (V * nat * prov)) (f : @fnode V) :
  settled st' = x :: settled st -> ~ In (fst x) (consumes f) -> ready st' f = ready st f.
Proof.
  intros H Hn. unfold ready. apply forallb_ext_in. intros y Hy.
  unfold is_settled. rewrite H. destruct x as [k a]. simpl.
  destruct (String.eqb_spec y k) as [->|]; [simpl in Hn; contradiction | reflexivity].
Qed.

Lemma newly_ready (st st' : @state V) (x : id * (V * nat * prov)) (f : @fnode V) :
  settled st' = x :: settled st -> ready st' f = true -> ready st f = false ->
  In (fst x) (consumes f).
Proof.
  intros H Hr' Hr. destruct (in_dec string_dec (fst x) (consumes f)) as [Hi|Hi];
    [exact Hi|].
  rewrite (ready_not_consumed st st' x f H Hi) in Hr'. congruence.
Qed.

Lemma qprov_ok_eq (st1 st2 : @state V) (e : entry) :
  settled st1 = settled st2 -> qprov_ok st1 e -> qprov_ok st2 e.
Proof.
  intros H. unfold qprov_ok. destruct (e_prov e); try tauto.
  intros (f & ? & ? & ? & Hr & Hc). exists f.
  rewrite <- (ready_eq st1 st2 f H), <- (candidate_cost_eq st1 st2 f H). auto.
Qed.

Lemma qprov_ok_extend (st st' : @state V) (x : id * (V * nat * prov)) (e : entry) :
  settled st' = x :: settled st -> is_settled st (fst x) = false ->
  qprov_ok st e -> qprov_ok st' e.
Proof.
  intros H Hx. unfold qprov_ok. destruct (e_prov e); try tauto.
  intros (f & ? & ? & ? & Hr & Hc). exists f.
  destruct (extend_ready st st' x f H Hx Hr) as [Hr' Hc']. rewrite Hr', Hc'. auto.
Qed.

Lemma sprov_ok_extend (st st' : @state V) (x : id * (V * nat * prov)) (d : id) (c : nat)
  (p : prov) :
  settled st' = x :: settled st -> is_settled st (fst x) = false ->
  incl (map fst (results st)) (map fst (results st')) ->
  sprov_ok st d c p -> sprov_ok st' d c p.
Proof.
  intros H Hx Hres. unfold sprov_ok. destruct p; try tauto.
  intros (f & ? & ? & ? & Hr & Hc & Hi). exists f.
  destruct (extend_ready st st' x f H Hx Hr) as [Hr' Hc']. rewrite Hr', Hc'.
  repeat split; auto.
Qed.

Lemma sprov_ok_eq (st1 st2 : @state V) (d : id) (c : nat) (p : prov) :
  settled st1 = settled st2 -> incl (map fst (results st1)) (map fst (results st2)) ->
  sprov_ok st1 d c p -> sprov_ok st2 d c p.
Proof.
  intros H Hres. unfold sprov_ok. destruct p; try tauto.
  intros (f & ? & ? & ? & Hr & Hc & Hi). exists f.
  rewrite <- (ready_eq st1 st2 f H), <- (candidate_cost_eq st1 st2 f H).
  repeat split; auto.
Qed.

Lemma settle_effects (d : id) (v : V) (c : nat) (p : prov) (st0 st1 : @state V) :
  st1 = settle g raw d v c p st0 ->
  settled st1 = (d, (v, c, p)) :: settled st0 /\ results st1 = results st0 /\
  workflow st1 = workflow st0 ++ [Settle d v p] /\
  (exists extra, queue st1 = queue st0 ++ extra /\ forall e, In e extra -> qprov_ok st1 e) /\
  (forall j, In j (discarded st1) -> In j (discarded st0) \/
     exists f, nth_error (fun_nodes g) j = Some f /\ eligible raw f = false) /\
  (forall j, In j (discarded st0) -> In j (discarded st1)) /\
  (forall j f, nth_error (fun_nodes g) j = Some f -> In d (consumes f) ->
     ready st1 f = true -> ~ In j (discarded st1) -> forall o, In o (fn_outputs f) ->
     is_settled st1 o = true \/
     In (mk_entry (candidate_cost st1 f) o (PFun j)) (queue st1)).
Proof.
  intros ->. destruct (settle_frame g raw d v c p st0) as (Hs & Hr & Hw).
  assert (Hpre : settled (settle g raw d v c p st0) = settled (pre_settle d v c p st0))
    by exact Hs.
  split; [exact Hs|]. split; [exact Hr|]. split; [exact Hw|]. split; [|split; [|split]].
  - destruct (settle_queue g raw d v c p st0) as (ex & Hq & _ & Hp).
    exists ex. split; [exact Hq|]. intros e He.
    destruct (Hp e He) as (k & f & o & Hk & -> & Ho & Hso & Hm & Hrd & Hel).
    unfold qprov_ok. simpl. exists f.
    rewrite (ready_eq _ _ f Hpre), (candidate_cost_eq _ _ f Hpre). auto.
  - intros j Hj. rewrite settle_unfold in Hj. apply relax_from_discarded in Hj.
    destruct Hj as [Hj|(k & f & -> & Hk & He & _)]; [left; exact Hj|].
    right. exists f. auto.
  - intros j Hj. rewrite settle_unfold. apply relax_from_discarded. left. exact Hj.
  - intros j f Hj Hc Hrd Hnd o Ho.
    rewrite (ready_eq _ _ f Hpre) in Hrd.
    destruct (eligible raw f) eqn:He.
    + destruct (is_settled (pre_settle d v c p st0) o) eqn:Eo.
      * left. rewrite (is_settled_eq _ _ Hpre). exact Eo.
      * right. rewrite (candidate_cost_eq _ _ f Hpre). rewrite settle_unfold.
        apply (relax_from_pending raw d (fun_nodes g) 0 _ j f o Hj); auto.
        -- apply mem_In. exact Hc.
        -- apply is_discarded_false. intros Hin. apply Hnd.
           rewrite settle_unfold. apply relax_from_discarded. left. exact Hin.
    + exfalso. apply Hnd. rewrite settle_unfold. apply relax_from_discarded. right.
      exists j, f. repeat split; auto. apply mem_In. exact Hc.
Qed.

Lemma in_attempts (wf : list (@event V)) (i : nat) :
  In i (attempts wf) -> (exists a o, In (Invoke i a o) wf) \/ In (Fail i) wf.
Proof.
  unfold attempts. intros H. apply in_flat_map in H. destruct H as [ev [Hev Hi]].
  destruct ev as [d v p|j a o|j]; simpl in Hi; try contradiction;
    destruct Hi as [<-|[]]; [left; exists a, o | right]; exact Hev.
Qed.

Lemma set_queue_same (st : @state V) : set_queue st (queue st) = st.
Proof. destruct st. reflexivity. Qed.

Lemma In_results_assoc (i : nat) (l : list (nat * list V)) :
  assoc_nat i l = None -> ~ In i (map fst l).
Proof. apply assoc_nat_None. Qed.

(** A step that settles [d], from the queue or from a default. *)
Lemma settle_step_inv (st st' st0 : @state V) (q' : list entry) (d : id) (v : V) (c : nat)
  (p : prov) :
  inv st -> is_settled st d = false ->
  ((queue st = [] /\ q' = [] /\ p = PDefault /\ c = 0 /\
    exists dn, In dn (data_nodes g) /\ dn_id dn = d /\ dn_default dn = Some v) \/
   (exists e, pop_min (queue st) = Some (e, q') /\ e_id e = d /\ e_cost e = c /\
      e_prov e = p)) ->
  ((st0 = set_queue st q' /\ forall i, p = PFun i -> In i (map fst (results st))) \/
   exists i f outs, p = PFun i /\ nth_error (fun_nodes g) i = Some f /\
     assoc_nat i (results st) = None /\ is_discarded st i = false /\
     st0 = record_invoke (set_queue st q') i (map (value_of none st) (fn_inputs f)) outs) ->
  st' = settle g raw d v c p st0 -> inv st'.
Proof.
  intros Hi Hd Hpop Hst0 Hst'.
  destruct (settle_effects d v c p st0 st' Hst')
    as (Hset & Hres & Hwf & (ex & Hq & Hex) & Hdisc1 & Hdisc2 & Hpend).
  assert (Hs0 : settled st0 = settled st)
    by (destruct Hst0 as [[->_]|(i & f & outs & _ & _ & _ & _ & ->)]; reflexivity).
  assert (Hq0 : queue st0 = q')
    by (destruct Hst0 as [[->_]|(i & f & outs & _ & _ & _ & _ & ->)]; reflexivity).
  assert (Hd0 : discarded st0 = discarded st)
    by (destruct Hst0 as [[->_]|(i & f & outs & _ & _ & _ & _ & ->)]; reflexivity).
  rewrite Hs0 in Hset. rewrite Hq0 in Hq. rewrite Hd0 in Hdisc1, Hdisc2.
  assert (Hx : is_settled st (fst (d, (v, c, p))) = false) by exact Hd.
  (* the queue before and after the pop *)
  assert (Hsub : forall y, In y q' -> In y (queue st)).
  { destruct Hpop as [(_ & -> & _)|(e & Hp & _)]; [intros _ []|].
    exact (proj1 (proj2 (pop_in _ _ _ Hp))). }
  assert (Hcover : forall y, In y (queue st) -> In y q' \/ e_id y = d).
  { destruct Hpop as [(-> & _)|(e & Hp & <- & _)]; [intros _ []|].
    intros y Hy. destruct (pop_min_some _ _ _ Hp) as [Hperm _].
    apply (Permutation_in y Hperm) in Hy. destruct Hy as [<-|Hy]; [right|left]; auto. }
  assert (Hqst' : forall y, In y q' -> In y (queue st')).
  { intros y Hy. rewrite Hq. apply in_or_app. left. exact Hy. }
  (* results and workflow *)
  assert (Hresw : (results st' = results st /\ workflow st' = workflow st ++ [Settle d v p] /\
                   forall i, p = PFun i -> In i (map fst (results st))) \/
    exists i f outs, p = PFun i /\ nth_error (fun_nodes g) i = Some f /\
      assoc_nat i (results st) = None /\ is_discarded st i = false /\
      results st' = (i, outs) :: results st /\
      workflow st' = workflow st ++ [Invoke i (map (value_of none st) (fn_inputs f)) outs;
                                     Settle d v p]).
  { destruct Hst0 as [[-> Hp]|(i & f & outs & Hp & Hf & Ha & Hdi & ->)].
    - left. rewrite Hres, Hwf. auto.
    - right. exists i, f, outs. rewrite Hres, Hwf. simpl. rewrite <- app_assoc.
      repeat split; auto. }
  assert (Hres_incl : incl (map fst (results st)) (map fst (results st'))).
  { destruct Hresw as [(-> & _)|(i & f & outs & _ & _ & _ & _ & -> & _)];
      [apply incl_refl | intros y Hy; right; exact Hy]. }
  (* the new settlement *)
  assert (Hnew : sprov_ok st' d c p).
  { destruct Hpop as [(_ & _ & -> & -> & dn & Hdn & Hid & Hdv)|(e & Hp & <- & <- & <-)].
    - exists dn. repeat split; auto. rewrite Hdv. discriminate.
    - assert (He : qprov_ok st e) by (apply (inv_q st Hi); exact (proj1 (pop_in _ _ _ Hp))).
      unfold qprov_ok in He. unfold sprov_ok.
      destruct (e_prov e) as [| | |i] eqn:Ep; try exact He; try contradiction.
      destruct He as (f & Hf & Ho & Hel & Hr & Hc).
      destruct (extend_ready st st' _ f Hset Hx Hr) as [Hr' Hc'].
      exists f. rewrite Hr', Hc'. repeat split; auto.
      destruct Hresw as [(_ & _ & Hp')|(i' & f' & outs & Hpi & _ & _ & _ & -> & _)].
      + apply Hres_incl, Hp'. reflexivity.
      + inversion Hpi; subst. left. reflexivity. }
  assert (Hwf_old : forall ev, In ev (workflow st) -> In ev (workflow st')).
  { intros ev Hev. destruct Hresw as [(_ & -> & _)|(i & f & outs & _ & _ & _ & _ & _ & ->)];
      apply in_or_app; left; exact Hev. }
  assert (Hres_elig : forall i, In i (map fst (results st')) ->
    exists f, nth_error (fun_nodes g) i = Some f /\ eligible raw f = true).
  { intros i Hin. destruct Hresw as [(Hr & _)|(j & f & outs & Hpj & Hf & _ & _ & Hr & _)];
      [rewrite Hr in Hin; apply (inv_res_elig st Hi); exact Hin|].
    rewrite Hr in Hin. destruct Hin as [<-|Hin]; [|apply (inv_res_elig st Hi); exact Hin].
    subst p. destruct Hnew as (f' & Hf' & _ & Hel & _). exists f'. auto. }
  constructor.
  - (* inv_base *)
    assert (Hu : In d (universe g raw)).
    { destruct Hpop as [(_ & _ & _ & _ & dn & Hdn & Hid & _)|(e & Hp & <- & _)].
      - simpl. right. apply in_or_app. right. apply in_or_app. left.
        rewrite <- Hid. apply in_map. exact Hdn.
      - destruct (inv_base st Hi) as (_ & _ & H3). apply H3; exact (proj1 (pop_in _ _ _ Hp)). }
    assert (Ha0 : inv_a g raw st0).
    { destruct (inv_base st Hi) as (H1 & H2 & H3). split; [rewrite Hs0; exact H1|].
      split; [rewrite Hs0; exact H2|]. rewrite Hq0. intros y Hy. apply H3, Hsub, Hy. }
    rewrite <- (is_settled_eq st0 st Hs0) in Hd. subst st'.
    apply (settle_inv_a g raw d v c p st0 Ha0 Hd Hu).
  - (* inv_q *)
    intros y Hy. rewrite Hq in Hy. apply in_app_or in Hy. destruct Hy as [Hy|Hy];
      [|apply Hex; exact Hy].
    apply (qprov_ok_extend st st' _ y Hset Hx). apply (inv_q st Hi), Hsub, Hy.
  - (* inv_s *)
    intros d' v' c' p' Hin. rewrite Hset in Hin. destruct Hin as [E|Hin];
      [inversion E; subst; exact Hnew|].
    apply (sprov_ok_extend st st' _ d' c' p' Hset Hx Hres_incl).
    apply (inv_s st Hi d' v'); exact Hin.
  - (* inv_disc *)
    intros j Hj. destruct (Hdisc1 j Hj) as [Hj'|(f & Hf & He)];
      [apply (inv_disc st Hi); exact Hj'|].
    exists f. auto.
  - exact Hres_elig.
  - (* inv_res_disc *)
    intros j Hj Hjd. destruct (Hdisc1 j Hjd) as [Hjd'|(f & Hf & He)].
    + destruct Hresw as [(Hr & _)|(i & f & outs & Hpi & Hf & Ha & Hdi & Hr & _)];
        rewrite Hr in Hj; [apply (inv_res_disc st Hi j Hj Hjd')|].
      destruct Hj as [<-|Hj]; [|apply (inv_res_disc st Hi j Hj Hjd')].
      apply is_discarded_false in Hdi. contradiction.
    + destruct (Hres_elig j Hj) as (f' & Hf' & He'). congruence.
  - (* inv_res_wf *)
    intros j. destruct Hresw as [(Hr & Hw & _)|(i & f & outs & Hpi & Hf & Ha & Hdi & Hr & Hw)];
      rewrite Hr, Hw.
    + rewrite (inv_res_wf st Hi j). split.
      * intros (a & o & Hin). exists a, o. apply in_or_app. left. exact Hin.
      * intros (a & o & Hin). apply in_app_or in Hin. destruct Hin as [Hin|[E|[]]];
          [exists a, o; exact Hin | discriminate].
    + simpl. rewrite (inv_res_wf st Hi j). split.
      * intros [<-|(a & o & Hin)].
        -- eexists _, _. apply in_or_app. right. left. reflexivity.
        -- exists a, o. apply in_or_app. left. exact Hin.
      * intros (a & o & Hin). apply in_app_or in Hin.
        destruct Hin as [Hin|[E|[E|[]]]]; [right; exists a, o; exact Hin | | discriminate].
        inversion E; subst. left. reflexivity.
  - (* inv_fail_wf *)
    intros j Hj. apply Hdisc2. apply (inv_fail_wf st Hi).
    destruct Hresw as [(_ & Hw & _)|(i & f & outs & _ & _ & _ & _ & _ & Hw)];
      rewrite Hw in Hj; apply in_app_or in Hj;
      destruct Hj as [Hj|Hj]; try exact Hj; simpl in Hj;
      repeat (destruct Hj as [Hj|Hj]; [discriminate|]); contradiction.
  - (* inv_settle_wf *)
    intros d' v' j Hj.
    destruct Hresw as [(Hr & Hw & Hp)|(i & f & outs & Hpi & Hf & Ha & Hdi & Hr & Hw)];
      rewrite Hw in Hj; apply in_app_or in Hj.
    + destruct Hj as [Hj|[E|[]]]; [apply Hres_incl, (inv_settle_wf st Hi d' v'), Hj|].
      inversion E; subst. apply Hres_incl, Hp. reflexivity.
    + rewrite Hr. destruct Hj as [Hj|[E|[E|[]]]];
        [right; apply (inv_settle_wf st Hi d' v'), Hj | discriminate |].
      inversion E; subst. inversion H2; subst. left. reflexivity.
  - (* inv_wf_fun *)
    intros ev j Hev Hj.
    assert (Hcase : In ev (workflow st) \/ ev = Settle d v p \/
      exists a o, ev = Invoke j a o /\ In j (map fst (results st'))).
    { destruct Hresw as [(_ & Hw & _)|(i & f & outs & Hpi & Hf & Ha & Hdi & Hr & Hw)];
        rewrite Hw in Hev; apply in_app_or in Hev.
      - destruct Hev as [Hev|[<-|[]]]; auto.
      - destruct Hev as [Hev|[<-|[<-|[]]]]; auto.
        right. right. simpl in Hj. inversion Hj; subst. eexists _, _. split; [reflexivity|].
        rewrite Hr. left. reflexivity. }
    destruct Hcase as [Hev'|[->|(a & o & -> & Hin)]].
    + apply (inv_wf_fun st Hi ev j Hev' Hj).
    + destruct p as [| | |i]; simpl in Hj; try discriminate. inversion Hj; subst.
      destruct Hnew as (f & Hf & _ & Hel & _). exists f. auto.
    + apply Hres_elig. exact Hin.
  - (* inv_attempts *)
    pose proof (inv_attempts st Hi) as Hnd.
    destruct Hresw as [(_ & Hw & _)|(i & f & outs & Hpi & Hf & Ha & Hdi & Hr & Hw)];
      rewrite Hw, attempts_app; simpl; rewrite ?app_nil_r; [exact Hnd|].
    apply NoDup_app; [exact Hnd | repeat constructor; simpl; tauto|].
    intros j Hj [<-|[]]. apply in_attempts in Hj. destruct Hj as [(a & o & Hj)|Hj].
    + apply (In_results_assoc _ _ Ha). apply (inv_res_wf st Hi). exists a, o. exact Hj.
    + apply is_discarded_false in Hdi. apply Hdi. apply (inv_fail_wf st Hi). exact Hj.
  - (* inv_follows *)
    destruct Hresw as [(_ & Hw & _)|(i & f & outs & Hpi & Hf & Ha & Hdi & Hr & Hw)];
      rewrite Hw; apply follows_app; try exact (inv_follows st Hi); simpl; auto.
    subst p. split; [|exact I]. split; [reflexivity|].
    destruct Hnew as (f' & Hf' & Ho & _). exists f'. auto.
  - (* inv_pending *)
    intros j f Hf Hr' Hnd o Ho.
    destruct (ready st f) eqn:Er.
    + destruct (extend_ready st st' _ f Hset Hx Er) as [_ Hc'].
      assert (Hnd0 : ~ In j (discarded st)) by (intros H; apply Hnd, Hdisc2, H).
      destruct (inv_pending st Hi j f Hf Er Hnd0 o Ho) as [Hso|Hin].
      * left. apply (extend_is_settled st st' _ o Hset Hso).
      * destruct (Hcover _ Hin) as [Hin'|Eo].
        -- right. rewrite Hc'. apply Hqst'. exact Hin'.
        -- simpl in Eo. subst o. left. unfold is_settled. rewrite Hset. simpl.
           rewrite String.eqb_refl. reflexivity.
    + apply (Hpend j f Hf); try assumption.
      apply (newly_ready st st' (d, (v, c, p)) f Hset Hr' Er).
  - (* inv_inputs *)
    intros k Hk. destruct (inv_inputs st Hi k Hk) as [Hs|(c' & Hin)].
    + left. apply (extend_is_settled st st' _ k Hset Hs).
    + destruct (Hcover _ Hin) as [Hin'|Ek].
      * right. exists c'. apply Hqst'. exact Hin'.
      * simpl in Ek. subst k. left. unfold is_settled. rewrite Hset. simpl.
        rewrite String.eqb_refl. reflexivity.
  - (* inv_start *)
    destruct (inv_start st Hi) as [Hs|(c' & Hin)].
    + left. apply (extend_is_settled st st' _ START Hset Hs).
    + destruct (Hcover _ Hin) as [Hin'|Ek].
      * right. exists c'. apply Hqst'. exact Hin'.
      * cbn [e_id] in Ek. subst d. left. unfold is_settled. rewrite Hset. simpl.
        try rewrite String.eqb_refl; reflexivity.
Qed.

Lemma is_discarded_true (st : @state V) (j : nat) :
  is_discarded st j = true -> In j (discarded st).
Proof.
  unfold is_discarded. intros H. apply existsb_exists in H.
  destruct H as [y [Hy E]]. apply Nat.eqb_eq in E. subst. exact Hy.
Qed.

Lemma skip_inv (st : @state V) (e : entry) (q : list entry) :
  inv st -> pop_min (queue st) = Some (e, q) ->
  (is_settled st (e_id e) = true \/ e_prov e = PDefault \/
   (e_prov e = PInput /\ assoc (e_id e) raw = None) \/
   (exists i, e_prov e = PFun i /\
      (nth_error (fun_nodes g) i = None \/ is_discarded st i = true))) ->
  inv (set_queue st q).
Proof.
  intros Hi Hp Hwhy.
  destruct (pop_in _ _ _ Hp) as (_ & Hsub & _).
  destruct (pop_min_some _ _ _ Hp) as [Hperm _].
  assert (Hcover : forall y, In y (queue st) -> In y q \/ y = e).
  { intros y Hy. apply (Permutation_in y Hperm) in Hy. destruct Hy as [<-|Hy]; auto. }
  assert (Hs : settled (set_queue st q) = settled st) by reflexivity.
  destruct Hi. constructor; simpl.
  - destruct inv_base0 as (H1 & H2 & H3). repeat split; auto.
  - intros y Hy. apply (qprov_ok_eq st); [reflexivity|]. apply inv_q0, Hsub, Hy.
  - intros d v c p Hin. apply (sprov_ok_eq st); [reflexivity | apply incl_refl|].
    apply (inv_s0 d v); exact Hin.
  - exact inv_disc0.
  - exact inv_res_elig0.
  - exact inv_res_disc0.
  - exact inv_res_wf0.
  - exact inv_fail_wf0.
  - exact inv_settle_wf0.
  - exact inv_wf_fun0.
  - exact inv_attempts0.
  - exact inv_follows0.
  - intros j f Hf Hr Hnd o Ho.
    rewrite (ready_eq (set_queue st q) st f Hs) in Hr.
    rewrite (is_settled_eq (set_queue st q) st Hs), (candidate_cost_eq (set_queue st q) st f Hs).
    destruct (inv_pending0 j f Hf Hr Hnd o Ho) as [H|H]; [left; exact H|].
    destruct (Hcover _ H) as [H'|<-]; [right; exact H'|].
    simpl in Hwhy. destruct Hwhy as [H1|[H1|[(H1 & _)|(i & H1 & H2)]]];
      try discriminate; [left; exact H1|].
    inversion H1; subst i. destruct H2 as [H2|H2]; [congruence|].
    apply is_discarded_true in H2. contradiction.
  - intros k Hk. rewrite (is_settled_eq (set_queue st q) st Hs).
    destruct (inv_inputs0 k Hk) as [H|(c & H)]; [left; exact H|].
    destruct (Hcover _ H) as [H'|<-]; [right; exists c; exact H'|].
    simpl in Hwhy. destruct Hwhy as [H1|[H1|[(_ & H1)|(i & H1 & _)]]];
      try discriminate; [left; exact H1|].
    apply assoc_None in H1. contradiction.
  - rewrite (is_settled_eq (set_queue st q) st Hs).
    destruct inv_start0 as [H|(c & H)]; [left; exact H|].
    destruct (Hcover _ H) as [H'|<-]; [right; exists c; exact H'|].
    simpl in Hwhy. destruct Hwhy as [H1|[H1|[(H1 & _)|(i & H1 & _)]]];
      try discriminate; left; exact H1.
Qed.

Lemma fail_inv (st : @state V) (e : entry) (q : list entry) (i : nat) (f : @fnode V) :
  inv st -> pop_min (queue st) = Some (e, q) -> e_prov e = PFun i ->
  nth_error (fun_nodes g) i = Some f -> is_discarded st i = false ->
  assoc_nat i (results st) = None ->
  ~ callable_ok f (map (value_of none st) (fn_inputs f)) ->
  inv (record_fail (set_queue st q) i).
Proof.
  intros Hi Hp Hpi Hf Hdi Ha Hc.
  destruct (pop_in _ _ _ Hp) as (Hine & Hsub & _).
  destruct (pop_min_some _ _ _ Hp) as [Hperm _].
  assert (Hcover : forall y, In y (queue st) -> In y q \/ y = e).
  { intros y Hy. apply (Permutation_in y Hperm) in Hy. destruct Hy as [<-|Hy]; auto. }
  assert (Hs : settled (record_fail (set_queue st q) i) = settled st) by reflexivity.
  assert (He : qprov_ok st e) by (apply (inv_q st Hi), Hine).
  unfold qprov_ok in He. rewrite Hpi in He.
  destruct He as (f' & Hf' & _ & Hel & _). rewrite Hf in Hf'. inversion Hf'; subst f'.
  apply is_discarded_false in Hdi. apply assoc_nat_None in Ha.
  destruct Hi. constructor; simpl.
  - destruct inv_base0 as (H1 & H2 & H3). repeat split; auto.
  - intros y Hy. apply (qprov_ok_eq st); [reflexivity|]. apply inv_q0, Hsub, Hy.
  - intros d v c p Hin. apply (sprov_ok_eq st); [reflexivity | apply incl_refl|].
    apply (inv_s0 d v); exact Hin.
  - intros j [<-|Hj]; [|apply inv_disc0, Hj].
    exists f. split; [exact Hf|]. right. eexists. exact Hc.
  - exact inv_res_elig0.
  - intros j Hj [<-|Hjd]; [contradiction | apply (inv_res_disc0 j Hj Hjd)].
  - intros j. rewrite inv_res_wf0. split.
    + intros (a & o & H). exists a, o. apply in_or_app. left. exact H.
    + intros (a & o & H). apply in_app_or in H. destruct H as [H|[H|[]]];
        [exists a, o; exact H | discriminate].
  - intros j H. apply in_app_or in H. destruct H as [H|[H|[]]];
      [right; apply inv_fail_wf0, H | inversion H; subst; left; reflexivity].
  - intros d v j H. apply in_app_or in H. destruct H as [H|[H|[]]];
      [apply (inv_settle_wf0 d v), H | discriminate].
  - intros ev j H Hj. apply in_app_or in H. destruct H as [H|[<-|[]]];
      [apply (inv_wf_fun0 ev j H Hj)|].
    simpl in Hj. inversion Hj; subst j. exists f. auto.
  - rewrite attempts_app. simpl. apply NoDup_app; [exact inv_attempts0 | repeat constructor; auto|].
    intros j Hj [<-|[]]. apply in_attempts in Hj. destruct Hj as [(a & o & Hj)|Hj].
    + apply Ha. apply inv_res_wf0. exists a, o. exact Hj.
    + apply Hdi, inv_fail_wf0, Hj.
  - apply follows_app; simpl; auto.
  - intros j f0 Hf0 Hr Hnd o Ho.
    rewrite (ready_eq _ st f0 Hs) in Hr.
    rewrite (is_settled_eq _ st Hs), (candidate_cost_eq _ st f0 Hs).
    assert (Hnd0 : ~ In j (discarded st)) by (intros H; apply Hnd; right; exact H).
    destruct (inv_pending0 j f0 Hf0 Hr Hnd0 o Ho) as [H|H]; [left; exact H|].
    destruct (Hcover _ H) as [H'|<-]; [right; exact H'|].
    simpl in Hpi. inversion Hpi; subst j. exfalso. apply Hnd. left. reflexivity.
  - intros k Hk. rewrite (is_settled_eq _ st Hs).
    destruct (inv_inputs0 k Hk) as [H|(c & H)]; [left; exact H|].
    destruct (Hcover _ H) as [H'|<-]; [right; exists c; exact H' | discriminate].
  - rewrite (is_settled_eq _ st Hs).
    destruct inv_start0 as [H|(c & H)]; [left; exact H|].
    destruct (Hcover _ H) as [H'|<-]; [right; exists c; exact H' | discriminate].
Qed.

Lemma step_inv (st st' : @state V) : inv st -> step_spec none g raw st st' -> inv st'.
Proof.
  intros Hi Hs. destruct Hs as [d v dn Hq Hdn Hid Hdv Hd Hst'
    | e q Hp Hwhy Hst' | e q v Hp Hpi Hd Ha Hst' | e q Hp Hpi Hd Hst'
    | e q i f outs Hp Hpi Hd Hf Hdi Ha Hst' | e q i f outs Hp Hpi Hd Hf Hdi Ha Hc Hl Hst'
    | e q i f Hp Hpi Hd Hf Hdi Ha Hc Hst'].
  - apply (settle_step_inv st st' st [] d v 0 PDefault Hi Hd).
    + left. repeat split; auto. exists dn. auto.
    + left. split; [rewrite <- Hq; symmetry; apply set_queue_same | discriminate].
    + exact Hst'.
  - subst st'. apply (skip_inv st e q Hi Hp Hwhy).
  - apply (settle_step_inv st st' (set_queue st q) q (e_id e) v (e_cost e) PInput Hi Hd).
    + right. exists e. auto.
    + left. split; [reflexivity | discriminate].
    + exact Hst'.
  - apply (settle_step_inv st st' (set_queue st q) q (e_id e) none (e_cost e) PStart Hi Hd).
    + right. exists e. auto.
    + left. split; [reflexivity | discriminate].
    + exact Hst'.
  - apply (settle_step_inv st st' (set_queue st q) q (e_id e) (output_value none f outs (e_id e))
      (e_cost e) (PFun i) Hi Hd).
    + right. exists e. auto.
    + left. split; [reflexivity|]. intros j Hj. inversion Hj; subst j.
      apply (assoc_nat_Some _ _ _ Ha).
    + exact Hst'.
  - apply (settle_step_inv st st'
      (record_invoke (set_queue st q) i (map (value_of none st) (fn_inputs f)) outs)
      q (e_id e) (output_value none f outs (e_id e))
      (e_cost e) (PFun i) Hi Hd).
    + right. exists e. auto.
    + right. exists i, f, outs. repeat split; auto.
    + exact Hst'.
  - subst st'. apply (fail_inv st e q i f Hi Hp Hpi Hf Hdi Ha Hc).
Qed.

Lemma init_inv : inv (init raw).
Proof.
  assert (Hnr : forall f : @fnode V, ready (init raw) f = false).
  { intros f. unfold ready. destruct (consumes f) as [|x l] eqn:E.
    - unfold consumes in E. destruct (fn_inputs f); discriminate.
    - reflexivity. }
  constructor; simpl.
  - apply init_inv_a.
  - intros e He. apply in_app_or in He. destruct He as [He|[<-|[]]]; [|reflexivity].
    apply in_map_iff in He. destruct He as [[k w] [<- Hk]]. unfold qprov_ok. simpl.
    apply (in_map fst raw (k, w)). exact Hk.
  - intros d v c p [].
  - intros i [].
  - intros i [].
  - intros i [].
  - intros i. split; [intros []|intros (a & o & [])].
  - intros i [].
  - intros d v i [].
  - intros ev i [].
  - constructor.
  - exact I.
  - intros i f _ Hr. rewrite Hnr in Hr. discriminate.
  - intros k Hk. right. exists 0. apply in_or_app. left.
    apply in_map_iff in Hk. destruct Hk as [[k' w] [E Hk]]. simpl in E. subst k'.
    apply in_map_iff. exists (k, w). auto.
  - right. exists 0. apply in_or_app. right. left. reflexivity.
Qed.

Lemma run_inv (fuel : nat) (st st' : @state V) :
  inv st -> run none g raw req fuel st = Some st' ->
  inv st' /\ step none g raw req st' = Halt.
Proof.
  revert st. induction fuel as [|n IH]; intros st Hi H; simpl in H; [discriminate|].
  destruct (step none g raw req st) as [|s1] eqn:E.
  - inversion H; subst. auto.
  - apply (IH s1); [|exact H]. apply (step_inv st s1 Hi).
    apply (step_cases none g raw req st s1 E).
Qed.

Lemma final_inv (st : @state V) :
  final_state none g raw req = Some st -> inv st /\ step none g raw req st = Halt.
Proof. apply run_inv, init_inv. Qed.

Lemma is_settled_In (st : @state V) (d : id) :
  is_settled st d = true <-> In d (map fst (settled st)).
Proof.
  unfold is_settled. destruct (assoc d (settled st)) as [[[w c] p]|] eqn:E.
  - split; [intros _|reflexivity]. apply assoc_In in E.
    apply (in_map fst) in E. exact E.
  - split; [discriminate|]. intros H. apply assoc_None in E. contradiction.
Qed.

Lemma solution_ids (st : @state V) : map fst (solution st) = map fst (settled st).
Proof. unfold solution. rewrite map_map. apply map_ext. reflexivity. Qed.

(** At a halt reached through an empty queue, every reachable id is settled. *)
Lemma settleable_settled (st : @state V) (o : id) :
  inv st -> queue st = [] -> first_default st (data_nodes g) = None ->
  settleable g raw o -> is_settled st o = true.
Proof.
  intros Hi Hq Hfd Hs. induction Hs as [k Hk| |dn w Hdn Hdv|i f o Hf He Hc Ho _ IH].
  - destruct (inv_inputs st Hi k Hk) as [H|(c & H)]; [exact H|]. rewrite Hq in H. destruct H.
  - destruct (inv_start st Hi) as [H|(c & H)]; [exact H|]. rewrite Hq in H. destruct H.
  - apply (first_default_none st (data_nodes g) Hfd dn w Hdn Hdv).
  - assert (Hr : ready st f = true) by (unfold ready; apply forallb_forall; exact IH).
    assert (Hnd : ~ In i (discarded st)).
    { intros Hin. destruct (inv_disc st Hi i Hin) as (f' & Hf' & [Hel|(args & Hna)]);
        rewrite Hf in Hf'; inversion Hf'; subst f'; [congruence|].
      apply Hna. destruct (Hc args) as (outs & H1 & H2). exists outs. auto. }
    destruct (inv_pending st Hi i f Hf Hr Hnd o Ho) as [H|H]; [exact H|].
    rewrite Hq in H. destruct H.
Qed.

End Invariants.

(** ** Costs never decrease along a run without default values *)

Section Optimality.

Context {V : Type} (none : V) (g : @graph V) (raw : list (id * V)) (req : list id).

(** Every pending entry costs at least as much as every settlement. *)
Definition frontier_ok (st : @state V) : Prop :=
  forall y, In y (queue st) -> forall x v c p, In (x, (v, c, p)) (settled st) -> c <= e_cost y.

(** A settlement costs no more than any ready, eligible, live producer of the id. *)
Definition optimal_ok (st : @state V) : Prop :=
  forall x v c p, In (x, (v, c, p)) (settled st) ->
  forall k f, nth_error (fun_nodes g) k = Some f -> In x (fn_outputs f) ->
  eligible raw f = true -> ready st f = true -> ~ In k (discarded st) ->
  c <= candidate_cost st f.

Hypothesis no_defaults : forall dn, In dn (data_nodes g) -> dn_default dn = None.

Lemma max_cost_ge (st : @state V) (x : id) (l : list id) :
  In x l -> cost_of st x <= max_cost st l.
Proof.
  induction l as [|y l IH]; simpl; [tauto|]. intros [<-|H]; [lia|]. specialize (IH H). lia.
Qed.

Lemma cost_of_head (st : @state V) (d : id) (v : V) (c : nat) (p : prov) rest :
  settled st = (d, (v, c, p)) :: rest -> cost_of st d = c.
Proof. intros H. unfold cost_of. rewrite H. simpl. rewrite String.eqb_refl. reflexivity. Qed.

Lemma entry_min_cost (q q' : list entry) (e y : entry) :
  pop_min q = Some (e, q') -> In y q -> e_cost e <= e_cost y.
Proof.
  intros Hp Hy. destruct (pop_min_some _ _ _ Hp) as [_ Hm].
  pose proof (Hm y Hy) as H. apply entry_lt_false in H. lia.
Qed.

Lemma settle_dinv (st st' st0 : @state V) (q' : list entry) (e : entry) (v : V) :
  inv g raw st -> frontier_ok st -> optimal_ok st ->
  pop_min (queue st) = Some (e, q') -> is_settled st (e_id e) = false ->
  settled st0 = settled st -> queue st0 = q' -> discarded st0 = discarded st ->
  st' = settle g raw (e_id e) v (e_cost e) (e_prov e) st0 ->
  frontier_ok st' /\ optimal_ok st'.
Proof.
  intros Hi Hf Ho Hp Hd Hs0 Hq0 Hd0 Hst'.
  destruct (settle_effects g raw (e_id e) v (e_cost e) (e_prov e) st0 st' Hst')
    as (Hset & _ & _ & _ & _ & Hdisc2 & _).
  rewrite Hs0 in Hset. rewrite Hd0 in Hdisc2.
  assert (Hx : is_settled st (fst (e_id e, (v, e_cost e, e_prov e))) = false) by exact Hd.
  assert (Hine : In e (queue st)) by exact (proj1 (pop_in _ _ _ Hp)).
  assert (Hsub : forall y, In y q' -> In y (queue st)) by exact (proj1 (proj2 (pop_in _ _ _ Hp))).
  assert (Hold : forall x w c p, In (x, (w, c, p)) (settled st) -> c <= e_cost e)
    by (intros x w c p H; apply (Hf e Hine x w c p H)).
  assert (Hcd : cost_of st' (e_id e) = e_cost e) by exact (cost_of_head _ _ _ _ _ _ Hset).
  (* a function ready only now consumes the id just settled *)
  assert (Hnew : forall f, ready st' f = true -> ready st f = false ->
            e_cost e <= candidate_cost st' f).
  { intros f Hr' Hr. pose proof (newly_ready st st' _ f Hset Hr' Hr) as Hc. simpl in Hc.
    unfold candidate_cost. rewrite <- Hcd. pose proof (max_cost_ge st' _ _ Hc). lia. }
  split.
  - intros y Hy x w c p Hin.
    destruct (settle_queue g raw (e_id e) v (e_cost e) (e_prov e) st0) as (ex & Hq & _ & Hpush).
    rewrite <- Hst' in Hq. rewrite Hq, Hq0 in Hy. rewrite Hset in Hin.
    assert (Hy' : e_cost e <= e_cost y).
    { apply in_app_or in Hy. destruct Hy as [Hy|Hy].
      - apply (entry_min_cost _ _ _ _ Hp), Hsub, Hy.
      - destruct (Hpush y Hy) as (k & f & o & _ & -> & _ & _ & Hm & _ & _). simpl.
        apply mem_In in Hm.
        assert (Hpre : settled (pre_settle (e_id e) v (e_cost e) (e_prov e) st0) =
                       settled st') by (rewrite Hset; simpl; rewrite Hs0; reflexivity).
        rewrite (candidate_cost_eq _ _ f Hpre). unfold candidate_cost.
        pose proof (max_cost_ge st' _ _ Hm). lia. }
    destruct Hin as [E|Hin]; [inversion E; subst; lia|].
    pose proof (Hold x w c p Hin). lia.
  - intros x w c p Hin k f Hk Hxo Hel Hr' Hnd.
    assert (Hnd0 : ~ In k (discarded st)) by (intros H; apply Hnd, Hdisc2, H).
    rewrite Hset in Hin. destruct (ready st f) eqn:Hr.
    + destruct (extend_ready st st' _ f Hset Hx Hr) as [_ Hc']. rewrite Hc'.
      destruct Hin as [E|Hin].
      * inversion E; subst x w c p.
        destruct (inv_pending g raw st Hi k f Hk Hr Hnd0 (e_id e) Hxo) as [H|H];
          [congruence|].
        apply (entry_min_cost _ _ _ _ Hp) in H. exact H.
      * apply (Ho x w c p Hin k f Hk Hxo Hel Hr Hnd0).
    + pose proof (Hnew f Hr' Hr).
      destruct Hin as [E|Hin]; [inversion E; subst; lia|].
      pose proof (Hold x w c p Hin). lia.
Qed.

Lemma step_dinv (st st' : @state V) :
  inv g raw st -> frontier_ok st -> optimal_ok st -> step_spec none g raw st st' ->
  frontier_ok st' /\ optimal_ok st'.
Proof.
  intros Hi Hf Ho Hs. destruct Hs as [d v dn Hq Hdn Hid Hdv Hd Hst'
    | e q Hp Hwhy Hst' | e q v Hp Hpi Hd Ha Hst' | e q Hp Hpi Hd Hst'
    | e q i f outs Hp Hpi Hd Hf' Hdi Ha Hst' | e q i f outs Hp Hpi Hd Hf' Hdi Ha Hc Hl Hst'
    | e q i f Hp Hpi Hd Hf' Hdi Ha Hc Hst'].
  - rewrite (no_defaults dn Hdn) in Hdv. discriminate.
  - subst st'. destruct (pop_in _ _ _ Hp) as (_ & Hsub & _). split.
    + intros y Hy. apply (Hf y (Hsub y Hy)).
    + exact Ho.
  - rewrite <- Hpi in Hst'.
    apply (settle_dinv st st' (set_queue st q) q e v Hi Hf Ho Hp Hd); auto.
  - rewrite <- Hpi in Hst'.
    apply (settle_dinv st st' (set_queue st q) q e none Hi Hf Ho Hp Hd); auto.
  - rewrite <- Hpi in Hst'.
    apply (settle_dinv st st' (set_queue st q) q e (output_value none f outs (e_id e))
      Hi Hf Ho Hp Hd); auto.
  - rewrite <- Hpi in Hst'.
    apply (settle_dinv st st'
      (record_invoke (set_queue st q) i (map (value_of none st) (fn_inputs f)) outs)
      q e (output_value none f outs (e_id e)) Hi Hf Ho Hp Hd eq_refl eq_refl eq_refl Hst').
  - subst st'. destruct (pop_in _ _ _ Hp) as (_ & Hsub & _). split.
    + intros y Hy. apply (Hf y (Hsub y Hy)).
    + intros x w c p Hin k f0 Hk Hxo Hel Hr Hnd.
      apply (Ho x w c p Hin k f0 Hk Hxo Hel Hr). intros H. apply Hnd. right. exact H.
Qed.

Lemma run_dinv (fuel : nat) (st st' : @state V) :
  inv g raw st -> frontier_ok st -> optimal_ok st -> run none g raw req fuel st = Some st' ->
  optimal_ok st'.
Proof.
  revert st. induction fuel as [|n IH]; intros st Hi Hf Ho H; simpl in H; [discriminate|].
  destruct (step none g raw req st) as [|s1] eqn:E; [inversion H; subst; exact Ho|].
  pose proof (step_cases none g raw req st s1 E) as Hs.
  destruct (step_dinv st s1 Hi Hf Ho Hs) as [Hf1 Ho1].
  apply (IH s1 (step_inv none g raw st s1 Hi Hs) Hf1 Ho1 H).
Qed.

Lemma final_optimal (st : @state V) :
  final_state none g raw req = Some st -> optimal_ok st.
Proof.
  apply run_dinv; [apply init_inv | intros y _ x v c p [] | intros x v c p []].
Qed.

End Optimality.

(** ** Settled values come from recorded invocations *)

Section Values.

Context {V : Type} (none : V) (g : @graph V) (raw : list (id * V)) (req : list id).

(** A value settled from function [i] is its result for that id; every stored
    result is the return value of a recorded invocation; every settlement
    record of the workflow is an entry of [settled]. *)
Record vinv (st : @state V) : Prop := {
  vi_settled : forall d v c i, In (d, (v, c, PFun i)) (settled st) ->
    exists f outs, nth_error (fun_nodes g) i = Some f /\
      assoc_nat i (results st) = Some outs /\ v = output_value none f outs d;
  vi_results : forall i outs, assoc_nat i (results st) = Some outs ->
    exists f args, nth_error (fun_nodes g) i = Some f /\ fn_call f args = Some outs /\
      In (Invoke i args outs) (workflow st);
  vi_wf : forall d v p, In (Settle d v p) (workflow st) ->
    exists c, In (d, (v, c, p)) (settled st)
}.

Lemma vinv_settle (st0 : @state V) (d : id) (v : V) (c : nat) (p : prov) :
  vinv st0 ->
  (forall i, p = PFun i -> exists f outs, nth_error (fun_nodes g) i = Some f /\
     assoc_nat i (results st0) = Some outs /\ v = output_value none f outs d) ->
  vinv (settle g raw d v c p st0).
Proof.
  intros Hv Hp. destruct (settle_frame g raw d v c p st0) as (Hs & Hr & Hw).
  constructor; rewrite ?Hs, ?Hr, ?Hw.
  - intros d' v' c' i [E|Hin].
    + inversion E; subst. apply Hp. reflexivity.
    + exact (vi_settled st0 Hv d' v' c' i Hin).
  - intros i outs Ha. destruct (vi_results st0 Hv i outs Ha) as (f & args & Hf & Hc & Hin).
    exists f, args. split; [exact Hf|]. split; [exact Hc|]. apply in_or_app. left. exact Hin.
  - intros d' v' p' Hin. apply in_app_or in Hin. destruct Hin as [Hin|[E|[]]].
    + destruct (vi_wf st0 Hv d' v' p' Hin) as [c' Hc']. exists c'. right. exact Hc'.
    + inversion E; subst. exists c. left. reflexivity.
Qed.

Lemma vinv_set_queue (st : @state V) (q : list entry) : vinv st -> vinv (set_queue st q).
Proof. intros [H1 H2 H3]. constructor; assumption. Qed.

Lemma vinv_step (st st' : @state V) : vinv st -> step_spec none g raw st st' -> vinv st'.
Proof.
  intros Hv Hs. destruct Hs as [d v dn Hq Hdn Hid Hdv Hd Hst'
    | e q Hp Hwhy Hst' | e q v Hp Hpi Hd Ha Hst' | e q Hp Hpi Hd Hst'
    | e q i f outs Hp Hpi Hd Hf Hdi Ha Hst' | e q i f outs Hp Hpi Hd Hf Hdi Ha Hc Hl Hst'
    | e q i f Hp Hpi Hd Hf Hdi Ha Hc Hst']; subst st'.
  - apply vinv_settle; [exact Hv | discriminate].
  - apply vinv_set_queue, Hv.
  - apply vinv_settle; [apply vinv_set_queue, Hv | discriminate].
  - apply vinv_settle; [apply vinv_set_queue, Hv | discriminate].
  - apply vinv_settle; [apply vinv_set_queue, Hv|].
    intros k E. injection E as <-. exists f, outs. auto.
  - apply vinv_settle.
    + destruct Hv as [H1 H2 H3]. constructor; simpl.
      * intros d v c k Hin. destruct (H1 d v c k Hin) as (f' & outs' & Hf' & Ha' & Hv').
        exists f', outs'. split; [exact Hf'|]. split; [|exact Hv'].
        destruct (Nat.eqb_spec k i) as [->|Hne]; [congruence | exact Ha'].
      * intros k outs' Ha'. destruct (Nat.eqb_spec k i) as [->|Hne].
        -- injection Ha' as <-. exists f, (map (value_of none st) (fn_inputs f)).
           split; [exact Hf|]. split; [exact Hc|]. apply in_or_app. right. left. reflexivity.
        -- destruct (H2 k outs' Ha') as (f' & args & Hf' & Hc' & Hin).
           exists f', args. split; [exact Hf'|]. split; [exact Hc'|].
           apply in_or_app. left. exact Hin.
      * intros d v p Hin. apply in_app_or in Hin. destruct Hin as [Hin|[E|[]]];
          [exact (H3 d v p Hin) | discriminate].
    + intros k E. injection E as <-. exists f, outs. split; [exact Hf|]. split; [|reflexivity].
      simpl. rewrite Nat.eqb_refl. reflexivity.
  - destruct Hv as [H1 H2 H3]. constructor; simpl.
    + exact H1.
    + intros k outs Ha'. destruct (H2 k outs Ha') as (f' & args & Hf' & Hc' & Hin).
      exists f', args. split; [exact Hf'|]. split; [exact Hc'|].
      apply in_or_app. left. exact Hin.
    + intros d v p Hin. apply in_app_or in Hin. destruct Hin as [Hin|[E|[]]];
        [exact (H3 d v p Hin) | discriminate].
Qed.

Lemma run_vinv (fuel : nat) (st st' : @state V) :
  vinv st -> run none g raw req fuel st = Some st' -> vinv st'.
Proof.
  revert st. induction fuel as [|n IH]; intros st Hv H; simpl in H; [discriminate|].
  destruct (step none g raw req st) as [|s1] eqn:E; [inversion H; subst; exact Hv|].
  apply (IH s1); [|exact H]. apply (vinv_step st s1 Hv).
  apply (step_cases none g raw req st s1 E).
Qed.

Lemma final_vinv (st : @state V) : final_state none g raw req = Some st -> vinv st.
Proof.
  apply run_vinv. constructor; simpl.
  - intros d v c i [].
  - intros i outs H. discriminate.
  - intros d v p [].
Qed.

(** An invocation record is followed by a settlement from the same function
    of one of its outputs. *)
Lemma follows_invoke (wf : list (@event V)) (i : nat) (a o : list V) :
  follows g wf -> In (Invoke i a o) wf ->
  exists d v f, In (Settle d v (PFun i)) wf /\ nth_error (fun_nodes g) i = Some f /\
    In d (fn_outputs f).
Proof.
  induction wf as [|ev wf IH]; intros Hf Hin; [destruct Hin|].
  destruct Hin as [E|Hin].
  - subst ev. destruct Hf as [Hh _]. destruct wf as [|ev' wf']; [contradiction|].
    destruct ev' as [d v [| | |j]|? ? ?|?]; try contradiction.
    destruct Hh as (-> & f & Hf & Hd). exists d, v, f. split; [right; left; reflexivity|auto].
  - assert (Hr : follows g wf) by (destruct ev as [? ? ?|? ? ?|?]; simpl in Hf; tauto).
    destruct (IH Hr Hin) as (d & v & f & H1 & H2 & H3). exists d, v, f.
    split; [right; exact H1 | auto].
Qed.

Lemma assoc_solution (st : @state V) (d : id) :
  assoc d (solution st) =
  match assoc d (settled st) with Some (v, _, _) => Some v | None => None end.
Proof.
  unfold solution. induction (settled st) as [|[k [[v c] p]] r IH]; [reflexivity|].
  simpl. destruct (String.eqb d k); [reflexivity | exact IH].
Qed.

End Values.

(** ** The resolver's properties *)

Section Claims.

Context {V : Type} (none : V).

Lemma guard_false (st : @state V) (req : list id) :
  (req = [] \/ exists r, In r req /\ is_settled st r = false) ->
  negb (match req with [] => true | _ => false end) && forallb (is_settled st) req = false.
Proof.
  intros [->|(r & Hr & Hs)]; [reflexivity|].
  destruct req as [|r0 l]; [destruct Hr|]. simpl negb. cbn [andb].
  destruct (forallb (is_settled st) (r0 :: l)) eqn:E; [|reflexivity].
  rewrite forallb_forall in E. rewrite (E r Hr) in Hs. discriminate.
Qed.

Lemma final_of_dispatch (g : @graph V) (raw : list (id * V)) (req : list id) sol wf :
  dispatch none g raw req = Some (sol, wf) ->
  exists st, final_state none g raw req = Some st /\ sol = solution st /\ wf = workflow st.
Proof.
  unfold dispatch. destruct (final_state none g raw req) as [st|]; [|discriminate].
  intros H. inversion H; subst. exists st. auto.
Qed.

(** C6 (spec-modelled). A callable that raises (returns [None]) or returns the
    wrong number of values is caught: the step discards the function, records
    [Fail i] and the run goes on; [dispatch] always returns; in the final state
    a failed function is discarded, has no invocation record and settled none
    of its outputs, which stay open to other producers. *)
Theorem failure_absorbed (g : @graph V) (raw : list (id * V)) (req : list id) :
  (forall st e q i f,
     (req = [] \/ exists r, In r req /\ is_settled st r = false) ->
     pop_min (queue st) = Some (e, q) -> e_prov e = PFun i ->
     is_settled st (e_id e) = false -> nth_error (fun_nodes g) i = Some f ->
     is_discarded st i = false -> assoc_nat i (results st) = None ->
     fn_call f (map (value_of none st) (fn_inputs f)) = None ->
     step none g raw req st = Next (record_fail (set_queue st q) i)) /\
  (exists sol wf, dispatch none g raw req = Some (sol, wf)) /\
  (forall st, final_state none g raw req = Some st -> forall i, In (Fail i) (workflow st) ->
     In i (discarded st) /\ (forall a o, ~ In (Invoke i a o) (workflow st)) /\
     (forall d v c, ~ In (d, (v, c, PFun i)) (settled st))).
Proof.
  split; [|split].
  - intros st e q i f Hg Hp Hpi Hs Hf Hd Ha Hc. unfold step.
    rewrite (guard_false st req Hg), Hp.
    change (is_settled (set_queue st q) (e_id e)) with (is_settled st (e_id e)).
    rewrite Hs, Hpi, Hf.
    change (is_discarded (set_queue st q) i) with (is_discarded st i).
    change (results (set_queue st q)) with (results st).
    rewrite Hd, Ha.
    change (map (value_of none (set_queue st q)) (fn_inputs f))
      with (map (value_of none st) (fn_inputs f)).
    rewrite Hc. reflexivity.
  - destruct (dispatch_some none g raw req) as [[sol wf] H]. exists sol, wf. exact H.
  - intros st Hst i Hfail. destruct (final_inv none g raw req st Hst) as [Hi _].
    pose proof (inv_fail_wf g raw st Hi i Hfail) as Hd.
    split; [exact Hd|]. split.
    + intros a o Hin. apply (inv_res_disc g raw st Hi i); [|exact Hd].
      apply (inv_res_wf g raw st Hi). exists a, o. exact Hin.
    + intros d v c Hin. destruct (inv_s g raw st Hi d v c (PFun i) Hin)
        as (f & _ & _ & _ & _ & _ & Hr).
      apply (inv_res_disc g raw st Hi i Hr Hd).
Qed.

(** C5 (spec-modelled). A function whose [input_domain] is false on the raw
    inputs never appears in the workflow (no settlement from it, no invocation,
    no failure record), and one of its outputs that is not an input key, not
    [START], has no default and no other producer is absent from the solution. *)
Theorem domain_gating (g : @graph V) (raw : list (id * V)) (req : list id) (i : nat)
  (f : @fnode V) (p : list (id * V) -> bool) (st : @state V) :
  nth_error (fun_nodes g) i = Some f -> fn_domain f = Some p -> p raw = false ->
  final_state none g raw req = Some st ->
  (forall ev, In ev (workflow st) -> ev_fun ev <> Some i) /\
  (forall o, In o (fn_outputs f) ->
     (forall j f', nth_error (fun_nodes g) j = Some f' -> j <> i -> ~ In o (fn_outputs f')) ->
     ~ In o (map fst raw) -> o <> START ->
     (forall dn, In dn (data_nodes g) -> dn_id dn = o -> dn_default dn = None) ->
     ~ In o (map fst (solution st))).
Proof.
  intros Hf Hdom Hp Hst. destruct (final_inv none g raw req st Hst) as [Hi _].
  assert (Hel : eligible raw f = false) by (unfold eligible; rewrite Hdom; exact Hp).
  split.
  - intros ev Hev Hj. destruct (inv_wf_fun g raw st Hi ev i Hev Hj) as (f' & Hf' & He).
    rewrite Hf in Hf'. inversion Hf'; subst f'. congruence.
  - intros o Ho Honly Hraw Hstart Hdfl Hin. rewrite solution_ids in Hin.
    apply in_map_iff in Hin. destruct Hin as [[d [[v c] pr]] [Ed Hin]]. simpl in Ed. subst d.
    pose proof (inv_s g raw st Hi o v c pr Hin) as Hs. destruct pr as [| | |j]; simpl in Hs.
    + contradiction.
    + contradiction.
    + destruct Hs as (dn & Hdn & Hid & Hnn & _). apply Hnn, (Hdfl dn Hdn Hid).
    + destruct Hs as (f' & Hf' & Ho' & He' & _).
      destruct (Nat.eq_dec j i) as [->|Hne].
      * rewrite Hf in Hf'. inversion Hf'; subst f'. congruence.
      * apply (Honly j f' Hf' Hne Ho').
Qed.

(** C2 (spec-modelled). [dispatch] returns on every graph, cyclic ones
    included; and every settleable id (see [settleable]) that is requested,
    or every settleable id at all when nothing is requested, is in the
    solution. *)
Theorem dispatch_terminates_complete (g : @graph V) (raw : list (id * V)) (req : list id) :
  (exists sol wf, dispatch none g raw req = Some (sol, wf)) /\
  (forall sol wf, dispatch none g raw req = Some (sol, wf) ->
     forall o, settleable g raw o -> (req = [] \/ In o req) -> In o (map fst sol)).
Proof.
  split.
  - destruct (dispatch_some none g raw req) as [[sol wf] H]. exists sol, wf. exact H.
  - intros sol wf H o Hs Hreq. destruct (final_of_dispatch g raw req sol wf H)
      as (st & Hst & -> & _).
    destruct (final_inv none g raw req st Hst) as [Hi Hh].
    rewrite solution_ids. apply is_settled_In.
    destruct (step_halt none g raw req st Hh) as [[Hne Hall]|[Hq Hfd]].
    + destruct Hreq as [->|Hin]; [contradiction|].
      rewrite forallb_forall in Hall. apply Hall, Hin.
    + apply (settleable_settled g raw st o Hi Hq Hfd Hs).
Qed.

Lemma step_new_settlement (g : @graph V) (raw : list (id * V)) (st st' : @state V)
  (o : id) (v : V) (k : nat) (p : prov) :
  step_spec none g raw st st' -> In (o, (v, k, p)) (settled st') ->
  ~ In o (map fst (settled st)) ->
  (queue st = [] /\ p = PDefault) \/ exists q, pop_min (queue st) = Some (mk_entry k o p, q).
Proof.
  intros Hs Hin Hno.
  assert (Hold : In (o, (v, k, p)) (settled st) -> False)
    by (intros H; apply Hno; apply (in_map fst) in H; exact H).
  destruct Hs as [d w dn Hq Hdn Hid Hdv Hd Hst'
    | e q Hp Hwhy Hst' | e q w Hp Hpi Hd Ha Hst' | e q Hp Hpi Hd Hst'
    | e q i f outs Hp Hpi Hd Hf Hdi Ha Hst' | e q i f outs Hp Hpi Hd Hf Hdi Ha Hc Hl Hst'
    | e q i f Hp Hpi Hd Hf Hdi Ha Hc Hst'];
    try (subst st'; exfalso; apply Hold; exact Hin);
    destruct (settle_effects g raw _ _ _ _ _ st' Hst') as (Hset & _);
    rewrite Hset in Hin; destruct Hin as [E|Hin];
    try (exfalso; apply Hold; exact Hin); inversion E; subst.
  - left. auto.
  - right. exists q. destruct e. simpl in *. subst. exact Hp.
  - right. exists q. destruct e. simpl in *. subst. exact Hp.
  - right. exists q. destruct e. simpl in *. subst. exact Hp.
  - right. exists q. destruct e. simpl in *. subst. exact Hp.
Qed.

(** Without defaults, the heavier of two producers of [o] whose inputs end
    at the same maximal cost cannot be the one [o] is settled from, when the
    lighter one is eligible and its callable always returns. *)
Lemma heavier_excluded (g : @graph V) (raw : list (id * V)) (req : list id)
  (i j : nat) (A B : @fnode V) (o : id) (st : @state V) :
  (forall dn, In dn (data_nodes g) -> dn_default dn = None) ->
  nth_error (fun_nodes g) i = Some A -> nth_error (fun_nodes g) j = Some B ->
  In o (fn_outputs A) ->
  eligible raw A = true -> (forall args, callable_ok A args) ->
  fn_weight A < fn_weight B ->
  final_state none g raw req = Some st ->
  ready st A = true ->
  max_cost st (consumes A) = max_cost st (consumes B) ->
  forall v c, ~ In (o, (v, c, PFun j)) (settled st).
Proof.
  intros Hnd HA HB HoA HelA HcA Hw Hst HrA Hm v c Hin.
  destruct (final_inv none g raw req st Hst) as [Hi _].
  destruct (inv_s g raw st Hi o v c (PFun j) Hin) as (f & Hf & _ & _ & _ & Hc & _).
  rewrite HB in Hf. inversion Hf; subst f.
  assert (HdA : ~ In i (discarded st)).
  { intros H. destruct (inv_disc g raw st Hi i H) as (f' & Hf' & [He|(args & Hna)]);
      rewrite HA in Hf'; inversion Hf'; subst f'; [congruence | exact (Hna (HcA args))]. }
  pose proof (final_optimal none g raw req Hnd st Hst o v c (PFun j) Hin i A HA HoA HelA HrA HdA)
    as Hle.
  unfold candidate_cost in Hc, Hle. lia.
Qed.

(** C1 (spec-modelled). In a graph without default values, let [A] and [B]
    be the only producers of [o], which is requested (or nothing is) and is
    neither an input key nor [START]; let [A] be eligible with a callable
    that always returns one value per output, and [weight A < weight B]. If
    at the end of the run the inputs of both are settled with the same
    maximal cost, then [o] is settled from [A]: the solution maps [o] to
    [A]'s result for it, the workflow records that invocation of [A], it has
    no settlement of [o] from [B], and any invocation of [B] settles another
    of [B]'s outputs. *)
Theorem weight_preference (g : @graph V) (raw : list (id * V)) (req : list id)
  (i j : nat) (A B : @fnode V) (o : id) (st : @state V) :
  (forall dn, In dn (data_nodes g) -> dn_default dn = None) ->
  nth_error (fun_nodes g) i = Some A -> nth_error (fun_nodes g) j = Some B ->
  In o (fn_outputs A) -> In o (fn_outputs B) ->
  (forall k f, nth_error (fun_nodes g) k = Some f -> In o (fn_outputs f) -> k = i \/ k = j) ->
  ~ In o (map fst raw) -> o <> START -> (req = [] \/ In o req) ->
  eligible raw A = true -> (forall args, callable_ok A args) ->
  fn_weight A < fn_weight B ->
  final_state none g raw req = Some st ->
  ready st A = true -> ready st B = true ->
  max_cost st (consumes A) = max_cost st (consumes B) ->
  (exists args outs, fn_call A args = Some outs /\ In (Invoke i args outs) (workflow st) /\
     assoc o (solution st) = Some (output_value none A outs o)) /\
  (forall v, ~ In (Settle o v (PFun j)) (workflow st)) /\
  (forall a r, In (Invoke j a r) (workflow st) ->
     exists d v, d <> o /\ In d (fn_outputs B) /\ In (Settle d v (PFun j)) (workflow st)).
Proof.
  intros Hnd HA HB HoA HoB Honly Hraw Hstart Hreq HelA HcA Hw Hst HrA HrB Hm.
  destruct (final_inv none g raw req st Hst) as [Hi Hh].
  pose proof (final_vinv none g raw req st Hst) as Hv.
  pose proof (heavier_excluded g raw req i j A B o st Hnd HA HB HoA HelA HcA Hw Hst HrA Hm)
    as Hheavy.
  assert (HnoB : forall v, ~ In (Settle o v (PFun j)) (workflow st)).
  { intros v Hin. destruct (vi_wf none g st Hv o v (PFun j) Hin) as [c Hc].
    exact (Hheavy v c Hc). }
  split; [|split; [exact HnoB|]].
  - assert (HdA : ~ In i (discarded st)).
    { intros H. destruct (inv_disc g raw st Hi i H) as (f' & Hf' & [He|(args & Hna)]);
        rewrite HA in Hf'; inversion Hf'; subst f'; [congruence | exact (Hna (HcA args))]. }
    assert (Hset : is_settled st o = true).
    { destruct (inv_pending g raw st Hi i A HA HrA HdA o HoA) as [H|H]; [exact H|].
      destruct (step_halt none g raw req st Hh) as [[Hne Hall]|[Hq _]].
      - destruct Hreq as [->|Hin]; [contradiction|].
        rewrite forallb_forall in Hall. exact (Hall o Hin).
      - rewrite Hq in H. destruct H. }
    unfold is_settled in Hset.
    destruct (assoc o (settled st)) as [[[v c] p]|] eqn:Ea; [|discriminate].
    pose proof (assoc_In _ _ _ Ea) as Hin.
    pose proof (inv_s g raw st Hi o v c p Hin) as Hs. destruct p as [| | |k]; simpl in Hs.
    + contradiction.
    + contradiction.
    + destruct Hs as (dn & Hdn & _ & Hnn & _). exact (False_ind _ (Hnn (Hnd dn Hdn))).
    + destruct Hs as (f & Hf & Hof & _).
      destruct (Honly k f Hf Hof) as [-> | ->]; [|exact (False_ind _ (Hheavy v c Hin))].
      destruct (vi_settled none g st Hv o v c i Hin) as (f' & outs & Hf' & Hr & ->).
      rewrite HA in Hf'. injection Hf' as <-.
      destruct (vi_results none g st Hv i outs Hr) as (f'' & args & Hf'' & Hc & Hinv).
      rewrite HA in Hf''. injection Hf'' as <-.
      exists args, outs. split; [exact Hc|]. split; [exact Hinv|].
      rewrite assoc_solution, Ea. reflexivity.
  - intros a r Hinv.
    destruct (follows_invoke g (workflow st) j a r (inv_follows g raw st Hi) Hinv)
      as (d & v & f & Hs & Hf & Hd).
    rewrite HB in Hf. injection Hf as <-. exists d, v. split; [|auto].
    intros ->. exact (HnoB v Hs).
Qed.

(** C3 (spec-modelled). [dispatch] is a function of the graph, the inputs and
    the requested ids; and the registration order breaks ties only among
    entries pending together: when a step settles [o] from function [j] at
    cost [k], every entry for [o] still pending from an earlier registered
    function [i < j] costs more than [k]. *)
Theorem dispatch_deterministic_tiebreak (g : @graph V) (raw : list (id * V)) (req : list id) :
  (forall r1 r2, dispatch none g raw req = Some r1 -> dispatch none g raw req = Some r2 ->
     r1 = r2) /\
  (forall st st', step none g raw req st = Next st' ->
   forall o v k j, ~ In o (map fst (settled st)) -> In (o, (v, k, PFun j)) (settled st') ->
   forall c i, In (mk_entry c o (PFun i)) (queue st) -> i < j -> k < c).
Proof.
  split.
  - intros r1 r2 H1 H2. rewrite H1 in H2. inversion H2. reflexivity.
  - intros st st' Hstep o v k j Hno Hin c i Hq Hij.
    destruct (step_new_settlement g raw st st' o v k (PFun j)
      (step_cases none g raw req st st' Hstep) Hin Hno) as [(_ & E)|(q & Hp)];
      [discriminate|].
    destruct (pop_min_some _ _ _ Hp) as [_ Hm]. pose proof (Hm _ Hq) as H.
    apply entry_lt_false in H. simpl in H. lia.
Qed.

(** The states a run passes through, from [init]. *)
Inductive reachable (g : @graph V) (raw : list (id * V)) (req : list id) : @state V -> Prop :=
| reach_init : reachable g raw req (init raw)
| reach_step (st st' : @state V) :
    reachable g raw req st -> step none g raw req st = Next st' -> reachable g raw req st'.

Lemma reachable_inv (g : @graph V) (raw : list (id * V)) (req : list id) (st : @state V) :
  reachable g raw req st -> inv g raw st.
Proof.
  induction 1 as [|st st' _ IH Hs]; [apply init_inv|].
  apply (step_inv none g raw st st' IH (step_cases none g raw req st st' Hs)).
Qed.

Lemma attempts_settle (wf : list (@event V)) (d : id) (v : V) (p : prov) :
  attempts (wf ++ [Settle d v p]) = attempts wf.
Proof. rewrite attempts_app. apply app_nil_r. Qed.

(** C4 (spec-modelled). In the workflow of a run, each function has at most
    one invocation or failure record. And a step of a run calls the callable
    of function [i] (it returns or raises) only when it pops from the queue
    an entry of [i] for one of [i]'s declared outputs that is not yet settled,
    and only if [i] was never called before: then the step either records the
    invocation and settles that output from [i] at once, or records the
    failure. No other step (settling an input, [START], a default, a cached
    result, or relaxing the consumers of a settled id) calls a callable. *)
Theorem invoke_once_lazy (g : @graph V) (raw : list (id * V)) (req : list id) :
  (forall st, final_state none g raw req = Some st -> NoDup (attempts (workflow st))) /\
  (forall st st' i, reachable g raw req st -> step none g raw req st = Next st' ->
     In i (attempts (workflow st')) -> ~ In i (attempts (workflow st)) ->
     exists e q f, pop_min (queue st) = Some (e, q) /\ e_prov e = PFun i /\
       nth_error (fun_nodes g) i = Some f /\ In (e_id e) (fn_outputs f) /\
       is_settled st (e_id e) = false /\
       ((exists outs, fn_call f (map (value_of none st) (fn_inputs f)) = Some outs /\
           workflow st' = workflow st ++
             [Invoke i (map (value_of none st) (fn_inputs f)) outs;
              Settle (e_id e) (output_value none f outs (e_id e)) (PFun i)]) \/
        (~ callable_ok f (map (value_of none st) (fn_inputs f)) /\
           workflow st' = workflow st ++ [Fail i]))).
Proof.
  split.
  - intros st Hst. destruct (final_inv none g raw req st Hst) as [Hi _].
    exact (inv_attempts g raw st Hi).
  - intros st st' i Hr Hs Hin Hnin. pose proof (reachable_inv g raw req st Hr) as Hi.
    destruct (step_cases none g raw req st st' Hs) as [d v dn Hq Hdn Hid Hdv Hd Hst'
      | e q Hp Hwhy Hst' | e q v Hp Hpi Hd Ha Hst' | e q Hp Hpi Hd Hst'
      | e q k f outs Hp Hpi Hd Hf Hdi Ha Hst' | e q k f outs Hp Hpi Hd Hf Hdi Ha Hc Hl Hst'
      | e q k f Hp Hpi Hd Hf Hdi Ha Hc Hst']; subst st';
      try (rewrite (proj2 (proj2 (settle_frame g raw _ _ _ _ _))), attempts_settle in Hin;
           exact (False_ind _ (Hnin Hin)));
      try exact (False_ind _ (Hnin Hin)).
    + assert (Hw : workflow (settle g raw (e_id e) (output_value none f outs (e_id e)) (e_cost e)
                    (PFun k) (record_invoke (set_queue st q) k
                       (map (value_of none st) (fn_inputs f)) outs)) =
                   workflow st ++ [Invoke k (map (value_of none st) (fn_inputs f)) outs;
                     Settle (e_id e) (output_value none f outs (e_id e)) (PFun k)]).
      { rewrite (proj2 (proj2 (settle_frame g raw _ _ _ _ _))). simpl.
        rewrite <- app_assoc. reflexivity. }
      rewrite Hw, attempts_app in Hin. apply in_app_or in Hin.
      destruct Hin as [Hin|[<-|[]]]; [exact (False_ind _ (Hnin Hin))|].
      pose proof (inv_q g raw st Hi e (proj1 (pop_in _ _ _ Hp))) as Hqe.
      unfold qprov_ok in Hqe. rewrite Hpi in Hqe. destruct Hqe as (f' & Hf' & Ho & _).
      rewrite Hf in Hf'. injection Hf' as <-.
      exists e, q, f. repeat split; try assumption. left. exists outs. auto.
    + simpl in Hin. rewrite attempts_app in Hin. apply in_app_or in Hin.
      destruct Hin as [Hin|[<-|[]]]; [exact (False_ind _ (Hnin Hin))|].
      pose proof (inv_q g raw st Hi e (proj1 (pop_in _ _ _ Hp))) as Hqe.
      unfold qprov_ok in Hqe. rewrite Hpi in Hqe. destruct Hqe as (f' & Hf' & Ho & _).
      rewrite Hf in Hf'. injection Hf' as <-.
      exists e, q, f. repeat split; try assumption. right. auto.
Qed.

End Claims.

(** ** Runs on concrete graphs *)

Local Open Scope string_scope.

(** Weight preference on a graph where [A] and [B] both read the input [x]
    and [o] is requested. *)
Lemma weight_preference_witness :
  let A := mk_fnode "A" ["x"] ["o"] 1 None (fun _ : list nat => Some [100]) in
  let B := mk_fnode "B" ["x"] ["o"] 5 None (fun _ : list nat => Some [500]) in
  exists st, final_state 0 (mk_graph [] [A; B]) [("x", 3)] ["o"] = Some st /\
  ((exists args outs, fn_call A args = Some outs /\ In (Invoke 0 args outs) (workflow st) /\
      assoc "o" (solution st) = Some (output_value 0 A outs "o")) /\
   (forall v, ~ In (Settle "o" v (PFun 1)) (workflow st)) /\
   (forall a r, In (Invoke 1 a r) (workflow st) ->
      exists d v, d <> "o" /\ In d (fn_outputs B) /\ In (Settle d v (PFun 1)) (workflow st))).
Proof.
  intros A B. eexists. split; [reflexivity|].
  apply (weight_preference 0 (mk_graph [] [A; B]) [("x", 3)] ["o"] 0 1 A B "o");
    try reflexivity.
  - intros dn [].
  - left. reflexivity.
  - left. reflexivity.
  - intros k f Hk Ho. destruct k as [|[|k]]; [left; reflexivity | right; reflexivity |].
    destruct k; discriminate.
  - intros [H|[]]. discriminate.
  - discriminate.
  - right. left. reflexivity.
  - intros args. exists [100]. split; reflexivity.
  - simpl. lia.
Defined.

(** [A] (weight 1) reads [d], which has a default value; [B] (weight 5) reads
    the input [x]. Both inputs end at cost 0, both functions are eligible, yet
    [o] comes from [B] and [A] is never invoked: the default of [d] is only
    settled once the queue is empty, after [o]. *)
Example default_outranks_lighter :
  let A := mk_fnode "A" ["d"] ["o"] 1 None (fun _ : list nat => Some [100]) in
  let B := mk_fnode "B" ["x"] ["o"] 5 None (fun _ : list nat => Some [500]) in
  match final_state 0 (mk_graph [mk_dnode "d" (Some 7)] [A; B]) [("x", 3)] [] with
  | Some st =>
      eligible [("x", 3)] A = true /\ eligible [("x", 3)] B = true /\
      max_cost st (consumes A) = max_cost st (consumes B) /\
      assoc "o" (settled st) = Some (500, 5, PFun 1) /\
      (exists a r, In (Invoke 1 a r) (workflow st)) /\
      ~ (exists a r, In (Invoke 0 a r) (workflow st))
  | None => False
  end.
Proof.
  vm_compute. split; [reflexivity|]. split; [reflexivity|]. split; [reflexivity|].
  split; [reflexivity|]. split.
  - eexists _, _. right. right. left. reflexivity.
  - intros (a & r & H). repeat (destruct H as [H|H]; [discriminate|]). destruct H.
Qed.

(** The only producer of the requested [o] is eligible and reads the input
    [x], the graph has no cycle, but its callable raises: [o] is absent. *)
Example dispatch_failing_producer :
  eligible [("x", 1)] (mk_fnode "f" ["x"] ["o"] 0 None (fun _ : list nat => None)) = true /\
  In "x" (map fst [("x", 1)]) /\
  match dispatch 0 (mk_graph [] [mk_fnode "f" ["x"] ["o"] 0 None (fun _ => None)])
          [("x", 1)] ["o"] with
  | Some (sol, _) => ~ In "o" (map fst sol)
  | None => False
  end.
Proof. split; [reflexivity|]. split; [left; reflexivity|]. vm_compute. intuition discriminate. Qed.

(** [A] (registered first) and [B] can both produce [o] at cost 1, but [x]
    is settled after [B]'s entry for [o] is popped, so [B] wins the tie. *)
Example tie_later_producer_wins :
  let A := mk_fnode "A" ["x"] ["o"] 0 None (fun _ : list nat => Some [10]) in
  let B := mk_fnode "B" ["y"] ["o"] 1 None (fun _ : list nat => Some [20]) in
  let G := mk_fnode "g" ["z"] ["x"] 1 None (fun _ : list nat => Some [5]) in
  match final_state 0 (mk_graph [] [A; B; G]) [("y", 1); ("z", 2)] [] with
  | Some st =>
      assoc "o" (settled st) = Some (20, 1, PFun 1) /\
      candidate_cost st A = 1 /\ candidate_cost st B = 1 /\ ready st A = true
  | None => False
  end.
Proof. vm_compute. repeat split. Qed.

Lemma invoke_once_lazy_witness :
  let f := mk_fnode "f" ["a"] ["b"] 0 None (fun _ : list nat => Some [1]) in
  let g := mk_graph [] [f] in
  exists st st', reachable 0 g [("a", 3)] ["b"] st /\ step 0 g [("a", 3)] ["b"] st = Next st' /\
    In 0 (attempts (workflow st')) /\ ~ In 0 (attempts (workflow st)) /\
    exists e q, pop_min (queue st) = Some (e, q) /\ e_prov e = PFun 0 /\ In (e_id e) (fn_outputs f).
Proof.
  intros f g. eexists. eexists.
  split; [eapply reach_step; [eapply reach_step; [apply reach_init | reflexivity] | reflexivity]|].
  split; [reflexivity|].
  match goal with |- In 0 (attempts (workflow ?s')) /\ ~ In 0 (attempts (workflow ?s)) /\ _ =>
    assert (Hr : reachable 0 g [("a", 3)] ["b"] s)
      by (eapply reach_step; [eapply reach_step; [apply reach_init | reflexivity] | reflexivity]);
    assert (Hs : step 0 g [("a", 3)] ["b"] s = Next s') by reflexivity;
    assert (Hin : In 0 (attempts (workflow s'))) by (vm_compute; left; reflexivity);
    assert (Hnin : ~ In 0 (attempts (workflow s))) by (vm_compute; intros []);
    split; [exact Hin|]; split; [exact Hnin|];
    destruct (proj2 (invoke_once_lazy 0 g [("a", 3)] ["b"]) s s' 0 Hr Hs Hin Hnin)
      as (e & q & f0 & Hp & Hpe & Hf0 & Ho & _)
  end.
  injection Hf0 as <-. exists e, q. auto.
Defined.

(** [b] is requested and comes from [h] at cost 5; [f] produces [q], which
    nothing reads and nobody requested, at cost 0, and is invoked first. *)
Example off_path_producer_invoked :
  let f := mk_fnode "f" ["a"] ["q"] 0 None (fun _ : list nat => Some [1]) in
  let h := mk_fnode "h" ["a"] ["b"] 5 None (fun _ : list nat => Some [2]) in
  match final_state 0 (mk_graph [] [f; h]) [("a", 3)] ["b"] with
  | Some st =>
      (exists a r, In (Invoke 0 a r) (workflow st)) /\
      assoc "b" (settled st) = Some (2, 5, PFun 1)
  | None => False
  end.
Proof. vm_compute. split; [|reflexivity]. eexists _, _. right. right. left. reflexivity. Qed.

Lemma domain_gating_witness :
  let f := mk_fnode "f" ["x"] ["o"] 0 (Some (fun _ => false)) (fun _ : list nat => Some [2]) in
  let g := mk_graph [] [f] in
  exists st, final_state 0 g [("x", 1)] [] = Some st /\
  ((forall ev, In ev (workflow st) -> ev_fun ev <> Some 0) /\
   (forall o, In o (fn_outputs f) ->
     (forall j f', nth_error (fun_nodes g) j = Some f' -> j <> 0 -> ~ In o (fn_outputs f')) ->
     ~ In o (map fst [("x", 1)]) -> o <> START ->
     (forall dn, In dn (data_nodes g) -> dn_id dn = o -> dn_default dn = None) ->
     ~ In o (map fst (solution st)))).
Proof.
  intros f g. eexists. split; [reflexivity|].
  exact (domain_gating 0 g [("x", 1)] [] 0 f (fun _ => false) _ eq_refl eq_refl eq_refl eq_refl).
Defined.

End Dispatcher.

(** ** The dispatcher object seen by its callers *)

(** Modelled from the spec and from the callers in [dispatcher/draw.py]: the
    object keeps its map [dsp.dmap] and the last run's [dsp.workflow];
    [w, o = dsp.dispatch()] (draw.py, line 74) unpacks the workflow first and
    the outputs second, and [plot_dsp(dsp, workflow=True)] reads [dsp.workflow]
    afterwards (lines 82-87, and 200-205 for [plot_dsp_graphviz]). *)
Module DspObject.

Import Dispatcher.

Section Obj.

Context {V : Type} (none : V).

Record dsp_obj : Type := mk_dsp { dmap : @graph V; dsp_workflow : list (@event V) }.

(** The Python values returned by [dispatch]: a networkx [DiGraph] or a dict. *)
Inductive pyret : Type :=
| PyDiGraph (w : list (@event V))
| PyDict (m : list (id * V)).

(** [dsp.default_values]: the data nodes of the map that carry a default. *)
Definition default_values (dsp : dsp_obj) : list (id * V) :=
  flat_map (fun dn => match dn_default dn with Some v => [(dn_id dn, v)] | None => [] end)
    (data_nodes (dmap dsp)).

(** [dsp.dispatch(inputs, outputs)]: one resolver run on [dsp.dmap], its workflow
    stored on the object and returned first. *)
Definition dsp_dispatch (dsp : dsp_obj) (raw : list (id * V)) (req : list id)
  : dsp_obj * (pyret * pyret) :=
  match dispatch none (dmap dsp) raw req with
  | Some (sol, wf) => (mk_dsp (dmap dsp) wf, (PyDiGraph wf, PyDict sol))
  | None => (dsp, (PyDiGraph [], PyDict []))
  end.

(** The [workflow] argument of [plot_dsp]: a bool or a [DiGraph]. *)
Inductive wf_arg : Type :=
| WBool (b : bool)
| WGraph (w : list (@event V)).

(** Python truthiness: a graph is true when it has nodes. *)
Definition truthy (a : wf_arg) : bool :=
  match a with WBool b => b | WGraph w => match w with [] => false | _ => true end end.

Inductive plotted : Type :=
| PlotWorkflow (w : list (@event V))
| PlotMap (g : @graph V) (dfl : list (id * V)).

(** The graph [plot_dsp] and [plot_dsp_graphviz] draw:
    [if workflow: g = workflow if isinstance(workflow, DiGraph) else dsp.workflow]
    [else: g = dsp.dmap; dfl = dsp.default_values]. *)
Definition plot_source (dsp : dsp_obj) (workflow : wf_arg) : plotted :=
  if truthy workflow then
    PlotWorkflow (match workflow with WGraph w => w | WBool _ => dsp_workflow dsp end)
  else PlotMap (dmap dsp) (default_values dsp).

(** C7 (spec-modelled). [w, o = dsp.dispatch(...)] always returns, the
    workflow first and the solution second; the solution holds every settled
    id with its value and nothing else, so an unresolved requested id is simply
    absent. *)
Theorem dsp_dispatch_result (dsp : dsp_obj) (raw : list (id * V)) (req : list id) :
  exists st, final_state none (dmap dsp) raw req = Some st /\
    dsp_dispatch dsp raw req =
      (mk_dsp (dmap dsp) (workflow st), (PyDiGraph (workflow st), PyDict (solution st))) /\
    (forall d v c p, In (d, (v, c, p)) (settled st) -> In (d, v) (solution st)) /\
    (forall d, In d (map fst (solution st)) -> is_settled st d = true).
Proof.
  destruct (final_state_some none (dmap dsp) raw req) as [st Hst]. exists st.
  split; [exact Hst|]. split; [|split].
  - unfold dsp_dispatch, dispatch. rewrite Hst. reflexivity.
  - intros d v c p Hin. unfold solution. apply (in_map (fun s => (fst s, fst (fst (snd s))))) in Hin.
    exact Hin.
  - intros d Hin. rewrite solution_ids in Hin. apply is_settled_In. exact Hin.
Qed.

(** C8 (spec-modelled). A call leaves the map [dsp.dmap] unchanged and its
    result does not depend on the workflow a previous call left on the object
    (each run starts from [init]); the call stores its own workflow on
    [dsp.workflow], the same one it returns, and [plot_dsp(dsp, workflow=True)]
    then draws it. *)
Theorem dsp_dispatch_frame (dsp : dsp_obj) (raw : list (id * V)) (req : list id) :
  dmap (fst (dsp_dispatch dsp raw req)) = dmap dsp /\
  (forall wf0, dsp_dispatch (mk_dsp (dmap dsp) wf0) raw req = dsp_dispatch dsp raw req) /\
  (exists st, final_state none (dmap dsp) raw req = Some st /\
     dsp_workflow (fst (dsp_dispatch dsp raw req)) = workflow st) /\
  fst (snd (dsp_dispatch dsp raw req)) = PyDiGraph (dsp_workflow (fst (dsp_dispatch dsp raw req))) /\
  plot_source (fst (dsp_dispatch dsp raw req)) (WBool true) =
    PlotWorkflow (dsp_workflow (fst (dsp_dispatch dsp raw req))).
Proof.
  destruct (final_state_some none (dmap dsp) raw req) as [st Hst].
  assert (E : dsp_dispatch dsp raw req =
      (mk_dsp (dmap dsp) (workflow st), (PyDiGraph (workflow st), PyDict (solution st))))
    by (unfold dsp_dispatch, dispatch; rewrite Hst; reflexivity).
  rewrite E. split; [reflexivity|]. split; [|split; [|split]].
  - intros wf0. unfold dsp_dispatch, dispatch. cbn [dmap]. rewrite Hst. reflexivity.
  - exists st. auto.
  - reflexivity.
  - reflexivity.
Qed.

End Obj.

Local Open Scope string_scope.

(** The first component of [dsp.dispatch()] is the workflow graph, not the
    solution dict. *)
Example dispatch_returns_workflow_first :
  let g := mk_graph [] [mk_fnode "f" ["a"] ["b"] 0 None (fun _ : list nat => Some [4])] in
  ~ (exists m, fst (snd (dsp_dispatch 0 (mk_dsp g []) [("a", 3)] ["b"])) = PyDict m) /\
  (exists w, fst (snd (dsp_dispatch 0 (mk_dsp g []) [("a", 3)] ["b"])) = PyDiGraph w).
Proof. vm_compute. split; [intros (m & H); discriminate | eexists; reflexivity]. Qed.

(** After a call the run's workflow stays on the object, and
    [plot_dsp(dsp, workflow=True)] draws it. *)
Example workflow_kept_on_object :
  let g := mk_graph [] [mk_fnode "f" ["a"] ["b"] 0 None (fun _ : list nat => Some [4])] in
  dsp_workflow (fst (dsp_dispatch 0 (mk_dsp g []) [("a", 3)] ["b"])) <> [] /\
  plot_source (fst (dsp_dispatch 0 (mk_dsp g []) [("a", 3)] ["b"])) (WBool true) <>
    PlotWorkflow [].
Proof. vm_compute. split; discriminate. Qed.

End DspObject.

(** ** The cycle-branch predicates ([co2mpas/model/physical/cycle/__init__.py]) *)

Module Cycle.

(** A value of the [kwargs] dict: a Python [str] or any other object; a
    non-[str] compares unequal to a string literal. *)
Inductive pyval : Type :=
| PyStr (s : string)
| PyOther.

Definition py_eq_str (v : pyval) (s : string) : bool :=
  match v with PyStr s' => String.eqb s' s | PyOther => false end.

(** Python's [pat in s] on strings. *)
Fixpoint contains (pat s : string) : bool :=
  match s with
  | EmptyString => String.prefix pat s
  | String _ r => String.prefix pat s || contains pat r
  end.

(** [for k, v in kwargs.items(): if ':cycle_type' in k or 'cycle_type' == k:
    return v == 'NEDC'] then [return False]; [kwargs] in iteration order. *)
Fixpoint is_nedc (kwargs : list (string * pyval)) : bool :=
  match kwargs with
  | [] => false
  | (k, v) :: r =>
      if contains ":cycle_type" k || String.eqb "cycle_type" k then py_eq_str v "NEDC"
      else is_nedc r
  end.

Fixpoint is_wltp (kwargs : list (string * pyval)) : bool :=
  match kwargs with
  | [] => false
  | (k, v) :: r =>
      if contains ":cycle_type" k || String.eqb "cycle_type" k then py_eq_str v "WLTP"
      else is_wltp r
  end.

Lemma py_eq_str_exclusive (v : pyval) :
  py_eq_str v "NEDC" = true -> py_eq_str v "WLTP" = true -> False.
Proof.
  destruct v as [s|]; cbn [py_eq_str]; [|discriminate].
  intros H1 H2. apply String.eqb_eq in H1, H2. subst. discriminate.
Qed.

(** C9. [is_nedc] and [is_wltp] are never both true: both return on the same
    first key that names a cycle type, comparing its value with two different
    literals. *)
Theorem nedc_wltp_exclusive (kwargs : list (string * pyval)) :
  ~ (is_nedc kwargs = true /\ is_wltp kwargs = true).
Proof.
  induction kwargs as [|[k v] r IH]; cbn [is_nedc is_wltp]; [intros [H _]; discriminate|].
  destruct (contains ":cycle_type" k || String.eqb "cycle_type" k).
  - intros [H1 H2]. exact (py_eq_str_exclusive v H1 H2).
  - exact IH.
Qed.

(** A key the loop stops at: one containing [':cycle_type'], or
    ['cycle_type'] itself. *)
Definition cycle_key (k : string) : Prop :=
  (exists p q, k = (p ++ ":cycle_type" ++ q)%string) \/ k = "cycle_type"%string.

Lemma prefix_app (pat q : string) : String.prefix pat (pat ++ q) = true.
Proof.
  induction pat as [|c r IH]; [destruct q; reflexivity|].
  cbn. destruct (Ascii.ascii_dec c c); [exact IH|contradiction].
Qed.

Lemma prefix_sound (pat : string) : forall s, String.prefix pat s = true -> exists q, s = (pat ++ q)%string.
Proof.
  induction pat as [|c r IH]; intros s H; [exists s; reflexivity|].
  destruct s as [|d s]; [discriminate|]. cbn in H.
  destruct (Ascii.ascii_dec c d) as [->|]; [|discriminate].
  destruct (IH s H) as [q ->]. exists q. reflexivity.
Qed.

Lemma contains_prefix (pat s : string) : String.prefix pat s = true -> contains pat s = true.
Proof. destruct s; cbn [contains]; intros H; rewrite H; reflexivity. Qed.

Lemma contains_app (pat p q : string) : contains pat (p ++ pat ++ q) = true.
Proof.
  induction p as [|c p IH].
  - exact (contains_prefix _ _ (prefix_app pat q)).
  - cbn [append contains]. rewrite IH, orb_true_r. reflexivity.
Qed.

Lemma contains_sound (pat s : string) : contains pat s = true -> exists p q, s = (p ++ pat ++ q)%string.
Proof.
  induction s as [|c r IH]; cbn [contains]; intros H.
  - destruct (prefix_sound pat _ H) as [q Hq]. exists EmptyString, q. exact Hq.
  - apply orb_true_iff in H as [H|H].
    + destruct (prefix_sound pat _ H) as [q Hq]. exists EmptyString, q. exact Hq.
    + destruct (IH H) as (p & q & ->). exists (String c p), q. reflexivity.
Qed.

Lemma cycle_key_test (k : string) :
  (contains ":cycle_type" k || String.eqb "cycle_type" k) = true <-> cycle_key k.
Proof.
  unfold cycle_key. rewrite orb_true_iff, String.eqb_eq. split.
  - intros [H|H]; [left; exact (contains_sound _ _ H)|right; symmetry; exact H].
  - intros [(p & q & ->)| ->]; [left; apply contains_app|right; reflexivity].
Qed.

(** Both predicates look only at the first key of [kwargs] that contains
    [':cycle_type'] or equals ['cycle_type']: its value decides, whatever
    follows; when no key names a cycle type both are [False]. *)
Theorem cycle_type_first_key_decides :
  (forall kw1 k v kw2, (forall k' v', In (k', v') kw1 -> ~ cycle_key k') -> cycle_key k ->
     is_nedc (kw1 ++ (k, v) :: kw2) = py_eq_str v "NEDC" /\
     is_wltp (kw1 ++ (k, v) :: kw2) = py_eq_str v "WLTP") /\
  (forall kw, (forall k' v', In (k', v') kw -> ~ cycle_key k') ->
     is_nedc kw = false /\ is_wltp kw = false).
Proof.
  split.
  - intros kw1 k v kw2 H1 Hk. apply cycle_key_test in Hk.
    induction kw1 as [|[k1 v1] r IH]; cbn [app is_nedc is_wltp].
    + rewrite Hk. split; reflexivity.
    + assert (Hn : (contains ":cycle_type" k1 || String.eqb "cycle_type" k1) = false).
      { apply not_true_iff_false. intros H. apply cycle_key_test in H.
        exact (H1 k1 v1 (or_introl eq_refl) H). }
      rewrite Hn. apply IH. intros k' v' Hin. exact (H1 k' v' (or_intror Hin)).
  - induction kw as [|[k1 v1] r IH]; intros H; cbn [is_nedc is_wltp]; [split; reflexivity|].
    assert (Hn : (contains ":cycle_type" k1 || String.eqb "cycle_type" k1) = false).
    { apply not_true_iff_false. intros H'. apply cycle_key_test in H'.
      exact (H k1 v1 (or_introl eq_refl) H'). }
    rewrite Hn. apply IH. intros k' v' Hin. exact (H k' v' (or_intror Hin)).
Qed.

End Cycle.

(** ** The report generator ([co2mpas/sampling/report.py]) *)

Module Report.

(** [PFiles]: the input, output and other file paths. *)
Record PFiles : Type := mk_pfiles { inp : list string; out : list string; other : list string }.

(** A [vehicle_family_id] cell as pandas returns it: [None], a string or
    [NaN] (an empty cell read by [df.at]). *)
Inductive vfid : Type :=
| VNone
| VStr (s : string)
| VNaN.

(** Python's [a != b] on these values; [NaN] differs from everything. *)
Definition vfid_ne (a b : vfid) : bool :=
  match a, b with
  | VNone, VNone => false
  | VStr x, VStr y => negb (String.eqb x y)
  | _, _ => true
  end.

(** The formatted mismatch message: [fpath], [file_vfid] and the rest's
    [expected_vfid]. *)
Record mismatch_msg : Type := mk_msg {
  msg_fpath : string; msg_file_vfid : vfid; msg_expected : vfid }.

Section Gen.

(** A dice-report data frame and the errors the Excel extractors raise. *)
Variable DF XlError : Type.
(** [pndlu.convpath]. *)
Variable convpath : string -> string.
Variable extract_vfid_from_input : string -> XlError + vfid.
Variable extract_dice_report_from_output : string -> XlError + (vfid * DF).
(** [self.force]. *)
Variable force : bool.

Inductive exn : Type :=
| CmdException (m : mismatch_msg)
| ExtractError (e : XlError).

Inductive report : Type :=
| InputReport (vfid : vfid)
| DiceReport (df : DF)
| NoReport.

(** What a consumer of the generator observes, in order. *)
Inductive event : Type :=
| Yield (fpath : string) (iokind : string) (r : report)
| LogWarning (m : mismatch_msg).

(** [check_vfid_missmatch]: takes the current [expected_vfid] and returns the
    new one with the warnings logged, or the raised exception. *)
Definition check_vfid_missmatch (expected_vfid : vfid) (fpath : string)
    (file_vfid : vfid) : exn + (vfid * list event) :=
  match expected_vfid with
  | VNone => inr (file_vfid, [])
  | _ =>
      if vfid_ne expected_vfid file_vfid then
        let msg := mk_msg fpath file_vfid expected_vfid in
        if force then inr (expected_vfid, [LogWarning msg]) else inl (CmdException msg)
      else inr (expected_vfid, [])
  end.

(** [for fpath in iofiles.inp: ...]: the events, then either the exception
    that stopped the loop or the [expected_vfid] it ends with. *)
Fixpoint inp_loop (expected_vfid : vfid) (fs : list string)
    : list event * (exn + vfid) :=
  match fs with
  | [] => ([], inr expected_vfid)
  | f :: r =>
      let fpath := convpath f in
      match extract_vfid_from_input fpath with
      | inl e => ([], inl (ExtractError e))
      | inr file_vfid =>
          match check_vfid_missmatch expected_vfid fpath file_vfid with
          | inl x => ([], inl x)
          | inr (expected_vfid', ws) =>
              let '(evs, res) := inp_loop expected_vfid' r in
              (ws ++ Yield fpath "inp" (InputReport file_vfid) :: evs, res)
          end
      end
  end.

(** [for fpath in iofiles.out: ...]. *)
Fixpoint out_loop (expected_vfid : vfid) (fs : list string)
    : list event * (exn + vfid) :=
  match fs with
  | [] => ([], inr expected_vfid)
  | f :: r =>
      let fpath := convpath f in
      match extract_dice_report_from_output fpath with
      | inl e => ([], inl (ExtractError e))
      | inr (file_vfid, dice_report) =>
          match check_vfid_missmatch expected_vfid fpath file_vfid with
          | inl x => ([], inl x)
          | inr (expected_vfid', ws) =>
              let '(evs, res) := out_loop expected_vfid' r in
              (ws ++ Yield fpath "out" (DiceReport dice_report) :: evs, res)
          end
      end
  end.

(** [for fpath in iofiles.other: yield (fpath, 'other', None)]. *)
Definition other_loop (fs : list string) : list event :=
  map (fun f => Yield (convpath f) "other" NoReport) fs.

(** [yield_report_tuples_from_iofiles(iofiles, expected_vfid)]: the events
    and the exception, if any, that ends the generator. The body starts with
    [expected_vfid = None]. *)
Definition yield_report_tuples_from_iofiles (iofiles : PFiles)
    (expected_vfid : vfid) : list event * option exn :=
  let expected_vfid := VNone in
  let '(e1, r1) := inp_loop expected_vfid (inp iofiles) in
  match r1 with
  | inl x => (e1, Some x)
  | inr expected_vfid1 =>
      let '(e2, r2) := out_loop expected_vfid1 (out iofiles) in
      match r2 with
      | inl x => (e1 ++ e2, Some x)
      | inr _ => (e1 ++ e2 ++ other_loop (other iofiles), None)
      end
  end.

(** The [vehicle_family_id] extracted from each checked file, in order; an
    extraction that raises ends the run before any later check. *)
Definition inp_vfid (f : string) : vfid :=
  match extract_vfid_from_input (convpath f) with inr v => v | inl _ => VNone end.

Definition out_vfid (f : string) : vfid :=
  match extract_dice_report_from_output (convpath f) with inr (v, _) => v | inl _ => VNone end.

Definition checked_vfids (iofiles : PFiles) : list (string * vfid) :=
  map (fun f => (convpath f, inp_vfid f)) (inp iofiles)
  ++ map (fun f => (convpath f, out_vfid f)) (out iofiles).

(** The reference after a sequence of checks starting from [expected_vfid]:
    it stays [None] until a file yields an id, and then never changes. *)
Definition ref_after (expected_vfid : vfid) (l : list (vfid)) : vfid :=
  fold_left (fun acc v => match acc with VNone => v | _ => acc end) l expected_vfid.

Definition ref_step (acc v : vfid) : vfid := match acc with VNone => v | _ => acc end.

Lemma ref_after_cons (e v : vfid) (l : list vfid) :
  ref_after e (v :: l) = ref_after (ref_step e v) l.
Proof. reflexivity. Qed.

Lemma check_ok (e : vfid) (fp : string) (v e' : vfid) (ws : list event) :
  check_vfid_missmatch e fp v = inr (e', ws) -> e' = ref_step e v.
Proof.
  unfold check_vfid_missmatch, ref_step.
  destruct e; [intros H; injection H; auto| |];
    destruct (vfid_ne _ v); try destruct force; intros H; try discriminate;
    injection H; auto.
Qed.

Lemma check_err (e : vfid) (fp : string) (v : vfid) (x : exn) :
  check_vfid_missmatch e fp v = inl x ->
  x = CmdException (mk_msg fp v e) /\ e <> VNone /\ vfid_ne e v = true /\ force = false.
Proof.
  unfold check_vfid_missmatch.
  destruct e; [discriminate| |];
    destruct (vfid_ne _ v) eqn:Hn; destruct force eqn:Hf; intros H; try discriminate;
    injection H as <-; repeat split; auto; discriminate.
Qed.

Lemma inp_loop_ok (fs : list string) (e e' : vfid) (evs : list event) :
  inp_loop e fs = (evs, inr e') -> e' = ref_after e (map inp_vfid fs).
Proof.
  revert e evs. induction fs as [|f r IH]; intros e evs H.
  - injection H as _ ->. reflexivity.
  - cbn [inp_loop] in H. unfold inp_vfid at 1. cbn [map]. rewrite ref_after_cons.
    destruct (extract_vfid_from_input (convpath f)) as [xe|v]; [discriminate|].
    destruct (check_vfid_missmatch e (convpath f) v) as [x|[e1 ws]] eqn:C; [discriminate|].
    destruct (inp_loop e1 r) as [evs1 res1] eqn:R. injection H as _ ->.
    rewrite <- (check_ok _ _ _ _ _ C). exact (IH e1 evs1 R).
Qed.

Lemma out_loop_ok (fs : list string) (e e' : vfid) (evs : list event) :
  out_loop e fs = (evs, inr e') -> e' = ref_after e (map out_vfid fs).
Proof.
  revert e evs. induction fs as [|f r IH]; intros e evs H.
  - injection H as _ ->. reflexivity.
  - cbn [out_loop] in H. unfold out_vfid at 1. cbn [map]. rewrite ref_after_cons.
    destruct (extract_dice_report_from_output (convpath f)) as [xe|[v d]]; [discriminate|].
    destruct (check_vfid_missmatch e (convpath f) v) as [x|[e1 ws]] eqn:C; [discriminate|].
    destruct (out_loop e1 r) as [evs1 res1] eqn:R. injection H as _ ->.
    rewrite <- (check_ok _ _ _ _ _ C). exact (IH e1 evs1 R).
Qed.

(** The conclusion shared by the mismatch lemmas: the file [m] names is
    checked after [pre], against the reference [pre] leaves. *)
Definition mismatch_at (e : vfid) (l : list (string * vfid)) (m : mismatch_msg) : Prop :=
  exists pre post, l = pre ++ (msg_fpath m, msg_file_vfid m) :: post /\
    msg_expected m = ref_after e (map snd pre) /\ msg_expected m <> VNone /\
    vfid_ne (msg_expected m) (msg_file_vfid m) = true.

Lemma mismatch_at_cons (e : vfid) (p : string * vfid) (l : list (string * vfid)) (m : mismatch_msg) :
  mismatch_at (ref_step e (snd p)) l m -> mismatch_at e (p :: l) m.
Proof.
  intros (pre & post & Hl & Hr & Hn & Hne).
  exists (p :: pre), post. subst l. repeat split; auto.
Qed.

Lemma mismatch_at_head (e : vfid) (fp : string) (v : vfid) (l : list (string * vfid)) :
  e <> VNone -> vfid_ne e v = true -> mismatch_at e ((fp, v) :: l) (mk_msg fp v e).
Proof. intros Hn Hne. exists [], l. repeat split; auto. Qed.

Lemma inp_loop_mismatch (fs : list string) (e : vfid) (evs : list event) (m : mismatch_msg) :
  inp_loop e fs = (evs, inl (CmdException m)) ->
  mismatch_at e (map (fun f => (convpath f, inp_vfid f)) fs) m.
Proof.
  revert e evs. induction fs as [|f r IH]; intros e evs H; [discriminate|].
  cbn [inp_loop] in H. cbn [map]. unfold inp_vfid at 1.
  destruct (extract_vfid_from_input (convpath f)) as [xe|v]; [discriminate|].
  destruct (check_vfid_missmatch e (convpath f) v) as [x|[e1 ws]] eqn:C.
  - injection H as _ Hx. subst x.
    destruct (check_err _ _ _ _ C) as (Hm & Hn & Hne & _). injection Hm as ->.
    exact (mismatch_at_head _ _ _ _ Hn Hne).
  - destruct (inp_loop e1 r) as [evs1 res1] eqn:R. injection H as _ ->.
    apply mismatch_at_cons. cbn [snd]. rewrite <- (check_ok _ _ _ _ _ C).
    exact (IH e1 evs1 R).
Qed.

Lemma out_loop_mismatch (fs : list string) (e : vfid) (evs : list event) (m : mismatch_msg) :
  out_loop e fs = (evs, inl (CmdException m)) ->
  mismatch_at e (map (fun f => (convpath f, out_vfid f)) fs) m.
Proof.
  revert e evs. induction fs as [|f r IH]; intros e evs H; [discriminate|].
  cbn [out_loop] in H. cbn [map]. unfold out_vfid at 1.
  destruct (extract_dice_report_from_output (convpath f)) as [xe|[v d]]; [discriminate|].
  destruct (check_vfid_missmatch e (convpath f) v) as [x|[e1 ws]] eqn:C.
  - injection H as _ Hx. subst x.
    destruct (check_err _ _ _ _ C) as (Hm & Hn & Hne & _). injection Hm as ->.
    exact (mismatch_at_head _ _ _ _ Hn Hne).
  - destruct (out_loop e1 r) as [evs1 res1] eqn:R. injection H as _ ->.
    apply mismatch_at_cons. cbn [snd]. rewrite <- (check_ok _ _ _ _ _ C).
    exact (IH e1 evs1 R).
Qed.

Lemma mismatch_at_app (e : vfid) (l1 l2 : list (string * vfid)) (m : mismatch_msg) :
  mismatch_at (ref_after e (map snd l1)) l2 m -> mismatch_at e (l1 ++ l2) m.
Proof.
  revert e. induction l1 as [|p l1 IH]; intros e H; [exact H|].
  cbn [app]. apply mismatch_at_cons. apply IH. exact H.
Qed.

Lemma mismatch_at_prefix (e : vfid) (l1 l2 : list (string * vfid)) (m : mismatch_msg) :
  mismatch_at e l1 m -> mismatch_at e (l1 ++ l2) m.
Proof.
  intros (pre & post & Hl & Hr & Hn & Hne). exists pre, (post ++ l2).
  subst l1. rewrite <- app_assoc. repeat split; auto.
Qed.

Lemma map_snd_pairs (g : string -> vfid) (fs : list string) :
  map snd (map (fun f => (convpath f, g f)) fs) = map g fs.
Proof. rewrite map_map. reflexivity. Qed.



(** The [(fpath, iokind)] of each tuple yielded, in order. *)
Definition yielded (evs : list event) : list (string * string) :=
  flat_map (fun ev => match ev with Yield fp k _ => [(fp, k)] | LogWarning _ => [] end) evs.

(** The input and output files tagged as the generator yields them. *)
Definition tagged_files (iofiles : PFiles) : list (string * string) :=
  map (fun f => (convpath f, "inp"%string)) (inp iofiles)
  ++ map (fun f => (convpath f, "out"%string)) (out iofiles).

(** Every input and output file can be read by its extractor. *)
Definition extractions_ok (iofiles : PFiles) : Prop :=
  (forall f, In f (inp iofiles) -> exists v, extract_vfid_from_input (convpath f) = inr v) /\
  (forall f, In f (out iofiles) ->
     exists v d, extract_dice_report_from_output (convpath f) = inr (v, d)).

Lemma yielded_app (l1 l2 : list event) : yielded (l1 ++ l2) = yielded l1 ++ yielded l2.
Proof. unfold yielded. apply flat_map_app. Qed.

Lemma check_ws (e : vfid) (fp : string) (v e' : vfid) (ws : list event) :
  check_vfid_missmatch e fp v = inr (e', ws) ->
  yielded ws = [] /\ (force = false -> ws = []).
Proof.
  unfold check_vfid_missmatch.
  destruct e; [intros H; injection H as _ <-; auto| |];
    destruct (vfid_ne _ v); destruct force; intros H; try discriminate;
    injection H as _ <-; split; try reflexivity; discriminate.
Qed.

Lemma inp_loop_yields (fs : list string) : forall (e e' : vfid) (evs : list event),
  inp_loop e fs = (evs, inr e') -> yielded evs = map (fun f => (convpath f, "inp"%string)) fs.
Proof.
  induction fs as [|f r IH]; intros e e' evs H.
  - injection H as <- _. reflexivity.
  - cbn [inp_loop] in H.
    destruct (extract_vfid_from_input (convpath f)) as [xe|v]; [discriminate|].
    destruct (check_vfid_missmatch e (convpath f) v) as [x|[e1 ws]] eqn:C; [discriminate|].
    destruct (inp_loop e1 r) as [evs1 res1] eqn:R. injection H as <- ->.
    rewrite yielded_app, (proj1 (check_ws _ _ _ _ _ C)). cbn. f_equal. exact (IH _ _ _ R).
Qed.

Lemma out_loop_yields (fs : list string) : forall (e e' : vfid) (evs : list event),
  out_loop e fs = (evs, inr e') -> yielded evs = map (fun f => (convpath f, "out"%string)) fs.
Proof.
  induction fs as [|f r IH]; intros e e' evs H.
  - injection H as <- _. reflexivity.
  - cbn [out_loop] in H.
    destruct (extract_dice_report_from_output (convpath f)) as [xe|[v d]]; [discriminate|].
    destruct (check_vfid_missmatch e (convpath f) v) as [x|[e1 ws]] eqn:C; [discriminate|].
    destruct (out_loop e1 r) as [evs1 res1] eqn:R. injection H as <- ->.
    rewrite yielded_app, (proj1 (check_ws _ _ _ _ _ C)). cbn. f_equal. exact (IH _ _ _ R).
Qed.

Lemma inp_loop_fail_yields (fs : list string) : forall (e : vfid) (evs : list event) (x : exn),
  inp_loop e fs = (evs, inl x) ->
  exists k post, map (fun f => (convpath f, "inp"%string)) fs = yielded evs ++ k :: post.
Proof.
  induction fs as [|f r IH]; intros e evs x H; [discriminate|].
  cbn [inp_loop] in H. cbn [map].
  destruct (extract_vfid_from_input (convpath f)) as [xe|v].
  { injection H as <- _. exists (convpath f, "inp"%string), (map (fun f => (convpath f, "inp"%string)) r).
    reflexivity. }
  destruct (check_vfid_missmatch e (convpath f) v) as [x'|[e1 ws]] eqn:C.
  { injection H as <- _. exists (convpath f, "inp"%string), (map (fun f => (convpath f, "inp"%string)) r).
    reflexivity. }
  destruct (inp_loop e1 r) as [evs1 res1] eqn:R. injection H as <- ->.
  destruct (IH _ _ _ R) as (k & post & Hk). exists k, post.
  rewrite yielded_app, (proj1 (check_ws _ _ _ _ _ C)). cbn. rewrite Hk. reflexivity.
Qed.

Lemma out_loop_fail_yields (fs : list string) : forall (e : vfid) (evs : list event) (x : exn),
  out_loop e fs = (evs, inl x) ->
  exists k post, map (fun f => (convpath f, "out"%string)) fs = yielded evs ++ k :: post.
Proof.
  induction fs as [|f r IH]; intros e evs x H; [discriminate|].
  cbn [out_loop] in H. cbn [map].
  destruct (extract_dice_report_from_output (convpath f)) as [xe|[v d]].
  { injection H as <- _. exists (convpath f, "out"%string), (map (fun f => (convpath f, "out"%string)) r).
    reflexivity. }
  destruct (check_vfid_missmatch e (convpath f) v) as [x'|[e1 ws]] eqn:C.
  { injection H as <- _. exists (convpath f, "out"%string), (map (fun f => (convpath f, "out"%string)) r).
    reflexivity. }
  destruct (out_loop e1 r) as [evs1 res1] eqn:R. injection H as <- ->.
  destruct (IH _ _ _ R) as (k & post & Hk). exists k, post.
  rewrite yielded_app, (proj1 (check_ws _ _ _ _ _ C)). cbn. rewrite Hk. reflexivity.
Qed.

Lemma inp_loop_no_warning (fs : list string) : force = false -> forall (e : vfid) evs res m,
  inp_loop e fs = (evs, res) -> ~ In (LogWarning m) evs.
Proof.
  intros Hf. induction fs as [|f r IH]; intros e evs res m H.
  - injection H as <- _. simpl. auto.
  - cbn [inp_loop] in H.
    destruct (extract_vfid_from_input (convpath f)) as [xe|v]; [injection H as <- _; simpl; auto|].
    destruct (check_vfid_missmatch e (convpath f) v) as [x|[e1 ws]] eqn:C; [injection H as <- _; simpl; auto|].
    destruct (inp_loop e1 r) as [evs1 res1] eqn:R. injection H as <- _.
    rewrite (proj2 (check_ws _ _ _ _ _ C) Hf). intros [Hm|Hm]; [discriminate|exact (IH _ _ _ _ R Hm)].
Qed.

Lemma out_loop_no_warning (fs : list string) : force = false -> forall (e : vfid) evs res m,
  out_loop e fs = (evs, res) -> ~ In (LogWarning m) evs.
Proof.
  intros Hf. induction fs as [|f r IH]; intros e evs res m H.
  - injection H as <- _. simpl. auto.
  - cbn [out_loop] in H.
    destruct (extract_dice_report_from_output (convpath f)) as [xe|[v d]]; [injection H as <- _; simpl; auto|].
    destruct (check_vfid_missmatch e (convpath f) v) as [x|[e1 ws]] eqn:C; [injection H as <- _; simpl; auto|].
    destruct (out_loop e1 r) as [evs1 res1] eqn:R. injection H as <- _.
    rewrite (proj2 (check_ws _ _ _ _ _ C) Hf). intros [Hm|Hm]; [discriminate|exact (IH _ _ _ _ R Hm)].
Qed.

Lemma inp_loop_no_cmd (fs : list string) : force = true -> forall (e : vfid) evs m,
  inp_loop e fs <> (evs, inl (CmdException m)).
Proof.
  intros Hf. induction fs as [|f r IH]; intros e evs m H; [discriminate|].
  cbn [inp_loop] in H.
  destruct (extract_vfid_from_input (convpath f)) as [xe|v]; [discriminate|].
  destruct (check_vfid_missmatch e (convpath f) v) as [x|[e1 ws]] eqn:C.
  - destruct (check_err _ _ _ _ C) as (_ & _ & _ & Hf'). congruence.
  - destruct (inp_loop e1 r) as [evs1 res1] eqn:R. injection H as _ Hr. subst res1.
    exact (IH _ _ _ R).
Qed.

Lemma out_loop_no_cmd (fs : list string) : force = true -> forall (e : vfid) evs m,
  out_loop e fs <> (evs, inl (CmdException m)).
Proof.
  intros Hf. induction fs as [|f r IH]; intros e evs m H; [discriminate|].
  cbn [out_loop] in H.
  destruct (extract_dice_report_from_output (convpath f)) as [xe|[v d]]; [discriminate|].
  destruct (check_vfid_missmatch e (convpath f) v) as [x|[e1 ws]] eqn:C.
  - destruct (check_err _ _ _ _ C) as (_ & _ & _ & Hf'). congruence.
  - destruct (out_loop e1 r) as [evs1 res1] eqn:R. injection H as _ Hr. subst res1.
    exact (IH _ _ _ R).
Qed.

Lemma inp_loop_no_extract_error (fs : list string) :
  (forall f, In f fs -> exists v, extract_vfid_from_input (convpath f) = inr v) ->
  forall (e : vfid) evs xe, inp_loop e fs <> (evs, inl (ExtractError xe)).
Proof.
  induction fs as [|f r IH]; intros Hx e evs xe H; [discriminate|].
  cbn [inp_loop] in H. destruct (Hx f (or_introl eq_refl)) as [v Hv]. rewrite Hv in H.
  destruct (check_vfid_missmatch e (convpath f) v) as [x|[e1 ws]] eqn:C.
  - destruct (check_err _ _ _ _ C) as (Hm & _). injection H as _ Hx'. congruence.
  - destruct (inp_loop e1 r) as [evs1 res1] eqn:R. injection H as _ Hr. subst res1.
    exact (IH (fun f' Hf' => Hx f' (or_intror Hf')) _ _ _ R).
Qed.

Lemma out_loop_no_extract_error (fs : list string) :
  (forall f, In f fs -> exists v d, extract_dice_report_from_output (convpath f) = inr (v, d)) ->
  forall (e : vfid) evs xe, out_loop e fs <> (evs, inl (ExtractError xe)).
Proof.
  induction fs as [|f r IH]; intros Hx e evs xe H; [discriminate|].
  cbn [out_loop] in H. destruct (Hx f (or_introl eq_refl)) as (v & d & Hv). rewrite Hv in H.
  destruct (check_vfid_missmatch e (convpath f) v) as [x|[e1 ws]] eqn:C.
  - destruct (check_err _ _ _ _ C) as (Hm & _). injection H as _ Hx'. congruence.
  - destruct (out_loop e1 r) as [evs1 res1] eqn:R. injection H as _ Hr. subst res1.
    exact (IH (fun f' Hf' => Hx f' (or_intror Hf')) _ _ _ R).
Qed.

Lemma mismatch_at_inv_cons (e : vfid) (p : string * vfid) (l : list (string * vfid)) (m : mismatch_msg) :
  mismatch_at e (p :: l) m ->
  (p = (msg_fpath m, msg_file_vfid m) /\ msg_expected m = e /\ msg_expected m <> VNone /\
   vfid_ne (msg_expected m) (msg_file_vfid m) = true)
  \/ mismatch_at (ref_step e (snd p)) l m.
Proof.
  intros ([|p' pre] & post & Hl & Hr & Hn & Hne).
  - left. injection Hl as -> _. auto.
  - right. injection Hl as -> Hl. exists pre, post. auto.
Qed.

Lemma mismatch_at_split (l1 : list (string * vfid)) : forall e l2 m,
  mismatch_at e (l1 ++ l2) m ->
  mismatch_at e l1 m \/ mismatch_at (ref_after e (map snd l1)) l2 m.
Proof.
  induction l1 as [|p l1 IH]; intros e l2 m H; [right; exact H|].
  destruct (mismatch_at_inv_cons _ _ _ _ H) as [(-> & Hr & Hn & Hne)|H'].
  - left. exists [], l1. auto.
  - destruct (IH _ _ _ H') as [H1|H1]; [left; exact (mismatch_at_cons _ _ _ _ H1)|right; exact H1].
Qed.

Lemma inp_loop_consistent (fs : list string) : force = false -> forall (e e' : vfid) evs m,
  inp_loop e fs = (evs, inr e') -> ~ mismatch_at e (map (fun f => (convpath f, inp_vfid f)) fs) m.
Proof.
  intros Hf. induction fs as [|f r IH]; intros e e' evs m H Hm.
  - destruct Hm as ([|? ?] & ? & Hl & _); discriminate.
  - cbn [inp_loop] in H. cbn [map] in Hm. unfold inp_vfid at 1 in Hm.
    destruct (extract_vfid_from_input (convpath f)) as [xe|v]; [discriminate|].
    destruct (check_vfid_missmatch e (convpath f) v) as [x|[e1 ws]] eqn:C; [discriminate|].
    destruct (inp_loop e1 r) as [evs1 res1] eqn:R. injection H as _ ->.
    destruct (mismatch_at_inv_cons _ _ _ _ Hm) as [(Hp & Hr & Hn & Hne)|Hm'].
    + injection Hp as Hfp Hv. rewrite Hr in Hn, Hne. rewrite <- Hv in Hne.
      unfold check_vfid_missmatch in C. rewrite Hf in C.
      destruct e; [contradiction| |]; rewrite Hne in C; discriminate.
    + cbn [snd] in Hm'. rewrite <- (check_ok _ _ _ _ _ C) in Hm'. exact (IH _ _ _ _ R Hm').
Qed.

Lemma out_loop_consistent (fs : list string) : force = false -> forall (e e' : vfid) evs m,
  out_loop e fs = (evs, inr e') -> ~ mismatch_at e (map (fun f => (convpath f, out_vfid f)) fs) m.
Proof.
  intros Hf. induction fs as [|f r IH]; intros e e' evs m H Hm.
  - destruct Hm as ([|? ?] & ? & Hl & _); discriminate.
  - cbn [out_loop] in H. cbn [map] in Hm. unfold out_vfid at 1 in Hm.
    destruct (extract_dice_report_from_output (convpath f)) as [xe|[v d]]; [discriminate|].
    destruct (check_vfid_missmatch e (convpath f) v) as [x|[e1 ws]] eqn:C; [discriminate|].
    destruct (out_loop e1 r) as [evs1 res1] eqn:R. injection H as _ ->.
    destruct (mismatch_at_inv_cons _ _ _ _ Hm) as [(Hp & Hr & Hn & Hne)|Hm'].
    + injection Hp as Hfp Hv. rewrite Hr in Hn, Hne. rewrite <- Hv in Hne.
      unfold check_vfid_missmatch in C. rewrite Hf in C.
      destruct e; [contradiction| |]; rewrite Hne in C; discriminate.
    + cbn [snd] in Hm'. rewrite <- (check_ok _ _ _ _ _ C) in Hm'. exact (IH _ _ _ _ R Hm').
Qed.

Lemma run_cmd_exception (iofiles : PFiles) (x : vfid) (evs : list event) (m : mismatch_msg) :
  yield_report_tuples_from_iofiles iofiles x = (evs, Some (CmdException m)) ->
  mismatch_at VNone (checked_vfids iofiles) m.
Proof.
  unfold yield_report_tuples_from_iofiles, checked_vfids.
  destruct (inp_loop VNone (inp iofiles)) as [e1 [x1|r1]] eqn:H1.
  - intros H. injection H as _ ->.
    apply mismatch_at_prefix. exact (inp_loop_mismatch _ _ _ _ H1).
  - destruct (out_loop r1 (out iofiles)) as [e2 [x2|r2]] eqn:H2; [|discriminate].
    intros H. injection H as _ ->.
    apply mismatch_at_app. rewrite map_snd_pairs, <- (inp_loop_ok _ _ _ _ H1).
    exact (out_loop_mismatch _ _ _ _ H2).
Qed.

(** With [--force] a [vehicle_family_id] mismatch never raises a
    [CmdException]; when every file can be read the generator then runs to
    its end. *)
Theorem force_never_rejects (iofiles : PFiles) (x : vfid) (Hf : force = true) :
  (forall evs m, yield_report_tuples_from_iofiles iofiles x <> (evs, Some (CmdException m))) /\
  (extractions_ok iofiles -> snd (yield_report_tuples_from_iofiles iofiles x) = None).
Proof.
  unfold yield_report_tuples_from_iofiles.
  destruct (inp_loop VNone (inp iofiles)) as [e1 [x1|r1]] eqn:H1.
  - split.
    + intros evs m H. injection H as _ ->. exact (inp_loop_no_cmd _ Hf _ _ _ H1).
    + intros [Hi _]. destruct x1 as [m|xe]; [destruct (inp_loop_no_cmd _ Hf _ _ _ H1)|].
      destruct (inp_loop_no_extract_error _ Hi _ _ _ H1).
  - destruct (out_loop r1 (out iofiles)) as [e2 [x2|r2]] eqn:H2.
    + split.
      * intros evs m H. injection H as _ ->. exact (out_loop_no_cmd _ Hf _ _ _ H2).
      * intros [_ Ho]. destruct x2 as [m|xe]; [destruct (out_loop_no_cmd _ Hf _ _ _ H2)|].
        destruct (out_loop_no_extract_error _ Ho _ _ _ H2).
    + split; [intros evs m H; discriminate|reflexivity].
Qed.

(** Without [--force] the generator logs no mismatch warning: a mismatch
    among the checked ids raises instead, so the generator never reaches its
    end; when every file can be read, what it raises is a [CmdException] for
    a mismatching file. *)
Theorem no_warning_without_force (iofiles : PFiles) (x : vfid) (Hf : force = false) :
  (forall m, ~ In (LogWarning m) (fst (yield_report_tuples_from_iofiles iofiles x))) /\
  (forall m, mismatch_at VNone (checked_vfids iofiles) m ->
     snd (yield_report_tuples_from_iofiles iofiles x) <> None /\
     (extractions_ok iofiles -> exists m',
        snd (yield_report_tuples_from_iofiles iofiles x) = Some (CmdException m') /\
        mismatch_at VNone (checked_vfids iofiles) m')).
Proof.
  split.
  - intros m. unfold yield_report_tuples_from_iofiles.
    destruct (inp_loop VNone (inp iofiles)) as [e1 [x1|r1]] eqn:H1.
    + exact (inp_loop_no_warning _ Hf _ _ _ m H1).
    + destruct (out_loop r1 (out iofiles)) as [e2 [x2|r2]] eqn:H2; cbn [fst]; rewrite !in_app_iff.
      * intros [Hm|Hm]; [exact (inp_loop_no_warning _ Hf _ _ _ m H1 Hm)|exact (out_loop_no_warning _ Hf _ _ _ m H2 Hm)].
      * intros [Hm|[Hm|Hm]]; [exact (inp_loop_no_warning _ Hf _ _ _ m H1 Hm)|exact (out_loop_no_warning _ Hf _ _ _ m H2 Hm)|].
        unfold other_loop in Hm. apply in_map_iff in Hm as (? & Hm & _). discriminate.
  - intros m Hm. split.
    + unfold yield_report_tuples_from_iofiles. unfold checked_vfids in Hm.
      destruct (inp_loop VNone (inp iofiles)) as [e1 [x1|r1]] eqn:H1; [discriminate|].
      destruct (out_loop r1 (out iofiles)) as [e2 [x2|r2]] eqn:H2; [discriminate|].
      intros _. apply mismatch_at_split in Hm as [Hm|Hm].
      * exact (inp_loop_consistent _ Hf _ _ _ m H1 Hm).
      * rewrite map_snd_pairs, <- (inp_loop_ok _ _ _ _ H1) in Hm.
        exact (out_loop_consistent _ Hf _ _ _ m H2 Hm).
    + intros [Hi Ho]. destruct (yield_report_tuples_from_iofiles iofiles x) as [evs [[m'|xe]|]] eqn:Hy.
      * exists m'. split; [reflexivity|]. exact (run_cmd_exception _ _ _ _ Hy).
      * exfalso. revert Hy. unfold yield_report_tuples_from_iofiles.
        destruct (inp_loop VNone (inp iofiles)) as [e1 [x1|r1]] eqn:H1.
        -- intros H. injection H as _ ->. exact (inp_loop_no_extract_error _ Hi _ _ _ H1).
        -- destruct (out_loop r1 (out iofiles)) as [e2 [x2|r2]] eqn:H2; [|discriminate].
           intros H. injection H as _ ->. exact (out_loop_no_extract_error _ Ho _ _ _ H2).
      * exfalso. revert Hy. unfold yield_report_tuples_from_iofiles. unfold checked_vfids in Hm.
        destruct (inp_loop VNone (inp iofiles)) as [e1 [x1|r1]] eqn:H1; [discriminate|].
        destruct (out_loop r1 (out iofiles)) as [e2 [x2|r2]] eqn:H2; [discriminate|].
        intros _. apply mismatch_at_split in Hm as [Hm|Hm].
        -- exact (inp_loop_consistent _ Hf _ _ _ m H1 Hm).
        -- rewrite map_snd_pairs, <- (inp_loop_ok _ _ _ _ H1) in Hm.
           exact (out_loop_consistent _ Hf _ _ _ m H2 Hm).
Qed.

(** Without [--force], when every file can be read, the generator runs to
    its end exactly when no checked file differs from the reference id (the
    first id that is not [None] among the files checked before it). *)
Theorem mismatch_check_complete (iofiles : PFiles) (x : vfid) (Hf : force = false)
    (Hx : extractions_ok iofiles) :
  snd (yield_report_tuples_from_iofiles iofiles x) = None <->
  (forall m, ~ mismatch_at VNone (checked_vfids iofiles) m).
Proof.
  split.
  - unfold yield_report_tuples_from_iofiles, checked_vfids.
    destruct (inp_loop VNone (inp iofiles)) as [e1 [x1|r1]] eqn:H1; [discriminate|].
    destruct (out_loop r1 (out iofiles)) as [e2 [x2|r2]] eqn:H2; [discriminate|].
    intros _ m Hm. apply mismatch_at_split in Hm as [Hm|Hm].
    + exact (inp_loop_consistent _ Hf _ _ _ m H1 Hm).
    + rewrite map_snd_pairs, <- (inp_loop_ok _ _ _ _ H1) in Hm.
      exact (out_loop_consistent _ Hf _ _ _ m H2 Hm).
  - intros Hno. destruct (yield_report_tuples_from_iofiles iofiles x) as [evs [[m|xe]|]] eqn:Hy.
    + destruct (Hno m (run_cmd_exception _ _ _ _ Hy)).
    + exfalso. destruct Hx as [Hi Ho]. revert Hy. unfold yield_report_tuples_from_iofiles.
      destruct (inp_loop VNone (inp iofiles)) as [e1 [x1|r1]] eqn:H1.
      * intros H. injection H as _ ->. exact (inp_loop_no_extract_error _ Hi _ _ _ H1).
      * destruct (out_loop r1 (out iofiles)) as [e2 [x2|r2]] eqn:H2; [|discriminate].
        intros H. injection H as _ ->. exact (out_loop_no_extract_error _ Ho _ _ _ H2).
    + reflexivity.
Qed.

(** A run that reaches its end yields one tuple per file: the input files,
    then the output files, then the other files, each in the given order. *)
Theorem complete_run_yields_all (iofiles : PFiles) (x : vfid) :
  snd (yield_report_tuples_from_iofiles iofiles x) = None ->
  yielded (fst (yield_report_tuples_from_iofiles iofiles x)) =
  tagged_files iofiles ++ map (fun f => (convpath f, "other"%string)) (other iofiles).
Proof.
  unfold yield_report_tuples_from_iofiles, tagged_files.
  destruct (inp_loop VNone (inp iofiles)) as [e1 [x1|r1]] eqn:H1; [discriminate|].
  destruct (out_loop r1 (out iofiles)) as [e2 [x2|r2]] eqn:H2; [discriminate|].
  intros _. cbn [fst]. rewrite !yielded_app, (inp_loop_yields _ _ _ _ H1), (out_loop_yields _ _ _ _ H2).
  rewrite <- app_assoc. f_equal. f_equal.
  unfold other_loop, yielded. induction (other iofiles) as [|f r IH]; [reflexivity|].
  cbn. f_equal. exact IH.
Qed.

(** A run that raises has yielded exactly the tuples of the input and
    output files before the one it stopped on, and none for the other
    files. *)
Theorem failed_run_yields_prefix (iofiles : PFiles) (x : vfid) (ex : exn) :
  snd (yield_report_tuples_from_iofiles iofiles x) = Some ex ->
  exists k post, tagged_files iofiles = yielded (fst (yield_report_tuples_from_iofiles iofiles x)) ++ k :: post.
Proof.
  unfold yield_report_tuples_from_iofiles, tagged_files.
  destruct (inp_loop VNone (inp iofiles)) as [e1 [x1|r1]] eqn:H1.
  - intros _. cbn [fst]. destruct (inp_loop_fail_yields _ _ _ _ H1) as (k & post & Hk).
    exists k, (post ++ map (fun f => (convpath f, "out"%string)) (out iofiles)).
    rewrite Hk, <- app_assoc. reflexivity.
  - destruct (out_loop r1 (out iofiles)) as [e2 [x2|r2]] eqn:H2; [|discriminate].
    intros _. cbn [fst]. destruct (out_loop_fail_yields _ _ _ _ H2) as (k & post & Hk).
    exists k, post. rewrite yielded_app, (inp_loop_yields _ _ _ _ H1), Hk, <- app_assoc. reflexivity.
Qed.

(** *** [get_dice_report] and [report_tuple_2_dict] *)

(** [d[k] = v] on an [OrderedDict] as an association list: an existing key
    keeps its place and takes the new value, a new key goes last. *)
Fixpoint od_set {K W : Type} (eqb : K -> K -> bool) (k : K) (v : W) (d : list (K * W))
    : list (K * W) :=
  match d with
  | [] => [(k, v)]
  | (k', v') :: r => if eqb k' k then (k', v) :: r else (k', v') :: od_set eqb k v r
  end.

(** [OrderedDict(pairs)]. *)
Definition od_from_list {K W : Type} (eqb : K -> K -> bool) (l : list (K * W)) : list (K * W) :=
  fold_left (fun d kv => od_set eqb (fst kv) (snd kv) d) l [].

Fixpoint od_lookup {W : Type} (k : string) (d : list (string * W)) : option W :=
  match d with
  | [] => None
  | (k', v) :: r => if String.eqb k' k then Some v else od_lookup k r
  end.

(** The value of the last pair with key [k]. *)
Definition last_for {W : Type} (k : string) (l : list (string * W)) : option W :=
  fold_left (fun acc kv => if String.eqb (fst kv) k then Some (snd kv) else acc) l None.

(** The keys in the order of their first occurrence. *)
Definition first_occ (l : list string) : list string :=
  fold_left (fun acc k => if existsb (String.eqb k) acc then acc else acc ++ [k]) l [].

(** A cell of a data frame, [report.T.items()] as [(index, list(row))]
    pairs, and [osp.basename]. *)
Variable Cell : Type.
Variable df_T_items : DF -> list (string * list Cell).
Variable basename : string -> string.

(** The [report] entry of [report_tuple_2_dict]: a data frame becomes an
    [OrderedDict] of its rows, the input report (an [OrderedDict] with
    [report_type] and [vehicle_family_id]) and [None] stay as they are. *)
Inductive report_value : Type :=
| RInputReport (v : vfid)
| RRows (rows : list (string * list Cell))
| RNone.

Record report_dict : Type := mk_rdict {
  rd_file : string; rd_iokind : string; rd_report : report_value }.

(** [report_tuple_2_dict(fpath, iokind, report)]. *)
Definition report_tuple_2_dict (fpath iokind : string) (r : report) : report_dict :=
  mk_rdict (basename fpath) iokind
    (match r with
     | DiceReport df => RRows (od_from_list String.eqb (df_T_items df))
     | InputReport v => RInputReport v
     | NoReport => RNone
     end).

(** The tuples yielded, in order. *)
Definition yielded_tuples (evs : list event) : list (string * string * report) :=
  flat_map (fun ev => match ev with Yield fp k r => [(fp, k, r)] | LogWarning _ => [] end) evs.

(** [get_dice_report(iofiles, expected_vfid)]: the [OrderedDict] built from
    the generator, or the exception that stops it. *)
Definition get_dice_report (iofiles : PFiles) (expected_vfid : vfid)
    : exn + list (string * report_dict) :=
  let '(evs, res) := yield_report_tuples_from_iofiles iofiles expected_vfid in
  match res with
  | Some x => inl x
  | None =>
      inr (od_from_list String.eqb
             (map (fun t => let '(fp, k, r) := t in (fp, report_tuple_2_dict fp k r))
                  (yielded_tuples evs)))
  end.

Lemma od_lookup_set {W : Type} (d : list (string * W)) (k k' : string) (v : W) :
  od_lookup k' (od_set String.eqb k v d) = if String.eqb k k' then Some v else od_lookup k' d.
Proof.
  induction d as [|[k0 v0] r IH]; cbn [od_set od_lookup].
  - reflexivity.
  - destruct (String.eqb k0 k) eqn:E0.
    + apply String.eqb_eq in E0. subst k0. cbn [od_lookup]. destruct (String.eqb k k'); reflexivity.
    + cbn [od_lookup]. rewrite IH. destruct (String.eqb k0 k') eqn:E1; [|reflexivity].
      apply String.eqb_eq in E1. subst k0. rewrite String.eqb_sym, E0. reflexivity.
Qed.

Lemma od_keys_set {W : Type} (d : list (string * W)) (k : string) (v : W) :
  map fst (od_set String.eqb k v d) =
  if existsb (String.eqb k) (map fst d) then map fst d else map fst d ++ [k].
Proof.
  induction d as [|[k0 v0] r IH]; cbn [od_set map existsb fst].
  - reflexivity.
  - rewrite (String.eqb_sym k k0). destruct (String.eqb k0 k) eqn:E0; [reflexivity|].
    cbn [map fst orb]. rewrite IH. destruct (existsb (String.eqb k) (map fst r)); reflexivity.
Qed.

Lemma od_from_list_lookup {W : Type} (l : list (string * W)) : forall d k,
  od_lookup k (fold_left (fun d kv => od_set String.eqb (fst kv) (snd kv) d) l d) =
  fold_left (fun acc kv => if String.eqb (fst kv) k then Some (snd kv) else acc) l (od_lookup k d).
Proof.
  induction l as [|[k0 v0] r IH]; intros d k; [reflexivity|].
  cbn [fold_left fst snd]. rewrite IH, od_lookup_set. reflexivity.
Qed.

Lemma od_from_list_keys {W : Type} (l : list (string * W)) : forall d,
  map fst (fold_left (fun d kv => od_set String.eqb (fst kv) (snd kv) d) l d) =
  fold_left (fun acc k => if existsb (String.eqb k) acc then acc else acc ++ [k]) (map fst l) (map fst d).
Proof.
  induction l as [|[k0 v0] r IH]; intros d; [reflexivity|].
  cbn [fold_left map fst snd]. rewrite IH, od_keys_set. reflexivity.
Qed.

Lemma yielded_tuples_paths (evs : list event) :
  map fst (map (fun t => let '(fp, k, r) := t in (fp, report_tuple_2_dict fp k r)) (yielded_tuples evs))
  = map fst (yielded evs).
Proof.
  induction evs as [|[fp k r|m] evs IH]; [reflexivity| |]; cbn; [f_equal|]; exact IH.
Qed.

(** [get_dice_report] raises exactly what the generator raises and then
    returns nothing; otherwise it returns one entry per distinct yielded
    path, in the order the paths first appear, holding the converted dict
    of the last tuple yielded for that path. *)
Theorem get_dice_report_result (iofiles : PFiles) (x : vfid) :
  match get_dice_report iofiles x with
  | inl e => snd (yield_report_tuples_from_iofiles iofiles x) = Some e
  | inr d =>
      snd (yield_report_tuples_from_iofiles iofiles x) = None /\
      map fst d = first_occ (map fst (yielded (fst (yield_report_tuples_from_iofiles iofiles x)))) /\
      (forall fp, od_lookup fp d =
         last_for fp (map (fun t => let '(fp', k, r) := t in (fp', report_tuple_2_dict fp' k r))
                        (yielded_tuples (fst (yield_report_tuples_from_iofiles iofiles x)))))
  end.
Proof.
  unfold get_dice_report. destruct (yield_report_tuples_from_iofiles iofiles x) as [evs [e|]].
  - reflexivity.
  - cbn [fst snd]. split; [reflexivity|]. split.
    + unfold od_from_list. rewrite od_from_list_keys, yielded_tuples_paths. reflexivity.
    + intros fp. unfold od_from_list. rewrite od_from_list_lookup. reflexivity.
Qed.

End Gen.

Arguments ExtractError {XlError}.
Arguments CmdException {XlError}.
Arguments Yield {DF}.
Arguments LogWarning {DF}.
Arguments InputReport {DF}.
Arguments DiceReport {DF}.
Arguments NoReport {DF}.

(** *** [ReportCmd.run] with [--project] unset *)

Section Cmd.

Variable DF XlError Cell : Type.
Variable convpath : string -> string.
Variable extract_vfid_from_input : string -> XlError + vfid.
Variable extract_dice_report_from_output : string -> XlError + (vfid * DF).
Variable df_T_items : DF -> list (string * list Cell).
Variable basename : string -> string.
(** The configured [force] of [self.report]. *)
Variable report_force : bool.
(** [PFiles.parse_io_args], [yaml.dump({fpath: drep}, indent=2)] and
    ['- %s: %s' % (fpath, vfid)]. *)
Variable parse_io_args : list string -> PFiles.
Variable yaml_dump : string -> report_dict Cell -> string.
Variable vfid_line : string -> string -> string.

(** An element of a yielded 3-tuple. *)
Inductive pyitem : Type :=
| IStr (s : string)
| IReport (r : report DF).

Inductive cmd_exn : Type :=
| CmdNoArgs
| UnpackError (expected got : nat)
| GenError (e : exn XlError).

(** [(fpath, iokind, report)] as the generator yields it. *)
Definition report_tuple (t : string * string * report DF) : list pyitem :=
  let '(fp, k, r) := t in [IStr fp; IStr k; IReport r].

(** [vfid, fpath, _, _ = t]: a tuple of another length raises [ValueError]. *)
Definition unpack4 (t : list pyitem) : cmd_exn + (pyitem * pyitem * pyitem * pyitem) :=
  match t with
  | [a; b; c; d] => inr (a, b, c, d)
  | _ => inl (UnpackError 4 (length t))
  end.

Definition item_str (i : pyitem) : string :=
  match i with IStr s => s | IReport _ => EmptyString end.

(** [for vfid, fpath, _, _ in ...: yield '- %s: %s' % (fpath, vfid)]. *)
Fixpoint vfid_lines (ts : list (string * string * report DF)) : list string * option cmd_exn :=
  match ts with
  | [] => ([], None)
  | t :: rest =>
      match unpack4 (report_tuple t) with
      | inl e => ([], Some e)
      | inr (vfid, fpath, _, _) =>
          let '(ls, e) := vfid_lines rest in (vfid_line (item_str fpath) (item_str vfid) :: ls, e)
      end
  end.

(** [ReportCmd.run] on the arguments [args], with [self.project] false: the lines it yields and
    the exception that ends it. [vfids_only] sets [report.force = True]. *)
Definition report_cmd_run (vfids_only : bool) (args : list string) : list string * option cmd_exn :=
  if Nat.ltb (length args) 1 then ([], Some CmdNoArgs)
  else
    let pfiles := parse_io_args (first_occ args) in
    if vfids_only then
      let '(evs, res) := yield_report_tuples_from_iofiles DF XlError convpath
                           extract_vfid_from_input extract_dice_report_from_output true pfiles VNone in
      let '(ls, e) := vfid_lines (yielded_tuples DF evs) in
      match e with
      | Some e => (ls, Some e)
      | None => (ls, option_map GenError res)
      end
    else
      let '(evs, res) := yield_report_tuples_from_iofiles DF XlError convpath
                           extract_vfid_from_input extract_dice_report_from_output report_force
                           pfiles VNone in
      (map (fun t => let '(fp, k, r) := t in
                     yaml_dump fp (report_tuple_2_dict DF Cell df_T_items basename fp k r))
           (yielded_tuples DF evs),
       option_map GenError res).

(** With [--vfids] the command prints no line at all: the first yielded
    3-tuple is unpacked into four names and raises [ValueError]; it ends
    with that error exactly when the generator yields a tuple. *)
Theorem vfids_mode_prints_nothing (args : list string) :
  fst (report_cmd_run true args) = [] /\
  (snd (report_cmd_run true args) = Some (UnpackError 4 3) <->
   args <> [] /\
   yielded_tuples DF (fst (yield_report_tuples_from_iofiles DF XlError convpath
      extract_vfid_from_input extract_dice_report_from_output true
      (parse_io_args (first_occ args)) VNone)) <> []).
Proof.
  unfold report_cmd_run.
  destruct args as [|a args'].
  - cbn. split; [reflexivity|]. split; [discriminate|intros [H _]; contradiction].
  - cbn [length Nat.ltb].
    destruct (yield_report_tuples_from_iofiles DF XlError convpath extract_vfid_from_input
                extract_dice_report_from_output true (parse_io_args (first_occ (a :: args'))) VNone)
      as [evs res].
    cbn [fst]. destruct (yielded_tuples DF evs) as [|[[fp k] r] ts].
    + cbn. split; [reflexivity|]. split.
      * destruct res; discriminate.
      * intros [_ H]. contradiction.
    + cbn. split; [reflexivity|]. split; [intros _; split; discriminate|reflexivity].
Qed.

End Cmd.

Local Open Scope string_scope.

(** Three output files; the first one's dice-report has no
    [vehicle_family_id]. *)
Definition three_outputs : PFiles := mk_pfiles [] ["f1"; "f2"; "f3"] [].

Definition no_input_id (f : string) : unit + vfid := inr VNone.

Definition output_ids (f : string) : unit + (vfid * unit) :=
  inr (if String.eqb f "f1" then VNone else if String.eqb f "f2" then VStr "A" else VStr "B", tt).

(** C10 (code bug). The reference id is kept in [expected_vfid], which
    starts as [None], and [None] also stands for "no reference yet"; so the
    check depends on the order of the files. Two output files whose ids are
    [None] (an empty dice-report cell) and ["A"] differ from each other:
    taken in that order, the generator yields both and ends without raising;
    taken in the other order, it raises a mismatch [CmdException] on the
    second file. Both runs are the same whatever [expected_vfid] is passed. *)
Theorem vfid_check_order_dependent (x : vfid) :
  yield_report_tuples_from_iofiles unit unit (fun f => f) no_input_id output_ids false
    (mk_pfiles [] ["f1"; "f2"] []) x
  = ([Yield "f1" "out" (DiceReport tt); Yield "f2" "out" (DiceReport tt)], None)
  /\ yield_report_tuples_from_iofiles unit unit (fun f => f) no_input_id output_ids false
    (mk_pfiles [] ["f2"; "f1"] []) x
  = ([Yield "f2" "out" (DiceReport tt)], Some (CmdException (mk_msg "f1" VNone (VStr "A"))))
  /\ output_ids "f1" = inr (VNone, tt) /\ output_ids "f2" = inr (VStr "A", tt)
  /\ vfid_ne VNone (VStr "A") = true.
Proof. split; [vm_compute; reflexivity|]. split; [vm_compute; reflexivity|]. repeat split. Qed.

(** Inputs, outputs and an other file whose ids agree: the first output has
    none, the second one ["A"]. *)
Definition mixed_files : PFiles := mk_pfiles ["i1"] ["f1"; "f2"] ["x"].

Lemma three_outputs_readable :
  extractions_ok unit unit (fun f => f) no_input_id output_ids three_outputs.
Proof.
  split; intros f Hf; [destruct Hf|]. unfold output_ids. eexists _, _. reflexivity.
Qed.

Lemma force_never_rejects_witness :
  true = true /\
  snd (yield_report_tuples_from_iofiles unit unit (fun f => f) no_input_id output_ids true
         three_outputs VNone) = None.
Proof.
  split; [reflexivity|].
  exact (proj2 (force_never_rejects unit unit (fun f => f) no_input_id output_ids true
                  three_outputs VNone eq_refl) three_outputs_readable).
Defined.

Lemma no_warning_without_force_witness :
  false = false /\
  mismatch_at VNone (checked_vfids unit unit (fun f => f) no_input_id output_ids three_outputs)
    (mk_msg "f3" (VStr "B") (VStr "A")) /\
  snd (yield_report_tuples_from_iofiles unit unit (fun f => f) no_input_id output_ids false
         three_outputs VNone) <> None.
Proof.
  assert (Hm : mismatch_at VNone (checked_vfids unit unit (fun f => f) no_input_id output_ids
                 three_outputs) (mk_msg "f3" (VStr "B") (VStr "A"))).
  { exists [("f1", VNone); ("f2", VStr "A")]%list, []%list.
    split; [vm_compute; reflexivity|]. split; [reflexivity|]. split; [discriminate|reflexivity]. }
  split; [reflexivity|]. split; [exact Hm|].
  exact (proj1 (proj2 (no_warning_without_force unit unit (fun f => f) no_input_id output_ids false
           three_outputs VNone eq_refl) _ Hm)).
Defined.

Lemma mismatch_check_complete_witness :
  false = false /\
  extractions_ok unit unit (fun f => f) no_input_id output_ids three_outputs /\
  (snd (yield_report_tuples_from_iofiles unit unit (fun f => f) no_input_id output_ids false
          three_outputs VNone) = None <->
   (forall m, ~ mismatch_at VNone (checked_vfids unit unit (fun f => f) no_input_id output_ids three_outputs) m)).

Proof.
  split; [reflexivity|]. split; [exact three_outputs_readable|].
  exact (mismatch_check_complete unit unit (fun f => f) no_input_id output_ids false
           three_outputs VNone eq_refl three_outputs_readable).
Defined.

Lemma complete_run_yields_all_witness :
  snd (yield_report_tuples_from_iofiles unit unit (fun f => f) no_input_id output_ids false
         mixed_files VNone) = None /\
  yielded unit (fst (yield_report_tuples_from_iofiles unit unit (fun f => f) no_input_id output_ids
                       false mixed_files VNone)) =
  (tagged_files (fun f => f) mixed_files ++ map (fun f => (f, "other")) (other mixed_files))%list.
Proof.
  assert (H : snd (yield_report_tuples_from_iofiles unit unit (fun f => f) no_input_id output_ids
                     false mixed_files VNone) = None) by (vm_compute; reflexivity).
  split; [exact H|].
  exact (complete_run_yields_all unit unit (fun f => f) no_input_id output_ids false
           mixed_files VNone H).
Defined.

Lemma failed_run_yields_prefix_witness :
  snd (yield_report_tuples_from_iofiles unit unit (fun f => f) no_input_id output_ids false
         three_outputs VNone) = Some (CmdException (mk_msg "f3" (VStr "B") (VStr "A"))) /\
  exists k post, tagged_files (fun f => f) three_outputs =
    (yielded unit (fst (yield_report_tuples_from_iofiles unit unit (fun f => f) no_input_id output_ids
                         false three_outputs VNone)) ++ k :: post)%list.
Proof.
  assert (H : snd (yield_report_tuples_from_iofiles unit unit (fun f => f) no_input_id output_ids
                     false three_outputs VNone)
              = Some (CmdException (mk_msg "f3" (VStr "B") (VStr "A")))) by (vm_compute; reflexivity).
  split; [exact H|].
  exact (failed_run_yields_prefix unit unit (fun f => f) no_input_id output_ids false
           three_outputs VNone _ H).
Defined.

End Report.

(** ** Node labels of the dispatcher plots ([dispatcher/draw.py]) *)

Module Draw.

Local Open Scope char_scope.

(** [[^(_ )]]: a character other than [(], [_], space and [)]. *)
Definition not_excl (c : ascii) : bool :=
  negb (Ascii.eqb c "(" || Ascii.eqb c "_" || Ascii.eqb c " " || Ascii.eqb c ")").

Definition is_us (c : ascii) : bool := Ascii.eqb c "_".

(** [s.replace('_', ' ')]. *)
Fixpoint replace_us (s : string) : string :=
  match s with
  | EmptyString => EmptyString
  | String c r => String (if is_us c then " " else c) (replace_us r)
  end.

(** [under_rpl(match_obj)]: [match_obj.group(0).replace('_', ' ')]. *)
Definition under_rpl (group0 : string) : string := replace_us group0.

(** [node_label_regex.subn(under_rpl, s)] for the pattern
    [(^|[^(_ )])(_)[^(_ )]]: the matches are searched left to right, each
    one resumes the search at its end, and [^] matches at position 0 only.
    [at_start] tells whether [s] starts at position 0; the result is the new
    string and the number of replacements. *)
Fixpoint subn_at (at_start : bool) (s : string) {struct s} : string * nat :=
  match s with
  | EmptyString => (EmptyString, 0)
  | String c1 r1 =>
      match r1 with
      | EmptyString => (s, 0)
      | String c2 r2 =>
          if at_start && is_us c1 && not_excl c2 then
            let '(t, n) := subn_at false r2 in
            ((under_rpl (String c1 (String c2 EmptyString)) ++ t)%string, S n)
          else
            match r2 with
            | String c3 r3 =>
                if not_excl c1 && is_us c2 && not_excl c3 then
                  let '(t, n) := subn_at false r3 in
                  ((under_rpl (String c1 (String c2 (String c3 EmptyString))) ++ t)%string, S n)
                else let '(t, n) := subn_at false r1 in (String c1 t, n)
            | EmptyString => let '(t, n) := subn_at false r1 in (String c1 t, n)
            end
      end
  end.

Definition node_label_regex_subn (s : string) : string * nat := subn_at true s.

(** [while n: s, n = node_label_regex.subn(under_rpl, s)], with a fuel bound;
    [replace_under_score_fuel_enough] below shows it never runs out. *)
Fixpoint subn_while (fuel : nat) (s : string) (n : nat) : string :=
  match fuel with
  | O => s
  | S f =>
      match n with
      | O => s
      | S _ => let '(s', n') := node_label_regex_subn s in subn_while f s' n'
      end
  end.

(** [replace_under_score(s)]. *)
Definition replace_under_score (s : string) : string :=
  let '(s1, n) := node_label_regex_subn s in subn_while (String.length s) s1 n.

(** The label rule read position by position: an underscore becomes a space
    when the next character is not one of [(], [_], space, [)] and the
    previous one, if any, is not either. [prev_ok] is the test on the
    previous character ([true] at position 0). *)
Definition next_ok (r : string) : bool :=
  match r with String c _ => not_excl c | EmptyString => false end.

Fixpoint spaced_label (prev_ok : bool) (s : string) : string :=
  match s with
  | EmptyString => EmptyString
  | String c r =>
      String (if is_us c && prev_ok && next_ok r then " " else c) (spaced_label (not_excl c) r)
  end.

Fixpoint count_us (s : string) : nat :=
  match s with
  | EmptyString => 0
  | String c r => (if is_us c then 1 else 0) + count_us r
  end.

(** [t] is [s] with some underscores turned into spaces, each one at a
    position where the rule of [spaced_label] allows it. *)
Fixpoint sub_of (p : bool) (s t : string) : Prop :=
  match s, t with
  | EmptyString, EmptyString => True
  | String c r, String d u =>
      (d = c \/ (d = " " /\ is_us c && p && next_ok r = true)) /\ sub_of (not_excl c) r u
  | _, _ => False
  end.

Lemma not_excl_us (c : ascii) : not_excl c = true -> is_us c = false.
Proof.
  unfold not_excl, is_us. destruct (Ascii.eqb c "_"); [|reflexivity].
  rewrite !orb_true_r. discriminate.
Qed.

Lemma is_us_eq (c : ascii) : is_us c = true -> c = "_".
Proof. unfold is_us. intros H. apply Ascii.eqb_eq in H. exact H. Qed.

Lemma us_cases (c : ascii) : is_us c = true -> not_excl c = false.
Proof. intros H. apply is_us_eq in H. subst. reflexivity. Qed.

Lemma sub_of_refl (s : string) (p : bool) : sub_of p s s.
Proof.
  revert p. induction s as [|c r IH]; intros p; simpl; auto.
Qed.

Lemma sub_of_not_excl (c d : ascii) (p : bool) (r : string) :
  (d = c \/ (d = " " /\ is_us c && p && next_ok r = true)) -> not_excl d = not_excl c.
Proof.
  intros [->|[-> H]]; [reflexivity|].
  apply andb_prop in H as [H _]. apply andb_prop in H as [H _].
  rewrite (us_cases c H). reflexivity.
Qed.

Lemma sub_of_next_ok (p : bool) (s t : string) : sub_of p s t -> next_ok t = next_ok s.
Proof.
  destruct s as [|c r], t as [|d u]; simpl; try tauto.
  intros [H _]. exact (sub_of_not_excl c d p r H).
Qed.

Lemma sub_of_trans (s t u : string) (p : bool) :
  sub_of p s t -> sub_of p t u -> sub_of p s u.
Proof.
  revert p t u. induction s as [|c r IH]; intros p t u Hst Htu.
  - destruct t; [|contradiction]. exact Htu.
  - destruct t as [|d t']; [contradiction|]. destruct u as [|e u']; [contradiction|].
    destruct Hst as [Hcd Hrt]. destruct Htu as [Hde Htu'].
    pose proof (sub_of_not_excl c d p r Hcd) as Hcd'.
    pose proof (sub_of_next_ok _ _ _ Hrt) as Hn.
    split.
    + destruct Hcd as [->|[-> Hc]].
      * destruct Hde as [->|[-> He]]; [left; reflexivity|right; split; [reflexivity|]].
        rewrite Hn in He. exact He.
      * right. split; [|exact Hc]. destruct Hde as [->|[-> _]]; reflexivity.
    + rewrite Hcd' in Htu'. exact (IH _ _ _ Hrt Htu').
Qed.

Lemma under_rpl2 (c1 c2 : ascii) (t : string) :
  is_us c1 = true -> not_excl c2 = true ->
  (under_rpl (String c1 (String c2 EmptyString)) ++ t)%string = String " " (String c2 t).
Proof.
  intros H1 H2. unfold under_rpl. simpl. rewrite H1, (not_excl_us c2 H2). reflexivity.
Qed.

Lemma under_rpl3 (c1 c2 c3 : ascii) (t : string) :
  not_excl c1 = true -> is_us c2 = true -> not_excl c3 = true ->
  (under_rpl (String c1 (String c2 (String c3 EmptyString))) ++ t)%string
  = String c1 (String " " (String c3 t)).
Proof.
  intros H1 H2 H3. unfold under_rpl. simpl.
  rewrite (not_excl_us c1 H1), H2, (not_excl_us c3 H3). reflexivity.
Qed.

(** Strong induction on the length of a string. *)
Lemma string_len_ind (P : string -> Prop) :
  (forall s, (forall r, String.length r < String.length s -> P r) -> P s) -> forall s, P s.
Proof.
  intros H s. remember (String.length s) as k eqn:Ek.
  assert (Hk : String.length s <= k) by lia. clear Ek. revert s Hk.
  induction k as [|k IH]; intros s Hk; apply H; intros r Hr; [lia|]. apply IH. lia.
Qed.

Lemma subn_at_eq2 (b : bool) (c1 c2 : ascii) :
  subn_at b (String c1 (String c2 EmptyString)) =
  if b && is_us c1 && not_excl c2 then
    let '(t, n) := subn_at false EmptyString in
    ((under_rpl (String c1 (String c2 EmptyString)) ++ t)%string, S n)
  else let '(t, n) := subn_at false (String c2 EmptyString) in (String c1 t, n).
Proof. reflexivity. Qed.

Lemma subn_at_eq3 (b : bool) (c1 c2 c3 : ascii) (r3 : string) :
  subn_at b (String c1 (String c2 (String c3 r3))) =
  if b && is_us c1 && not_excl c2 then
    let '(t, n) := subn_at false (String c3 r3) in
    ((under_rpl (String c1 (String c2 EmptyString)) ++ t)%string, S n)
  else if not_excl c1 && is_us c2 && not_excl c3 then
    let '(t, n) := subn_at false r3 in
    ((under_rpl (String c1 (String c2 (String c3 EmptyString))) ++ t)%string, S n)
  else let '(t, n) := subn_at false (String c2 (String c3 r3)) in (String c1 t, n).
Proof. reflexivity. Qed.

Lemma subn_at_single (b : bool) (c : ascii) : subn_at b (String c EmptyString) = (String c EmptyString, 0).
Proof. reflexivity. Qed.

Lemma subn_at_sub (s : string) : forall b p, (b = true -> p = true) ->
  sub_of p s (fst (subn_at b s)).
Proof.
  induction s as [s IH] using string_len_ind. intros b p Hbp.
  destruct s as [|c1 [|c2 [|c3 r3]]].
  - exact I.
  - rewrite subn_at_single. apply sub_of_refl.
  - rewrite subn_at_eq2.
    destruct (b && is_us c1 && not_excl c2) eqn:A1.
    + apply andb_prop in A1 as [A1 A2]. apply andb_prop in A1 as [A0 A1].
      cbn [subn_at fst]. rewrite (under_rpl2 _ _ _ A1 A2).
      split; [right; split; [reflexivity|]|].
      * rewrite A1, (Hbp A0). simpl. exact A2.
      * split; [left; reflexivity|exact I].
    + rewrite subn_at_single. apply sub_of_refl.
  - rewrite subn_at_eq3.
    destruct (b && is_us c1 && not_excl c2) eqn:A1.
    + apply andb_prop in A1 as [A1 A2]. apply andb_prop in A1 as [A0 A1].
      pose proof (IH (String c3 r3) ltac:(simpl; lia) false (not_excl c2) ltac:(discriminate)) as H.
      destruct (subn_at false (String c3 r3)) as [t n]. cbn [fst] in *.
      rewrite (under_rpl2 _ _ _ A1 A2).
      split; [right; split; [reflexivity|]|].
      * rewrite A1, (Hbp A0). simpl. exact A2.
      * rewrite (us_cases _ A1). split; [left; reflexivity|exact H].
    + destruct (not_excl c1 && is_us c2 && not_excl c3) eqn:A2.
      * apply andb_prop in A2 as [A2 A3]. apply andb_prop in A2 as [A0 A2].
        pose proof (IH r3 ltac:(simpl; lia) false (not_excl c3) ltac:(discriminate)) as H.
        destruct (subn_at false r3) as [t n]. cbn [fst] in *.
        rewrite (under_rpl3 _ _ _ _ A0 A2 A3).
        split; [left; reflexivity|]. split; [right; split; [reflexivity|]|].
        -- rewrite A2, A0. simpl. exact A3.
        -- rewrite (us_cases _ A2). split; [left; reflexivity|exact H].
      * pose proof (IH (String c2 (String c3 r3)) ltac:(simpl; lia) false (not_excl c1)
          ltac:(discriminate)) as H.
        destruct (subn_at false (String c2 (String c3 r3))) as [t n]. cbn [fst] in *.
        split; [left; reflexivity|exact H].
Qed.

Lemma subn_at_count (s : string) : forall b,
  count_us (fst (subn_at b s)) + snd (subn_at b s) = count_us s.
Proof.
  induction s as [s IH] using string_len_ind. intros b.
  destruct s as [|c1 [|c2 [|c3 r3]]].
  - reflexivity.
  - rewrite subn_at_single. simpl. lia.
  - rewrite subn_at_eq2.
    destruct (b && is_us c1 && not_excl c2) eqn:A1.
    + apply andb_prop in A1 as [A1 A2]. apply andb_prop in A1 as [_ A1].
      cbn [subn_at fst snd]. rewrite (under_rpl2 _ _ _ A1 A2).
      cbn [count_us]. rewrite A1, (not_excl_us _ A2). simpl. lia.
    + rewrite subn_at_single. cbn [fst snd count_us]. lia.
  - rewrite subn_at_eq3.
    destruct (b && is_us c1 && not_excl c2) eqn:A1.
    + apply andb_prop in A1 as [A1 A2]. apply andb_prop in A1 as [_ A1].
      pose proof (IH (String c3 r3) ltac:(simpl; lia) false) as H.
      destruct (subn_at false (String c3 r3)) as [t n]. cbn [fst snd] in *.
      rewrite (under_rpl2 _ _ _ A1 A2). cbn [count_us] in *.
      rewrite A1, (not_excl_us _ A2). simpl. lia.
    + destruct (not_excl c1 && is_us c2 && not_excl c3) eqn:A2.
      * apply andb_prop in A2 as [A2 A3]. apply andb_prop in A2 as [A0 A2].
        pose proof (IH r3 ltac:(simpl; lia) false) as H.
        destruct (subn_at false r3) as [t n]. cbn [fst snd] in *.
        rewrite (under_rpl3 _ _ _ _ A0 A2 A3). cbn [count_us].
        rewrite A2, (not_excl_us _ A0), (not_excl_us _ A3). simpl. lia.
      * pose proof (IH (String c2 (String c3 r3)) ltac:(simpl; lia) false) as H.
        destruct (subn_at false (String c2 (String c3 r3))) as [t n]. cbn [fst snd] in *.
        cbn [count_us] in *. lia.
Qed.

Lemma subn_at_zero (s : string) : forall b, snd (subn_at b s) = 0 -> fst (subn_at b s) = s.
Proof.
  induction s as [s IH] using string_len_ind. intros b.
  destruct s as [|c1 [|c2 [|c3 r3]]].
  - reflexivity.
  - reflexivity.
  - rewrite subn_at_eq2.
    destruct (b && is_us c1 && not_excl c2); [discriminate|reflexivity].
  - rewrite subn_at_eq3.
    destruct (b && is_us c1 && not_excl c2).
    + destruct (subn_at false (String c3 r3)). discriminate.
    + destruct (not_excl c1 && is_us c2 && not_excl c3).
      * destruct (subn_at false r3). discriminate.
      * pose proof (IH (String c2 (String c3 r3)) ltac:(simpl; lia) false) as H.
        destruct (subn_at false (String c2 (String c3 r3))) as [t n]. cbn [fst snd] in *.
        intros E. rewrite (H E). reflexivity.
Qed.

Definition first_elig (p : bool) (t : string) : bool :=
  match t with String c r => is_us c && p && next_ok r | EmptyString => false end.

Lemma subn_at_fixed (t : string) : forall b p, snd (subn_at b t) = 0 ->
  (b = false -> first_elig p t = false) -> spaced_label p t = t.
Proof.
  induction t as [|c1 r1 IH]; intros b p Hn Hf; [reflexivity|].
  assert (Hrest : snd (subn_at false r1) = 0 /\ first_elig (not_excl c1) r1 = false /\
                  is_us c1 && p && next_ok r1 = false).
  { destruct r1 as [|c2 [|c3 r3]].
    - split; [reflexivity|]. split; [reflexivity|]. simpl. rewrite !andb_false_r. reflexivity.
    - rewrite subn_at_eq2 in Hn.
      destruct (b && is_us c1 && not_excl c2) eqn:A1; [discriminate|].
      split; [reflexivity|]. split; [simpl; rewrite !andb_false_r; reflexivity|].
      destruct b; [simpl in A1; cbn [next_ok]; destruct (is_us c1), p, (not_excl c2); simpl in *; congruence|].
      exact (Hf eq_refl).
    - rewrite subn_at_eq3 in Hn.
      destruct (b && is_us c1 && not_excl c2) eqn:A1.
      { destruct (subn_at false (String c3 r3)). discriminate. }
      destruct (not_excl c1 && is_us c2 && not_excl c3) eqn:A2.
      { destruct (subn_at false r3). discriminate. }
      destruct (subn_at false (String c2 (String c3 r3))) as [t n] eqn:R. cbn [snd] in Hn.
      split; [exact Hn|]. split.
      + simpl. destruct (is_us c2), (not_excl c1), (not_excl c3); simpl in *; congruence.
      + destruct b; [simpl in A1; cbn [next_ok]; destruct (is_us c1), p, (not_excl c2); simpl in *; congruence|].
        exact (Hf eq_refl). }
  destruct Hrest as (Hn' & Hf' & Hc1).
  cbn [spaced_label]. rewrite Hc1. f_equal. exact (IH false (not_excl c1) Hn' (fun _ => Hf')).
Qed.

Lemma sub_of_fixed (s : string) : forall p t,
  sub_of p s t -> spaced_label p t = t -> t = spaced_label p s.
Proof.
  induction s as [|c r IH]; intros p t Hst Ht.
  - destruct t; [reflexivity|contradiction].
  - destruct t as [|d u]; [contradiction|]. destruct Hst as [Hcd Hru].
    cbn [spaced_label] in Ht |- *. injection Ht as Hd Hu.
    rewrite (sub_of_next_ok _ _ _ Hru) in Hd.
    rewrite (sub_of_not_excl c d p r Hcd) in Hu.
    f_equal; [|exact (IH _ _ Hru Hu)].
    destruct Hcd as [->|[-> Hc]]; [exact (eq_sym Hd)|]. rewrite Hc. reflexivity.
Qed.

Lemma count_us_le (s : string) : count_us s <= String.length s.
Proof. induction s as [|c r IH]; simpl; [lia|]. destruct (is_us c); lia. Qed.

Lemma subn_while_spec (f : nat) : forall s n p0,
  node_label_regex_subn p0 = (s, n) -> (n = 0 \/ count_us s < f) ->
  sub_of true s (subn_while f s n) /\ snd (node_label_regex_subn (subn_while f s n)) = 0.
Proof.
  unfold node_label_regex_subn.
  induction f as [|f IH]; intros s n p0 Hp Hf.
  - destruct Hf as [->|Hf]; [|lia].
    assert (E : s = p0).
    { pose proof (subn_at_zero p0 true) as Z. rewrite Hp in Z. exact (Z eq_refl). }
    subst p0. simpl. split; [apply sub_of_refl|]. rewrite Hp. reflexivity.
  - destruct n as [|n].
    + assert (E : s = p0).
      { pose proof (subn_at_zero p0 true) as Z. rewrite Hp in Z. exact (Z eq_refl). }
      subst p0. simpl. split; [apply sub_of_refl|]. rewrite Hp. reflexivity.
    + cbn [subn_while]. unfold node_label_regex_subn.
      destruct (subn_at true s) as [s' n'] eqn:R.
      pose proof (subn_at_count s true) as Hc. rewrite R in Hc. cbn [fst snd] in Hc.
      pose proof (subn_at_sub s true true (fun _ => eq_refl)) as Hs. rewrite R in Hs. cbn [fst] in Hs.
      destruct (IH s' n' s R) as [H1 H2].
      { destruct n' as [|n']; [left; reflexivity|right]. destruct Hf as [Hf|Hf]; [discriminate|]. lia. }
      split; [exact (sub_of_trans _ _ _ _ Hs H1)|exact H2].
Qed.

Lemma replace_under_score_fuel_enough (s : string) :
  sub_of true s (replace_under_score s) /\
  snd (node_label_regex_subn (replace_under_score s)) = 0.
Proof.
  unfold replace_under_score. destruct (node_label_regex_subn s) as [s1 n] eqn:E.
  pose proof E as E'. unfold node_label_regex_subn in E'.
  pose proof (subn_at_count s true) as Hc. rewrite E' in Hc. cbn [fst snd] in Hc.
  pose proof (subn_at_sub s true true (fun _ => eq_refl)) as Hs. rewrite E' in Hs. cbn [fst] in Hs.
  destruct (subn_while_spec (String.length s) s1 n s E) as [H1 H2].
  { destruct n as [|n]; [left; reflexivity|right]. pose proof (count_us_le s). lia. }
  split; [exact (sub_of_trans _ _ _ _ Hs H1)|exact H2].
Qed.

(** [replace_under_score] turns an underscore of [s] into a space exactly
    when the character after it is not one of [(], [_], space, [)] and it is
    either the first character or the one before it is not one of them
    either; every other character is kept, so the length is unchanged. *)
Theorem replace_under_score_spaced (s : string) :
  replace_under_score s = spaced_label true s.
Proof.
  destruct (replace_under_score_fuel_enough s) as [Hs Hz].
  apply sub_of_fixed; [exact Hs|].
  apply (subn_at_fixed _ true true Hz). discriminate.
Qed.

(** The loop of [replace_under_score] stops on a string the pattern no
    longer matches, so applying it again changes nothing. *)
Theorem replace_under_score_idempotent (s : string) :
  snd (node_label_regex_subn (replace_under_score s)) = 0 /\
  replace_under_score (replace_under_score s) = replace_under_score s.
Proof.
  destruct (replace_under_score_fuel_enough s) as [_ Hz]. split; [exact Hz|].
  set (t := replace_under_score s) in *.
  unfold replace_under_score at 1.
  pose proof (subn_at_zero t true Hz) as Ht. unfold node_label_regex_subn in *.
  destruct (subn_at true t) as [t1 n] eqn:E. cbn [fst snd] in Hz, Ht. subst.
  destruct (String.length t); reflexivity.
Qed.

End Draw.
